(** * Block designs: a shallow embedding of [sage/combinat/designs/block_design.py]

    Python integers are modelled by [Z], Python lists by [list], exceptions by
    an error monad.  Collaborators that live outside the module (the incidence
    structure class, the finite field constructor, the vector space library,
    GAP and the orthogonal array checker) are passed as explicit
    arguments. *)

From Stdlib Require Import ZArith List Bool Lia Permutation QArith Qround Znumtheory Ring Sorted.
Import ListNotations.
Open Scope Z_scope.

(** ** Exceptions and the error monad *)

Inductive error : Set :=
| AssertionError
| ValueError
| TypeError
| KeyError
| IndexError
| AttributeError
| ZeroDivisionError
| RuntimeError
| EmptySetError
| NotImplementedError.

Inductive result (A : Type) : Type :=
| Ok (a : A)
| Err (e : error).
Arguments Ok {A} a.
Arguments Err {A} e.

Definition bind {A B : Type} (m : result A) (f : A -> result B) : result B :=
  match m with
  | Ok a => f a
  | Err e => Err e
  end.

Notation "x <- m ;; k" := (bind m (fun x => k))
  (at level 61, m at next level, right associativity).

Definition assert (b : bool) : result unit :=
  if b then Ok tt else Err AssertionError.

(** [[f(x) for x in l]] when [f] may raise. *)
Fixpoint mapM {A B : Type} (f : A -> result B) (l : list A) : result (list B) :=
  match l with
  | [] => Ok []
  | x :: l' => y <- f x ;; ys <- mapM f l' ;; Ok (y :: ys)
  end.

(** ** Python list primitives *)

Definition len {A : Type} (l : list A) : Z := Z.of_nat (length l).

(** [range(a, b)] *)
Definition range2 (a b : Z) : list Z :=
  map (fun i => a + Z.of_nat i) (seq 0 (Z.to_nat (b - a))).

(** [range(n)] and [xrange(n)] *)
Definition range (n : Z) : list Z := range2 0 n.

(** [enumerate(l)], counting from [start] *)
Fixpoint enumerate_from {A : Type} (start : Z) (l : list A) : list (Z * A) :=
  match l with
  | [] => []
  | x :: l' => (start, x) :: enumerate_from (start + 1) l'
  end.

Definition enumerate {A : Type} (l : list A) : list (Z * A) := enumerate_from 0 l.

(** [x in l] on a list of integers *)
Definition mem (x : Z) (l : list Z) : bool := existsb (Z.eqb x) l.

(** [l.remove(x)]: deletes the first occurrence, [ValueError] when there is none *)
Fixpoint list_remove (x : Z) (l : list Z) : result (list Z) :=
  match l with
  | [] => Err ValueError
  | y :: l' => if y =? x then Ok l' else r <- list_remove x l' ;; Ok (y :: r)
  end.

(** [l[0]] *)
Definition first {A : Type} (l : list A) : result A :=
  match l with
  | [] => Err IndexError
  | x :: _ => Ok x
  end.

(** [sorted(l)] by insertion, for a comparison [leb]. *)
Fixpoint insert_sorted {A : Type} (leb : A -> A -> bool) (p : A) (l : list A) : list A :=
  match l with
  | [] => [p]
  | q :: l' => if leb p q then p :: q :: l' else q :: insert_sorted leb p l'
  end.

Fixpoint isort {A : Type} (leb : A -> A -> bool) (l : list A) : list A :=
  match l with
  | [] => []
  | p :: l' => insert_sorted leb p (isort leb l')
  end.

(** Tuples [(j, i)] compare lexicographically. *)
Definition pair_leb (p q : Z * Z) : bool :=
  (fst p <? fst q) || ((fst p =? fst q) && (snd p <=? snd q)).

(** [sorted(l)] on a list of pairs of integers *)
Definition sorted (l : list (Z * Z)) : list (Z * Z) := isort pair_leb l.

(** A dictionary built from a sequence of items: a later item with the same
    key overrides an earlier one, so a lookup finds the last item for the key. *)
Definition dict (K V : Type) : Type := list (K * V).

Fixpoint dict_get {K V : Type} (eqb : K -> K -> bool) (d : dict K V) (k : K) : result V :=
  match d with
  | [] => Err KeyError
  | (k', v) :: d' =>
      match dict_get eqb d' k with
      | Ok v' => Ok v'
      | Err _ => if eqb k' k then Ok v else Err KeyError
      end
  end.

(** ** Parameter derivation *)

(** Pascal's triangle. *)
Fixpoint binom (n k : nat) : Z :=
  match k, n with
  | O, _ => 1
  | S _, O => 0
  | S k', S n' => binom n' k' + binom n' k
  end.

Fixpoint factorial (n : nat) : Z :=
  match n with
  | O => 1
  | S n' => Z.of_nat n * factorial n'
  end.

(** Modelled from the spec: [binomial] of [sage.rings.arith], the binomial
    coefficient [C(x, m)]; it is zero for negative [m], and for negative [x]
    it follows the upper negation identity. *)
Definition binomial (x m : Z) : Z :=
  if m <? 0 then 0
  else if x <? 0 then (-1) ^ m * binom (Z.to_nat (m - x - 1)) (Z.to_nat m)
  else binom (Z.to_nat x) (Z.to_nat m).

(** [divmod(a, b)] on integers: floor division, [ZeroDivisionError] on [b = 0] *)
Definition divmod (a b : Z) : result (Z * Z) :=
  if b =? 0 then Err ZeroDivisionError else Ok (a / b, a mod b).

(** [a / b] on Sage integers is an exact rational. *)
Definition rational_div (a b : Z) : result Q :=
  if b =? 0 then Err ZeroDivisionError else Ok (inject_Z a / inject_Z b)%Q.

(** [integer_floor] of a rational *)
Definition integer_floor (x : Q) : Z := Qfloor x.

Definition tdesign_params (t v k L : Z) : result (Z * Z * Z * Z * Z * Z) :=
  let x := binomial v t in
  let y := binomial k t in
  qr <- divmod (L * x) y ;;
  let b := fst qr in
  let x := binomial (v - 1) (t - 1) in
  let y := binomial (k - 1) (t - 1) in
  q <- rational_div (L * x) y ;;
  let r := integer_floor q in
  Ok (t, v, b, r, k, L).

(** ** Designs and the incidence structure collaborator *)

Record design : Type := mk_design {
  pnts : list Z;
  blcks : list (list Z)
}.

(** The class [IncidenceStructure] is imported from another module.  Two
    things about it matter here: how it stores the block list it is given
    ([store_blocks]), and what the parameter test of [BlockDesign] answers
    on the stored structure ([block_design_checker], applied to the
    parameters computed by [parameters(t=2)]). *)
Record Facade : Type := mk_facade {
  store_blocks : list (list Z) -> list (list Z);
  block_design_checker : design -> bool
}.

Definition IncidenceStructure (fac : Facade) (pts : list Z) (blks : list (list Z)) : design :=
  {| pnts := pts; blcks := store_blocks fac blks |}.

Definition BlockDesign (fac : Facade) (max_pt : Z) (blks : list (list Z)) (test : bool)
  : result design :=
  let BD := IncidenceStructure fac (range max_pt) blks in
  if negb test then Ok BD
  else if block_design_checker fac BD then Ok BD
  else Err TypeError.

(** ** Finite fields *)

(** What the module uses of a finite field object: iteration over its
    elements, equality (the dictionary lookup), sum and product.
    [dict_iter] is the order in which Python iterates over a dictionary
    whose keys are the elements of the field. *)
Record FieldObj : Type := mk_field {
  carrier : Type;
  elements : list carrier;
  dict_iter : list carrier;
  feqb : carrier -> carrier -> bool;
  fadd : carrier -> carrier -> carrier;
  fmul : carrier -> carrier -> carrier
}.

(** [F.order()] *)
Definition order (F : FieldObj) : Z := len (elements F).

(** ** The Desarguesian plane *)

(** [relabel = {x:i for i,x in enumerate(K)}] *)
Definition relabel_dict (K : FieldObj) : dict (carrier K) Z :=
  map (fun ix => (snd ix, fst ix)) (enumerate (elements K)).

Definition relabel (K : FieldObj) (x : carrier K) : result Z :=
  dict_get (feqb K) (relabel_dict K) x.

(** The line [x = s*y + a] together with its point at infinity. *)
Definition slope_line (K : FieldObj) (n : Z) (s a : carrier K) : result (list Z) :=
  blk <- mapM (fun y =>
                 i <- relabel K (fadd K (fmul K s y) a) ;;
                 j <- relabel K y ;;
                 Ok (i + n * j)) (dict_iter K) ;;
  i <- relabel K s ;;
  Ok (blk ++ [n ^ 2 + i]).

(** The horizontal line [y = a] together with the point [(1:0:0)]. *)
Definition horizontal_line (K : FieldObj) (n : Z) (a : carrier K) : result (list Z) :=
  blk <- mapM (fun x =>
                 i <- relabel K x ;;
                 j <- relabel K a ;;
                 Ok (i + n * j)) (dict_iter K) ;;
  Ok (blk ++ [n ^ 2 + n]).

Definition infinity_line (n : Z) : list Z :=
  map (fun i => n ^ 2 + i) (range (n + 1)).

Definition desarguesian_blocks (K : FieldObj) (n : Z) : result (list (list Z)) :=
  lines <- mapM (fun sa => slope_line K n (fst sa) (snd sa))
                (list_prod (dict_iter K) (dict_iter K)) ;;
  horiz <- mapM (horizontal_line K n) (dict_iter K) ;;
  Ok (lines ++ horiz ++ [infinity_line n]).

(** [FiniteField n] is [None] when the constructor raises [ValueError]. *)
Definition DesarguesianProjectivePlaneDesign
    (FiniteField : Z -> option FieldObj) (fac : Facade) (n : Z) (check : bool)
  : result design :=
  match FiniteField n with
  | None => Err ValueError
  | Some K =>
      let n2 := n ^ 2 in
      blcks <- desarguesian_blocks K n ;;
      BlockDesign fac (n2 + n + 1) blcks check
  end.

(** ** From a projective plane to an orthogonal array *)

(** The loop over the blocks: the lines through [pt] go to [L] with [pt]
    removed, the others go to [OA]. *)
Fixpoint pencil_loop (n pt : Z) (blks : list (list Z)) (L OA : list (list Z))
  : result (list (list Z) * list (list Z)) :=
  match blks with
  | [] => Ok (L, OA)
  | blk :: rest =>
      _ <- assert (len blk =? n + 1) ;;
      if mem pt blk then
        b <- list_remove pt blk ;;
        pencil_loop n pt rest (L ++ [b]) OA
      else
        pencil_loop n pt rest L (OA ++ [blk])
  end.

(** [dict((x,(j,i)) for j,l in enumerate(L) for i,x in enumerate(l))] *)
Definition pencil_dict (L : list (list Z)) : dict Z (Z * Z) :=
  flat_map (fun jl => map (fun ix => (snd ix, (fst jl, fst ix))) (enumerate (snd jl)))
           (enumerate L).

Definition OA_row (d : dict Z (Z * Z)) (l : list Z) : result (list Z) :=
  r <- mapM (dict_get Z.eqb d) l ;;
  Ok (map snd (sorted r)).

(** [is_orthogonal_array] is imported from [orthogonal_arrays]; its answer is
    computed and dropped. *)
Definition projective_plane_to_OA
    (is_orthogonal_array : list (list Z) -> Z -> Z -> Z -> bool)
    (pplane : design) (pt : option Z) (check : bool) : result (list (list Z)) :=
  b0 <- first (blcks pplane) ;;
  let n := len b0 - 1 in
  _ <- assert (len (blcks pplane) =? n ^ 2 + n + 1) ;;
  let pt := match pt with None => n ^ 2 + n | Some p => p end in
  LOA <- pencil_loop n pt (blcks pplane) [] [] ;;
  _ <- assert (len (fst LOA) =? n + 1) ;;
  let relabel := pencil_dict (fst LOA) in
  OA <- mapM (OA_row relabel) (snd LOA) ;;
  if check then
    let _answer := is_orthogonal_array OA (n + 1) n 2 in
    Ok OA
  else Ok OA.

(** *** The same function on a store of list objects

    A list object is a cell of the heap, named by its address; [blk[:]]
    allocates a new cell, [b.remove(pt)] updates a cell in place. *)
Definition heap : Type := list (list Z).
Definition ref : Type := nat.

Definition deref (h : heap) (r : ref) : result (list Z) :=
  match nth_error h r with
  | Some l => Ok l
  | None => Err RuntimeError
  end.

Definition alloc (h : heap) (l : list Z) : heap * ref := (h ++ [l], length h).

Fixpoint update (h : heap) (r : ref) (l : list Z) : heap :=
  match h, r with
  | [], _ => []
  | _ :: h', O => l :: h'
  | c :: h', S r' => c :: update h' r' l
  end.

Fixpoint pencil_loop_heap (n pt : Z) (blks : list ref) (L OA : list ref) (h : heap)
  : result (list ref * list ref * heap) :=
  match blks with
  | [] => Ok (L, OA, h)
  | blk :: rest =>
      v <- deref h blk ;;
      _ <- assert (len v =? n + 1) ;;
      if mem pt v then
        let '(h1, b) := alloc h v in
        vb <- deref h1 b ;;
        vb' <- list_remove pt vb ;;
        let h2 := update h1 b vb' in
        pencil_loop_heap n pt rest (L ++ [b]) OA h2
      else
        pencil_loop_heap n pt rest L (OA ++ [blk]) h
  end.

Definition projective_plane_to_OA_heap
    (is_orthogonal_array : list (list Z) -> Z -> Z -> Z -> bool)
    (pplane_blcks : list ref) (pt : option Z) (check : bool) (h : heap)
  : result (list (list Z) * heap) :=
  r0 <- first pplane_blcks ;;
  b0 <- deref h r0 ;;
  let n := len b0 - 1 in
  _ <- assert (len pplane_blcks =? n ^ 2 + n + 1) ;;
  let pt := match pt with None => n ^ 2 + n | Some p => p end in
  st <- pencil_loop_heap n pt pplane_blcks [] [] h ;;
  let '(L, OA, h') := st in
  _ <- assert (len L =? n + 1) ;;
  Lv <- mapM (deref h') L ;;
  let relabel := pencil_dict Lv in
  OA <- mapM (fun r => l <- deref h' r ;; OA_row relabel l) OA ;;
  if check then
    let _answer := is_orthogonal_array OA (n + 1) n 2 in
    Ok (OA, h')
  else Ok (OA, h').

(** ** From an orthogonal array to a projective plane *)

Definition transversal_block (n : Z) (l : list Z) : list Z :=
  map (fun ij => fst ij + (n + 1) * snd ij) (enumerate l).

Definition group_block (n : Z) (i : Z) : list Z :=
  range2 (i * n) ((i + 1) * n) ++ [n ^ 2 + n].

Definition OA_to_projective_plane (fac : Facade) (OA : list (list Z)) (check : bool)
  : result design :=
  row0 <- first OA ;;
  let n := len row0 - 1 in
  let n2 := n ^ 2 in
  _ <- assert (len OA =? n2) ;;
  let blcks := map (transversal_block n) OA ++ map (group_block n) (range (n + 1)) in
  BlockDesign fac (n2 + n + 1) blcks check.

(** ** Existence of a plane of a given order *)

(** Modelled from the spec: [two_squares] of [sage.rings.arith], which
    writes [n] as a sum of two integer squares and raises [ValueError] when
    that is impossible. *)
Definition two_squares (n : Z) : result (Z * Z) :=
  match find (fun a => a * a + Z.sqrt (n - a * a) * Z.sqrt (n - a * a) =? n)
             (range (Z.sqrt n + 1)) with
  | Some a => Ok (a, Z.sqrt (n - a * a))
  | None => Err ValueError
  end.

Definition is_prime_b (p : Z) : bool :=
  (2 <=? p) && forallb (fun d => negb (p mod d =? 0)) (range2 2 p).

(** Modelled from the spec: [is_prime_power] of [sage.rings.arith], which
    tells whether [n] is a positive power of a prime number. *)
Definition is_prime_power (n : Z) : bool :=
  existsb (fun p => is_prime_b p && existsb (fun k => p ^ k =? n) (range2 1 (n + 1)))
          (range2 2 (n + 1)).

Definition projective_plane
    (FiniteField : Z -> option FieldObj) (fac : Facade) (n : Z) : result design :=
  if n <=? 1 then Err EmptySetError
  else if n =? 10 then Err EmptySetError
  else
    _ <- (if mem (n mod 4) [1; 2] then
            match two_squares n with
            | Ok _ => Ok tt
            | Err ValueError => Err EmptySetError
            | Err e => Err e
            end
          else Ok tt) ;;
    if negb (is_prime_power n) then Err NotImplementedError
    else DesarguesianProjectivePlaneDesign FiniteField fac n true.

(** ** Geometry designs *)

(** The argument [F] of the geometry constructors, as a caller may pass it:
    a finite field, a Python [int], or a Sage [Integer]. *)
Inductive field_arg : Type :=
| FieldObject (K : FieldObj)
| PyInt (q : Z)
| SageInteger (q : Z).

(** What [F.order()] can return: a field has a finite order, and the method
    of the same name of a Sage integer returns its additive order. *)
Inductive order_value : Set :=
| FiniteOrder (q : Z)
| InfiniteOrder.

(** [F.order()]: a Python [int] has no such method; for a Sage [Integer] it
    is the additive order, 1 for zero and [+Infinity] otherwise. *)
Definition order_method (F : field_arg) : result order_value :=
  match F with
  | FieldObject K => Ok (FiniteOrder (order K))
  | PyInt _ => Err AttributeError
  | SageInteger q => Ok (if q =? 0 then FiniteOrder 1 else InfiniteOrder)
  end.

(** The order as an integer, where the code computes with it. *)
Definition order_int (q : order_value) : result Z :=
  match q with
  | FiniteOrder z => Ok z
  | InfiniteOrder => Err TypeError
  end.

(** [int(F)]: a field object does not convert. *)
Definition int_of (F : field_arg) : result Z :=
  match F with
  | FieldObject _ => Err TypeError
  | PyInt q => Ok q
  | SageInteger q => Ok q
  end.

(** The vector space collaborator: [VectorSpace(F, m).subspaces(k)] and
    [p.is_subspace(f)]. *)
Record VectorSpaceLib : Type := mk_vslib {
  Subspace : FieldObj -> Type;
  subspaces : forall K : FieldObj, Z -> Z -> list (Subspace K);
  is_subspace : forall K : FieldObj, Subspace K -> Subspace K -> bool
}.

(** The two documented values of the argument [algorithm]. *)
Inductive algorithm : Set := SageAlgorithm | GapAlgorithm.

(** [[i for i in range(len(flats)) if p.is_subspace(flats[i])]] *)
Definition flats_through {A : Type} (inc : A -> A -> bool) (flats : list A) (p : A) : list Z :=
  map fst (filter (fun ifl => inc p (snd ifl)) (enumerate flats)).

(** [gap_pg q n d] stands for the answer of GAP's [PGPointFlatBlockDesign]:
    its number of points and its blocks, numbered from one.  With the
    default algorithm [VectorSpace(F, n+1)] raises on an [F] that is not a
    field; with GAP an order that is [+Infinity] is text that GAP cannot
    evaluate. *)
Definition ProjectiveGeometryDesign
    (vs : VectorSpaceLib) (gap_pg : Z -> Z -> Z -> result (Z * list (list Z)))
    (fac : Facade) (n d : Z) (F : field_arg) (alg : algorithm) : result design :=
  q <- order_method F ;;
  match alg with
  | SageAlgorithm =>
      match F with
      | FieldObject K =>
          let points := subspaces vs K (n + 1) 1 in
          let flats := subspaces vs K (n + 1) (d + 1) in
          let blcks := map (flats_through (is_subspace vs K) flats) points in
          z <- order_int q ;;
          qr <- divmod (z ^ (n + 1) - 1) (z - 1) ;;
          let v := fst qr in
          BlockDesign fac v blcks true
      | PyInt _ | SageInteger _ => Err AttributeError
      end
  | GapAlgorithm =>
      match q with
      | InfiniteOrder => Err RuntimeError
      | FiniteOrder z =>
          D <- gap_pg z n d ;;
          let gB := map (map (fun x => x - 1)) (snd D) in
          BlockDesign fac (fst D) gB true
      end
  end.

(** [gap_ag q n d] stands for the answer of GAP: the affine flats of
    dimension [d] of [GF(q)^n] as sets of point numbers, counted from one. *)
Definition AffineGeometryDesign
    (gap_ag : Z -> Z -> Z -> result (list (list Z)))
    (fac : Facade) (n d : Z) (F : field_arg) : result design :=
  q <- match int_of F with
       | Ok q => Ok q
       | Err TypeError => o <- order_method F ;; order_int o
       | Err e => Err e
       end ;;
  gblcks <- gap_ag q n d ;;
  let v := q ^ n in
  let gB := map (map (fun x => x - 1)) gblcks in
  BlockDesign fac v gB true.

(** [gap_witt n] stands for the answer of GAP's [WittDesign]: its number of
    points and its blocks, numbered from one. *)
Definition WittDesign
    (gap_witt : Z -> result (Z * list (list Z))) (fac : Facade) (n : Z) : result design :=
  B <- gap_witt n ;;
  let v := fst B in
  let gB := map (map (fun x => x - 1)) (snd B) in
  BlockDesign fac v gB true.

(** ** Sample collaborators *)

(** The field with two elements. *)
Definition GF2 : FieldObj :=
  {| carrier := bool;
     elements := [false; true];
     dict_iter := [false; true];
     feqb := Bool.eqb;
     fadd := xorb;
     fmul := andb |}.

(** The field with three elements. *)
Inductive F3 : Set := f3_0 | f3_1 | f3_2.

Definition F3_to_Z (x : F3) : Z :=
  match x with f3_0 => 0 | f3_1 => 1 | f3_2 => 2 end.

Definition F3_of_Z (z : Z) : F3 :=
  match z mod 3 with 0 => f3_0 | 1 => f3_1 | _ => f3_2 end.

Definition GF3 : FieldObj :=
  {| carrier := F3;
     elements := [f3_0; f3_1; f3_2];
     dict_iter := [f3_0; f3_1; f3_2];
     feqb := fun x y => F3_to_Z x =? F3_to_Z y;
     fadd := fun x y => F3_of_Z (F3_to_Z x + F3_to_Z y);
     fmul := fun x y => F3_of_Z (F3_to_Z x * F3_to_Z y) |}.

(** The field with four elements, [GF(2)[x] / (x^2 + x + 1)]: the pair
    [(a, b)] stands for [a + b*x].  The dictionary is iterated in another
    order than the field. *)
Definition GF4 : FieldObj :=
  {| carrier := bool * bool;
     elements := [(false, false); (false, true); (true, true); (true, false)];
     dict_iter := [(false, false); (true, false); (false, true); (true, true)];
     feqb := fun x y => Bool.eqb (fst x) (fst y) && Bool.eqb (snd x) (snd y);
     fadd := fun x y => (xorb (fst x) (fst y), xorb (snd x) (snd y));
     fmul := fun x y =>
               (xorb (fst x && fst y) (snd x && snd y),
                xorb (xorb (fst x && snd y) (snd x && fst y)) (snd x && snd y)) |}.

(** The field with five elements. *)
Inductive F5 : Set := f5_0 | f5_1 | f5_2 | f5_3 | f5_4.

Definition F5_to_Z (x : F5) : Z :=
  match x with f5_0 => 0 | f5_1 => 1 | f5_2 => 2 | f5_3 => 3 | f5_4 => 4 end.

Definition F5_of_Z (z : Z) : F5 :=
  match z mod 5 with 0 => f5_0 | 1 => f5_1 | 2 => f5_2 | 3 => f5_3 | _ => f5_4 end.

Definition GF5 : FieldObj :=
  {| carrier := F5;
     elements := [f5_0; f5_1; f5_2; f5_3; f5_4];
     dict_iter := [f5_0; f5_1; f5_2; f5_3; f5_4];
     feqb := fun x y => F5_to_Z x =? F5_to_Z y;
     fadd := fun x y => F5_of_Z (F5_to_Z x + F5_to_Z y);
     fmul := fun x y => F5_of_Z (F5_to_Z x * F5_to_Z y) |}.

(** A finite field constructor that knows the orders 2, 3, 4 and 5. *)
Definition small_fields (n : Z) : option FieldObj :=
  if n =? 2 then Some GF2
  else if n =? 3 then Some GF3
  else if n =? 4 then Some GF4
  else if n =? 5 then Some GF5
  else None.

(** Lists of integers compare lexicographically. *)
Fixpoint list_leb (l1 l2 : list Z) : bool :=
  match l1, l2 with
  | [], _ => true
  | _ :: _, [] => false
  | x :: l1', y :: l2' => (x <? y) || ((x =? y) && list_leb l1' l2')
  end.

(** Number of blocks that hold the point [p]. *)
Definition replication (blks : list (list Z)) (p : Z) : Z :=
  len (filter (mem p) blks).

(** Number of blocks that hold both [p] and [q]. *)
Definition pair_count (blks : list (list Z)) (p q : Z) : Z :=
  len (filter (fun b => mem p b && mem q b) blks).

Definition all_equal (l : list Z) : bool :=
  match l with
  | [] => true
  | x :: l' => forallb (Z.eqb x) l'
  end.

(** A test of the block sizes and of the replication numbers only. *)
Definition regular_checker (D : design) : bool :=
  all_equal (map len (blcks D)) && all_equal (map (replication (blcks D)) (pnts D)).

(** Modelled from the spec: the invariant of a 2-design, "every point lies in
    the same number r of blocks; every t-subset of points lies in the same
    number of blocks", with blocks of one size. *)
Definition two_design_checker (D : design) : bool :=
  regular_checker D &&
  all_equal (map (fun pq => pair_count (blcks D) (fst pq) (snd pq))
                 (filter (fun pq => fst pq <? snd pq) (list_prod (pnts D) (pnts D)))).

(** A facade that keeps the blocks as they are given. *)
Definition plain_facade (chk : design -> bool) : Facade :=
  {| store_blocks := fun blks => blks; block_design_checker := chk |}.

(** A facade that sorts every block and then the list of blocks. *)
Definition sorting_facade (chk : design -> bool) : Facade :=
  {| store_blocks := fun blks => isort list_leb (map (isort Z.leb) blks);
     block_design_checker := chk |}.

(** Vectors of length [m] over a field. *)
Fixpoint vectors (K : FieldObj) (m : nat) : list (list (carrier K)) :=
  match m with
  | O => [[]]
  | S m' => flat_map (fun x => map (cons x) (vectors K m')) (elements K)
  end.

(** The sublists with [k] elements. *)
Fixpoint choose {A : Type} (k : nat) (l : list A) : list (list A) :=
  match k, l with
  | O, _ => [[]]
  | S _, [] => []
  | S k', x :: l' => map (cons x) (choose k' l') ++ choose k l'
  end.

Fixpoint vec_eqb (K : FieldObj) (u v : list (carrier K)) : bool :=
  match u, v with
  | [], [] => true
  | x :: u', y :: v' => feqb K x y && vec_eqb K u' v'
  | _, _ => false
  end.

Definition vec_mem (K : FieldObj) (u : list (carrier K)) (S : list (list (carrier K))) : bool :=
  existsb (vec_eqb K u) S.

Definition vec_add (K : FieldObj) (u v : list (carrier K)) : list (carrier K) :=
  map (fun xy => fadd K (fst xy) (snd xy)) (combine u v).

Definition vec_scale (K : FieldObj) (c : carrier K) (u : list (carrier K)) : list (carrier K) :=
  map (fmul K c) u.

(** A non-empty set of vectors closed under sum and scaling. *)
Definition is_linear (K : FieldObj) (S : list (list (carrier K))) : bool :=
  negb (len S =? 0)
  && forallb (fun u => forallb (fun v => vec_mem K (vec_add K u v) S) S) S
  && forallb (fun c => forallb (fun u => vec_mem K (vec_scale K c u) S) S) (elements K).

(** Modelled from the spec: the vector space collaborator, "enumeration of
    its subspaces of a given dimension" and the "subspace-containment test".
    A subspace is the list of its vectors; the subspaces of dimension [k]
    are the linear sets of [q^k] vectors. *)
Definition listed_spaces : VectorSpaceLib :=
  {| Subspace := fun K => list (list (carrier K));
     subspaces := fun K m k =>
       filter (is_linear K)
              (choose (Z.to_nat (order K ^ k)) (vectors K (Z.to_nat m)));
     is_subspace := fun K S T => forallb (fun u => vec_mem K u T) S |}.

(** GAP replaced by a stub that always fails. *)
Definition no_gap_pg (q n d : Z) : result (Z * list (list Z)) := Err RuntimeError.

(** The orthogonality test of an array with [k] columns on [n] symbols:
    [n^2] rows of width [k], and in every two columns every ordered pair of
    symbols once. *)
Definition nthZ (l : list Z) (i : Z) : Z := nth (Z.to_nat i) l (-1).

Definition orthogonal_test (M : list (list Z)) (k n t : Z) : bool :=
  (len M =? n ^ 2)
  && forallb (fun l => len l =? k) M
  && forallb (fun c1 => forallb (fun c2 =>
       (c1 =? c2) ||
       forallb (fun a => forallb (fun b =>
         len (filter (fun l => (nthZ l c1 =? a) && (nthZ l c2 =? b)) M) =? 1)
         (range n)) (range n)) (range k)) (range k).

(** ** Predicates used in the statements *)

Definition sum_of_two_squares (n : Z) : Prop := exists a b : Z, n = a * a + b * b.

Definition prime_power (n : Z) : Prop :=
  exists p k : Z, Z.prime p /\ 0 < k /\ n = p ^ k.

(** The orders for which [projective_plane] knows that there is no plane. *)
Definition no_plane_known (n : Z) : Prop :=
  n <= 1 \/ n = 10 \/ ((n mod 4 = 1 \/ n mod 4 = 2) /\ ~ sum_of_two_squares n).

(** Two designs are isomorphic when a relabeling of the points, one to one
    from the points of the first onto the points of the second, carries the
    blocks of the first onto the blocks of the second, in some order. *)
Definition isomorphic (D1 D2 : design) : Prop :=
  exists f : Z -> Z,
    Permutation (map f (pnts D1)) (pnts D2)
    /\ exists bl, Permutation bl (blcks D2)
                  /\ Forall2 (fun b b' => Permutation (map f b) b') (blcks D1) bl.

(** No two blocks share two points unless they hold the same points. *)
Definition blocks_meet_once (blks : list (list Z)) : bool :=
  forallb (fun b1 => forallb (fun b2 =>
    forallb (fun u => forallb (fun v =>
      negb (mem u b2 && mem v b2 && negb (u =? v)) || forallb (fun w => mem w b2) b1)
      b1) b1) blks) blks.

(** Position of the first [x] in [l]. *)
Fixpoint position {A : Type} (eqb : A -> A -> bool) (x : A) (l : list A) : Z :=
  match l with
  | [] => 0
  | y :: l' => if eqb y x then 0 else 1 + position eqb x l'
  end.

(** The laws of a field, for the sum and product of a field object. *)
Definition field_laws (K : FieldObj) (zero one : carrier K)
    (opp inv : carrier K -> carrier K) : Prop :=
  (forall x, fadd K zero x = x)
  /\ (forall x y, fadd K x y = fadd K y x)
  /\ (forall x y z, fadd K x (fadd K y z) = fadd K (fadd K x y) z)
  /\ (forall x, fmul K one x = x)
  /\ (forall x y, fmul K x y = fmul K y x)
  /\ (forall x y z, fmul K x (fmul K y z) = fmul K (fmul K x y) z)
  /\ (forall x y z, fmul K (fadd K x y) z = fadd K (fmul K x z) (fmul K y z))
  /\ (forall x, fadd K x (opp x) = zero)
  /\ (forall x, x <> zero -> fmul K x (inv x) = one)
  /\ zero <> one.

(** A field object of order [n]: its enumeration and the iteration over a
    dictionary of its elements both list every element once, its equality
    test decides equality, and its operations obey the laws of a field. *)
Definition is_finite_field (K : FieldObj) (n : Z) : Prop :=
  order K = n
  /\ NoDup (elements K) /\ (forall x, In x (elements K))
  /\ NoDup (dict_iter K) /\ (forall x, In x (dict_iter K))
  /\ (forall x y, feqb K x y = true <-> x = y)
  /\ exists zero one opp inv, field_laws K zero one opp inv.

(** Two blocks with exactly one common point. *)
Definition meet_in_one_point (b1 b2 : list Z) : Prop :=
  exists p, In p b1 /\ In p b2 /\ forall q, In q b1 -> In q b2 -> q = p.

(** An incidence structure that keeps the blocks it is given, up to the
    order of the blocks and the order of the points inside a block. *)
Definition keeps_blocks (fac : Facade) : Prop :=
  forall blks, exists bl,
    Permutation blks bl /\ Forall2 (@Permutation Z) bl (store_blocks fac blks).

(** The labels of the line [x = s*y + a], of the line [y = a]. *)
Definition slope_points (K : FieldObj) (n : Z) (s a : carrier K) : list Z :=
  map (fun y => position (feqb K) (fadd K (fmul K s y) a) (elements K)
                + n * position (feqb K) y (elements K)) (dict_iter K)
  ++ [n ^ 2 + position (feqb K) s (elements K)].

Definition horizontal_points (K : FieldObj) (n : Z) (a : carrier K) : list Z :=
  map (fun x => position (feqb K) x (elements K)
                + n * position (feqb K) a (elements K)) (dict_iter K)
  ++ [n ^ 2 + n].

(** What makes a list of blocks the lines of a plane of order [n] on the
    points [pts]: every block has [n + 1] distinct points, and two blocks at
    different places of the list meet in exactly one point. *)
Definition plane_blocks (n : Z) (pts : list Z) (blks : list (list Z)) : Prop :=
  Forall (fun b => len b = n + 1 /\ NoDup b /\ incl b pts) blks
  /\ forall (i j : nat) (b1 b2 : list Z),
       i <> j -> nth_error blks i = Some b1 -> nth_error blks j = Some b2 ->
       meet_in_one_point b1 b2.

(** A projective plane of order [n], as a 2-design: [n^2+n+1] points and as
    many blocks, [n + 1] points on every block, two blocks meet in exactly
    one point and two points lie on a common block. *)
Definition is_projective_plane (n : Z) (D : design) : Prop :=
  2 <= n
  /\ NoDup (pnts D) /\ len (pnts D) = n ^ 2 + n + 1
  /\ len (blcks D) = n ^ 2 + n + 1
  /\ plane_blocks n (pnts D) (blcks D)
  /\ forall p q, In p (pnts D) -> In q (pnts D) -> p <> q ->
                 exists b, In b (blcks D) /\ In p b /\ In q b.

(** An orthogonal array of strength 2 with [k] columns on the symbols
    [0 .. n-1]: [n^2] rows of width [k], and for two different columns every
    ordered pair of symbols in exactly one row. *)
Definition is_OA (k n : Z) (OA : list (list Z)) : Prop :=
  len OA = n ^ 2
  /\ Forall (fun row => len row = k /\ Forall (fun x => 0 <= x < n) row) OA
  /\ forall c1 c2 a b,
       0 <= c1 < k -> 0 <= c2 < k -> c1 <> c2 -> 0 <= a < n -> 0 <= b < n ->
       exists (r : nat) (row : list Z),
         nth_error OA r = Some row /\ nthZ row c1 = a /\ nthZ row c2 = b
         /\ forall (r' : nat) (row' : list Z),
              nth_error OA r' = Some row' -> nthZ row' c1 = a -> nthZ row' c2 = b ->
              r' = r.

(** The order on tuples that [pair_leb] decides. *)
Definition pair_le (p q : Z * Z) : Prop := pair_leb p q = true.

(** A line of the plane [D] through [pt], and what is left of it once [pt]
    is removed. *)
Definition pencil_line (n : Z) (D : design) (pt : Z) (b l : list Z) : Prop :=
  In b (blcks D) /\ In pt b /\ NoDup l /\ len l = n
  /\ forall x, In x l <-> In x b /\ x <> pt.

(** A decision procedure for [is_projective_plane] on a given design. *)
Fixpoint nodup_b (l : list Z) : bool :=
  match l with
  | [] => true
  | x :: l' => negb (mem x l') && nodup_b l'
  end.

Fixpoint pairwise_b {A : Type} (f : A -> A -> bool) (l : list A) : bool :=
  match l with
  | [] => true
  | x :: l' => forallb (f x) l' && pairwise_b f l'
  end.

Definition common_points (b1 b2 : list Z) : list Z := filter (fun x => mem x b2) b1.

Definition plane_test (n : Z) (D : design) : bool :=
  (2 <=? n)
  && nodup_b (pnts D) && (len (pnts D) =? n ^ 2 + n + 1)
  && (len (blcks D) =? n ^ 2 + n + 1)
  && forallb (fun b => (len b =? n + 1) && nodup_b b
                       && forallb (fun x => mem x (pnts D)) b) (blcks D)
  && pairwise_b (fun b1 b2 => len (common_points b1 b2) =? 1) (blcks D)
  && forallb (fun p => forallb (fun q =>
       (p =? q) || existsb (fun b => mem p b && mem q b) (blcks D)) (pnts D)) (pnts D).

(** A decision procedure for [is_OA]: the orthogonality test together with
    the range of the symbols. *)
Definition OA_test (k n : Z) (M : list (list Z)) : bool :=
  orthogonal_test M k n 2
  && forallb (forallb (fun x => (0 <=? x) && (x <? n))) M.

(** [1 + q + ... + q^n] *)
Fixpoint geometric_sum (q : Z) (n : nat) : Z :=
  match n with
  | O => 1
  | S n' => geometric_sum q n' + q ^ Z.of_nat n
  end.

(** The same field object with another iteration order of the dictionary. *)
Definition with_dict_iter (K : FieldObj) (iter : list (carrier K)) : FieldObj :=
  {| carrier := carrier K;
     elements := elements K;
     dict_iter := iter;
     feqb := feqb K;
     fadd := fadd K;
     fmul := fmul K |}.

(** Two block lists with the same blocks, up to the order of the blocks and
    of the points inside a block. *)
Definition same_blocks (blks blks' : list (list Z)) : Prop :=
  exists bl, Permutation blks bl /\ Forall2 (@Permutation Z) bl blks'.


(** * Properties *)

(** ** The error monad and the list primitives *)

Lemma bind_Ok {A B : Type} (m : result A) (f : A -> result B) (b : B) :
  bind m f = Ok b -> exists a, m = Ok a /\ f a = Ok b.
Proof.
  destruct m as [a|e]; simpl; intros H; [exists a; auto | discriminate].
Qed.

Lemma assert_Ok (b : bool) (u : unit) : assert b = Ok u -> b = true.
Proof. destruct b; simpl; [reflexivity | discriminate]. Qed.

Lemma mapM_pure {A B : Type} (f : A -> result B) (g : A -> B) (l : list A) :
  (forall x, In x l -> f x = Ok (g x)) -> mapM f l = Ok (map g l).
Proof.
  induction l as [|x l IH]; intros H; simpl; [reflexivity|].
  rewrite (H x (or_introl eq_refl)); simpl.
  rewrite IH by (intros y Hy; apply H; right; exact Hy).
  reflexivity.
Qed.

Lemma mapM_length {A B : Type} (f : A -> result B) (l : list A) (r : list B) :
  mapM f l = Ok r -> length r = length l.
Proof.
  revert r; induction l as [|x l IH]; simpl; intros r H.
  - inversion H; reflexivity.
  - destruct (f x) as [y|]; simpl in H; [|discriminate].
    destruct (mapM f l) as [ys|]; simpl in H; [|discriminate].
    inversion H; subst; simpl; f_equal; apply IH; reflexivity.
Qed.


Lemma len_app {A : Type} (l1 l2 : list A) : len (l1 ++ l2) = len l1 + len l2.
Proof. unfold len; rewrite length_app; lia. Qed.

Lemma len_map {A B : Type} (f : A -> B) (l : list A) : len (map f l) = len l.
Proof. unfold len; rewrite length_map; reflexivity. Qed.

Lemma range2_length (a b : Z) : length (range2 a b) = Z.to_nat (b - a).
Proof. unfold range2; rewrite length_map, length_seq; reflexivity. Qed.

Lemma in_range2 (a b x : Z) : In x (range2 a b) <-> a <= x < b.
Proof.
  unfold range2; rewrite in_map_iff; split.
  - intros [i [<- Hi]]; apply in_seq in Hi; lia.
  - intros H; exists (Z.to_nat (x - a)); split; [lia | apply in_seq; lia].
Qed.

Lemma in_range (n x : Z) : In x (range n) <-> 0 <= x < n.
Proof. apply in_range2. Qed.

Lemma range_len (n : Z) : 0 <= n -> len (range n) = n.
Proof. intros H; unfold len, range; rewrite range2_length; lia. Qed.

Lemma NoDup_range2 (a b : Z) : NoDup (range2 a b).
Proof.
  unfold range2; apply Finite.Injective_map_NoDup; [|apply seq_NoDup].
  intros i j H; lia.
Qed.

Lemma mem_In (x : Z) (l : list Z) : mem x l = true <-> In x l.
Proof.
  unfold mem; rewrite existsb_exists; split.
  - intros [y [Hy E]]; apply Z.eqb_eq in E; subst; exact Hy.
  - intros H; exists x; split; [exact H | apply Z.eqb_refl].
Qed.

Lemma mem_false (x : Z) (l : list Z) : mem x l = false <-> ~ In x l.
Proof.
  rewrite <- mem_In; destruct (mem x l); split; intros H; congruence.
Qed.

(** ** Parameter derivation *)

Lemma binom_lt (n k : nat) : (n < k)%nat -> binom n k = 0.
Proof.
  revert k; induction n as [|n IH]; intros [|k] H; simpl; try lia.
  rewrite !IH by lia; reflexivity.
Qed.

Lemma binom_pos (n k : nat) : (k <= n)%nat -> 0 < binom n k.
Proof.
  revert k; induction n as [|n IH]; intros [|k] H; simpl; try lia.
  assert (0 < binom n k) by (apply IH; lia).
  destruct (Nat.eq_dec k n) as [->|Hne].
  - rewrite (binom_lt n (S n)) by lia; lia.
  - assert (0 < binom n (S k)) by (apply IH; lia); lia.
Qed.

(** [binom] is the binomial coefficient: [C(n,k) * k! * (n-k)! = n!]. *)
Lemma binom_factorial (n k : nat) :
  (k <= n)%nat -> binom n k * factorial k * factorial (n - k) = factorial n.
Proof.
  revert k; induction n as [|n IH]; intros k H.
  - assert (k = O) by lia; subst; reflexivity.
  - destruct k as [|k].
    + cbn [binom factorial]; rewrite Nat.sub_0_r; cbn [factorial]; lia.
    + destruct (Nat.eq_dec k n) as [->|Hne].
      * cbn [binom]; rewrite (binom_lt n (S n)) by lia.
        replace (S n - S n)%nat with (n - n)%nat by lia.
        specialize (IH n (le_n n)).
        change (factorial (S n)) with (Z.of_nat (S n) * factorial n) at 1.
        change (factorial (S n)) with (Z.of_nat (S n) * factorial n).
        rewrite Nat.sub_diag in *; cbn [factorial] in *. nia.
      * assert (H1 := IH k ltac:(lia)).
        assert (H2 := IH (S k) ltac:(lia)).
        cbn [binom].
        replace (S n - S k)%nat with (n - k)%nat by lia.
        replace (n - k)%nat with (S (n - S k)) in * by lia.
        change (factorial (S n)) with (Z.of_nat (S n) * factorial n).
        change (factorial (S k)) with (Z.of_nat (S k) * factorial k) in *.
        change (factorial (S (n - S k)))
          with (Z.of_nat (S (n - S k)) * factorial (n - S k)) in *.
        replace (Z.of_nat (S n)) with (Z.of_nat (S k) + Z.of_nat (S (n - S k))) by lia.
        nia.
Qed.

Lemma binomial_binom (x m : Z) :
  0 <= m -> 0 <= x -> binomial x m = binom (Z.to_nat x) (Z.to_nat m).
Proof.
  intros Hm Hx; unfold binomial.
  destruct (Z.ltb_spec m 0); [lia|].
  destruct (Z.ltb_spec x 0); [lia|reflexivity].
Qed.

Lemma binomial_pos (x m : Z) : 0 <= m <= x -> 0 < binomial x m.
Proof.
  intros H; rewrite binomial_binom by lia; apply binom_pos; lia.
Qed.

Lemma Qfloor_inject_div (a b : Z) :
  0 < b -> Qfloor (inject_Z a / inject_Z b) = a / b.
Proof.
  intros Hb; destruct b as [|p|p]; try lia.
  unfold Qdiv, Qinv, inject_Z, Qmult, Qfloor; simpl.
  rewrite Z.mul_1_r; reflexivity.
Qed.

(** C6: for positive [t], [v], [k], [L] with [t <= k <= v], [tdesign_params]
    returns [(t, v, b, r, k, L)] where [b] is the floor of
    [L * C(v,t) / C(k,t)] and [r] the floor of
    [L * C(v-1,t-1) / C(k-1,t-1)], in exact integer and rational arithmetic;
    and [tdesign_params 2 7 3 1 = (2, 7, 7, 3, 3, 1)]. *)
Theorem tdesign_params_floor (t v k L : Z) :
  0 < t -> 0 < v -> 0 < k -> 0 < L -> k <= v -> t <= k ->
  let b := L * binomial v t / binomial k t in
  let r := L * binomial (v - 1) (t - 1) / binomial (k - 1) (t - 1) in
  tdesign_params t v k L = Ok (t, v, b, r, k, L)
  /\ (b * binomial k t <= L * binomial v t < (b + 1) * binomial k t)
  /\ (r * binomial (k - 1) (t - 1) <= L * binomial (v - 1) (t - 1)
      < (r + 1) * binomial (k - 1) (t - 1))
  /\ binomial v t * factorial (Z.to_nat t) * factorial (Z.to_nat (v - t))
     = factorial (Z.to_nat v)
  /\ tdesign_params 2 7 3 1 = Ok (2, 7, 7, 3, 3, 1).
Proof.
  intros Ht Hv Hk HL Hkv Htk b r.
  assert (Hy1 : 0 < binomial k t) by (apply binomial_pos; lia).
  assert (Hy2 : 0 < binomial (k - 1) (t - 1)) by (apply binomial_pos; lia).
  split; [|split; [|split; [|split]]].
  - unfold tdesign_params, divmod, rational_div, integer_floor.
    destruct (Z.eqb_spec (binomial k t) 0); [lia|].
    destruct (Z.eqb_spec (binomial (k - 1) (t - 1)) 0); [lia|].
    cbn [bind fst]; rewrite Qfloor_inject_div by exact Hy2; reflexivity.
  - subst b.
    pose proof (Z.mul_div_le (L * binomial v t) _ Hy1).
    pose proof (Z.mul_succ_div_gt (L * binomial v t) _ Hy1). nia.
  - subst r.
    pose proof (Z.mul_div_le (L * binomial (v - 1) (t - 1)) _ Hy2).
    pose proof (Z.mul_succ_div_gt (L * binomial (v - 1) (t - 1)) _ Hy2). nia.
  - rewrite binomial_binom by lia.
    replace (Z.to_nat (v - t)) with (Z.to_nat v - Z.to_nat t)%nat by lia.
    apply binom_factorial; lia.
  - reflexivity.
Qed.

Lemma tdesign_params_floor_witness :
  tdesign_params 2 9 3 1 = Ok (2, 9, 12, 4, 3, 1).
Proof.
  exact (proj1 (tdesign_params_floor 2 9 3 1 ltac:(lia) ltac:(lia) ltac:(lia)
                  ltac:(lia) ltac:(lia) ltac:(lia))).
Defined.

(** ** Which exceptions the functions can raise *)

Lemma mapM_Err {A B : Type} (f : A -> result B) (l : list A) (e : error) :
  mapM f l = Err e -> exists x, In x l /\ f x = Err e.
Proof.
  induction l as [|x l IH]; simpl; intros H; [discriminate|].
  destruct (f x) as [y|e'] eqn:Hx; simpl in H.
  - destruct (mapM f l) as [ys|e'']; simpl in H; [discriminate|].
    destruct (IH H) as [z [Hz Hf]]; exists z; auto.
  - inversion H; subst; exists x; auto.
Qed.

Lemma list_remove_Err (x : Z) (l : list Z) (e : error) :
  list_remove x l = Err e -> e = ValueError.
Proof.
  induction l as [|y l IH]; simpl; intros H; [congruence|].
  destruct (y =? x); [discriminate|].
  destruct (list_remove x l); simpl in H; [discriminate|].
  inversion H; subst; apply IH; reflexivity.
Qed.

Lemma dict_get_Err {K V : Type} (eqb : K -> K -> bool) (d : dict K V) (k : K) (e : error) :
  dict_get eqb d k = Err e -> e = KeyError.
Proof.
  induction d as [|[k' v] d IH]; simpl; intros H; [congruence|].
  destruct (dict_get eqb d k); [discriminate|].
  destruct (eqb k' k); congruence.
Qed.

Lemma pencil_loop_Err (n pt : Z) (blks L OA : list (list Z)) (e : error) :
  pencil_loop n pt blks L OA = Err e -> e = AssertionError \/ e = ValueError.
Proof.
  revert L OA; induction blks as [|blk rest IH]; simpl; intros L OA H; [discriminate|].
  destruct (len blk =? n + 1); simpl in H; [|left; congruence].
  destruct (mem pt blk).
  - destruct (list_remove pt blk) as [b|e'] eqn:Hr; simpl in H.
    + eapply IH; exact H.
    + right; inversion H; subst; eapply list_remove_Err; exact Hr.
  - eapply IH; exact H.
Qed.

Lemma OA_row_Err (d : dict Z (Z * Z)) (l : list Z) (e : error) :
  OA_row d l = Err e -> e = KeyError.
Proof.
  unfold OA_row; intros H.
  destruct (mapM (dict_get Z.eqb d) l) as [r|e'] eqn:Hm; simpl in H; [discriminate|].
  inversion H; subst.
  destruct (mapM_Err _ _ _ Hm) as [x [_ Hx]]; eapply dict_get_Err; exact Hx.
Qed.

(** Without the final test, the value of [projective_plane_to_OA]. *)
Lemma projective_plane_to_OA_unfold chk pplane pt check :
  projective_plane_to_OA chk pplane pt check =
  (b0 <- first (blcks pplane) ;;
   _ <- assert (len (blcks pplane) =? (len b0 - 1) ^ 2 + (len b0 - 1) + 1) ;;
   LOA <- pencil_loop (len b0 - 1)
            (match pt with None => (len b0 - 1) ^ 2 + (len b0 - 1) | Some p => p end)
            (blcks pplane) [] [] ;;
   _ <- assert (len (fst LOA) =? len b0 - 1 + 1) ;;
   mapM (OA_row (pencil_dict (fst LOA))) (snd LOA)).
Proof.
  unfold projective_plane_to_OA.
  destruct (first (blcks pplane)) as [b0|]; simpl; [|reflexivity].
  destruct (assert _); simpl; [|reflexivity].
  destruct (pencil_loop _ _ _ _ _) as [LOA|]; simpl; [|reflexivity].
  destruct (assert _); simpl; [|reflexivity].
  destruct (mapM _ _); simpl; [|reflexivity].
  destruct check; reflexivity.
Qed.

(** C10: [projective_plane_to_OA] with [check=True] returns what it returns
    with [check=False], whatever [is_orthogonal_array] answers; the only
    exceptions it can raise are those of the indexing, of the assertions, of
    the removal and of the dictionary lookup, never the [TypeError] of a
    failed validation. *)
Theorem projective_plane_to_OA_check_discarded
    (is_orthogonal_array : list (list Z) -> Z -> Z -> Z -> bool)
    (pplane : design) (pt : option Z) :
  projective_plane_to_OA is_orthogonal_array pplane pt true
  = projective_plane_to_OA is_orthogonal_array pplane pt false
  /\ (forall (check : bool) (e : error),
        projective_plane_to_OA is_orthogonal_array pplane pt check = Err e ->
        e = IndexError \/ e = AssertionError \/ e = ValueError \/ e = KeyError)
  /\ (forall (check : bool),
        projective_plane_to_OA is_orthogonal_array pplane pt check
        = projective_plane_to_OA (fun _ _ _ _ => false) pplane pt false).
Proof.
  split; [|split].
  - rewrite !projective_plane_to_OA_unfold; reflexivity.
  - intros check e; rewrite projective_plane_to_OA_unfold.
    destruct (first (blcks pplane)) as [b0|e0] eqn:H0; simpl.
    2:{ destruct (blcks pplane); simpl in H0; inversion H0; intros H; inversion H; auto. }
    destruct (len (blcks pplane) =? _); simpl; [|intros H; inversion H; auto].
    destruct (pencil_loop _ _ _ _ _) as [LOA|e1] eqn:H1; simpl.
    2:{ intros H; inversion H; subst.
        destruct (pencil_loop_Err _ _ _ _ _ _ H1); auto. }
    destruct (len (fst LOA) =? _); simpl; [|intros H; inversion H; auto].
    intros H; destruct (mapM_Err _ _ _ H) as [l [_ Hl]].
    apply OA_row_Err in Hl; auto.
  - intros check; rewrite !projective_plane_to_OA_unfold; reflexivity.
Qed.

(** An input that passes the assertions and is not a plane: the array is
    returned although the orthogonality test rejects it. *)
Example projective_plane_to_OA_returns_rejected_array :
  let D := {| pnts := range 7;
              blcks := [[0; 1; 2]; [0; 1; 6]; [0; 4; 5]; [1; 3; 5];
                        [2; 3; 4]; [2; 3; 6]; [4; 5; 6]] |} in
  exists OA, projective_plane_to_OA orthogonal_test D None true = Ok OA
             /\ orthogonal_test OA 3 2 2 = false.
Proof. eexists; split; vm_compute; reflexivity. Qed.

(** ** Existence of a plane of a given order *)

Lemma two_squares_sound (n a b : Z) :
  two_squares n = Ok (a, b) -> n = a * a + b * b.
Proof.
  unfold two_squares.
  destruct (find _ _) as [x|] eqn:Hf; [|discriminate].
  intros H; inversion H; subst.
  apply find_some in Hf; destruct Hf as [_ Hx].
  apply Z.eqb_eq in Hx; lia.
Qed.

Lemma two_squares_complete (n : Z) :
  sum_of_two_squares n -> exists ab, two_squares n = Ok ab.
Proof.
  intros [a [b Hn]]; unfold two_squares.
  destruct (find _ _) as [x|] eqn:Hf; [eexists; reflexivity|].
  exfalso.
  assert (Ha : 0 <= Z.abs a) by lia.
  assert (Hb : 0 <= Z.abs b) by lia.
  assert (Hsq : n = Z.abs a * Z.abs a + Z.abs b * Z.abs b) by nia.
  assert (Hin : In (Z.abs a) (range (Z.sqrt n + 1))).
  { apply in_range; split; [lia|].
    assert (Z.abs a <= Z.sqrt n); [|lia].
    apply Z.sqrt_le_square; nia. }
  pose proof (find_none _ _ Hf _ Hin) as Hx; simpl in Hx.
  replace (n - Z.abs a * Z.abs a) with (Z.abs b * Z.abs b) in Hx by lia.
  rewrite Z.sqrt_square in Hx by lia.
  apply Z.eqb_neq in Hx; lia.
Qed.

Lemma two_squares_Err (n : Z) (e : error) :
  two_squares n = Err e -> e = ValueError /\ ~ sum_of_two_squares n.
Proof.
  intros H; split.
  - unfold two_squares in H; destruct (find _ _); congruence.
  - intros Hs; destruct (two_squares_complete n Hs) as [ab Hab]; congruence.
Qed.

Lemma is_prime_b_spec (p : Z) : is_prime_b p = true <-> Z.prime p.
Proof.
  unfold is_prime_b; rewrite andb_true_iff, forallb_forall.
  unfold Z.prime; split.
  - intros [H2 Hd]; apply Z.leb_le in H2; split; [lia|].
    intros d Hr Hdiv.
    assert (Hin : In d (range2 2 p)) by (apply in_range2; lia).
    specialize (Hd d Hin); apply negb_true_iff, Z.eqb_neq in Hd.
    apply Hd, Z.mod_divide; [lia | exact Hdiv].
  - intros [H1 Hd]; split; [apply Z.leb_le; lia|].
    intros d Hin; apply in_range2 in Hin.
    apply negb_true_iff, Z.eqb_neq; intros Hm.
    apply (Hd d); [lia|]. apply Z.mod_divide; [lia | exact Hm].
Qed.

Lemma is_prime_power_spec (n : Z) : is_prime_power n = true <-> prime_power n.
Proof.
  unfold is_prime_power, prime_power; rewrite existsb_exists; split.
  - intros [p [_ H]]; apply andb_true_iff in H; destruct H as [Hp Hk].
    apply existsb_exists in Hk; destruct Hk as [k [Hk E]].
    apply in_range2 in Hk; apply Z.eqb_eq in E.
    exists p, k; split; [apply is_prime_b_spec; exact Hp | split; [lia | auto]].
  - intros [p [k [Hp [Hk Hn]]]].
    assert (H2 : 2 <= p) by (apply Z.prime_ge_2; exact Hp).
    assert (Hpk : p <= p ^ k).
    { replace p with (p ^ 1) at 1 by lia. apply Z.pow_le_mono_r; lia. }
    assert (Hkk : k < p ^ k).
    { apply Z.pow_gt_lin_r; lia. }
    exists p; split; [apply in_range2; lia|].
    apply andb_true_iff; split; [apply is_prime_b_spec; exact Hp|].
    apply existsb_exists; exists k; split; [apply in_range2; lia|].
    apply Z.eqb_eq; auto.
Qed.

Lemma BlockDesign_Err fac v blks test e :
  BlockDesign fac v blks test = Err e -> e = TypeError.
Proof.
  unfold BlockDesign; destruct (negb test); [discriminate|].
  destruct (block_design_checker _ _); congruence.
Qed.

Lemma relabel_Err K x e : relabel K x = Err e -> e = KeyError.
Proof. apply dict_get_Err. Qed.

Lemma slope_line_Err K n s a e : slope_line K n s a = Err e -> e = KeyError.
Proof.
  unfold slope_line; intros H.
  destruct (mapM _ _) as [blk|e1] eqn:Hm; simpl in H.
  - destruct (relabel K s) eqn:Hs; simpl in H; [discriminate|].
    inversion H; subst; eapply relabel_Err; exact Hs.
  - inversion H; subst.
    destruct (mapM_Err _ _ _ Hm) as [y [_ Hy]].
    destruct (relabel K (fadd K (fmul K s y) a)) eqn:H1; simpl in Hy.
    + destruct (relabel K y) eqn:H2; simpl in Hy; [discriminate|].
      inversion Hy; subst; eapply relabel_Err; exact H2.
    + inversion Hy; subst; eapply relabel_Err; exact H1.
Qed.

Lemma horizontal_line_Err K n a e : horizontal_line K n a = Err e -> e = KeyError.
Proof.
  unfold horizontal_line; intros H.
  destruct (mapM _ _) as [blk|e1] eqn:Hm; simpl in H; [discriminate|].
  inversion H; subst.
  destruct (mapM_Err _ _ _ Hm) as [y [_ Hy]].
  destruct (relabel K y) eqn:H1; simpl in Hy.
  - destruct (relabel K a) eqn:H2; simpl in Hy; [discriminate|].
    inversion Hy; subst; eapply relabel_Err; exact H2.
  - inversion Hy; subst; eapply relabel_Err; exact H1.
Qed.

Lemma DesarguesianProjectivePlaneDesign_Err FF fac n check e :
  DesarguesianProjectivePlaneDesign FF fac n check = Err e ->
  e = ValueError \/ e = KeyError \/ e = TypeError.
Proof.
  unfold DesarguesianProjectivePlaneDesign.
  destruct (FF n) as [K|]; [|intros H; inversion H; auto].
  unfold desarguesian_blocks.
  destruct (mapM _ (list_prod _ _)) as [lines|e1] eqn:H1; simpl.
  - destruct (mapM (horizontal_line K n) _) as [horiz|e2] eqn:H2; simpl.
    + intros H; apply BlockDesign_Err in H; auto.
    + intros H; inversion H; subst.
      destruct (mapM_Err _ _ _ H2) as [a [_ Ha]].
      apply horizontal_line_Err in Ha; auto.
  - intros H; inversion H; subst.
    destruct (mapM_Err _ _ _ H1) as [sa [_ Ha]].
    apply slope_line_Err in Ha; auto.
Qed.

(** The three outcomes of [projective_plane], by the tests of the code. *)
Lemma projective_plane_cases FF fac n :
  (no_plane_known n /\ projective_plane FF fac n = Err EmptySetError)
  \/ (~ no_plane_known n /\ ~ prime_power n
      /\ projective_plane FF fac n = Err NotImplementedError)
  \/ (~ no_plane_known n /\ prime_power n
      /\ projective_plane FF fac n
         = DesarguesianProjectivePlaneDesign FF fac n true).
Proof.
  unfold projective_plane, no_plane_known.
  destruct (Z.leb_spec n 1) as [H1|H1]; [left; split; auto|].
  destruct (Z.eqb_spec n 10) as [H10|H10]; [left; split; auto|].
  assert (Hmem : mem (n mod 4) [1; 2] = true <-> (n mod 4 = 1 \/ n mod 4 = 2)).
  { rewrite mem_In; simpl; intuition lia. }
  assert (Hrest :
    ~ (n <= 1 \/ n = 10 \/ (n mod 4 = 1 \/ n mod 4 = 2) /\ ~ sum_of_two_squares n) ->
    (~ (n <= 1 \/ n = 10 \/ (n mod 4 = 1 \/ n mod 4 = 2) /\ ~ sum_of_two_squares n)
     /\ ~ prime_power n
     /\ (if negb (is_prime_power n) then Err NotImplementedError
         else DesarguesianProjectivePlaneDesign FF fac n true)
        = Err NotImplementedError)
    \/ (~ (n <= 1 \/ n = 10 \/ (n mod 4 = 1 \/ n mod 4 = 2) /\ ~ sum_of_two_squares n)
        /\ prime_power n
        /\ (if negb (is_prime_power n) then Err NotImplementedError
            else DesarguesianProjectivePlaneDesign FF fac n true)
           = DesarguesianProjectivePlaneDesign FF fac n true)).
  { intros Hno; destruct (is_prime_power n) eqn:Hpp; simpl.
    - right; split; [exact Hno|]; split; [apply is_prime_power_spec; exact Hpp | reflexivity].
    - left; split; [exact Hno|]; split; [|reflexivity].
      intros Hp; apply is_prime_power_spec in Hp; congruence. }
  destruct (mem (n mod 4) [1; 2]) eqn:Hm.
  - destruct (two_squares n) as [ab|e] eqn:Hts.
    + simpl; right; apply Hrest.
      intros [H|[H|[_ H]]]; try lia.
      apply H; destruct ab as [a b]; exists a, b; apply two_squares_sound; exact Hts.
    + destruct (two_squares_Err n e Hts) as [-> Hns]; simpl.
      left; split; [|reflexivity].
      right; right; split; [apply Hmem; reflexivity | exact Hns].
  - simpl; right; apply Hrest.
    intros [H|[H|[H _]]]; try lia.
Qed.


(** ** Geometry designs *)

Lemma in_enumerate_from {A : Type} (l : list A) (s i : Z) (x : A) :
  In (i, x) (enumerate_from s l)
  <-> exists k : nat, i = s + Z.of_nat k /\ nth_error l k = Some x.
Proof.
  revert s; induction l as [|y l IH]; intros s; simpl.
  - split; [tauto | intros [[|k] [_ H]]; discriminate].
  - rewrite IH; split.
    + intros [H|[k [Hi Hk]]].
      * inversion H; subst; exists O; split; [lia | reflexivity].
      * exists (S k); split; [lia | exact Hk].
    + intros [[|k] [Hi Hk]]; simpl in Hk.
      * left; inversion Hk; subst; f_equal; lia.
      * right; exists k; split; [lia | exact Hk].
Qed.

Lemma in_flats_through {A : Type} (inc : A -> A -> bool) (flats : list A) (p : A) (i : Z) :
  In i (flats_through inc flats p)
  <-> exists f, 0 <= i /\ nth_error flats (Z.to_nat i) = Some f /\ inc p f = true.
Proof.
  unfold flats_through, enumerate; rewrite in_map_iff; split.
  - intros [[i' f] [Hi Hin]]; simpl in Hi; subst i'.
    apply filter_In in Hin; destruct Hin as [Hin Hp]; simpl in Hp.
    apply in_enumerate_from in Hin; destruct Hin as [k [Hi Hk]].
    exists f; split; [lia|]; split; [|exact Hp].
    replace (Z.to_nat i) with k by lia; exact Hk.
  - intros [f [Hi [Hn Hp]]]; exists (i, f); split; [reflexivity|].
    apply filter_In; split; [|exact Hp].
    apply in_enumerate_from; exists (Z.to_nat i); split; [lia | exact Hn].
Qed.

(** C5: with the default algorithm the block list of
    [ProjectiveGeometryDesign] has one block per point (per subspace of
    dimension 1), and the block of a point holds the indices of the flats
    that contain it; it is not one block per flat holding point indices.
    For [n = 3], [d = 1] over the field with two elements there are 15
    points and 35 flats: the design has 15 blocks of 7 labels, and the label
    34 appears although the points are [0..14]. *)
Theorem ProjectiveGeometryDesign_blocks_indexed_by_points
    (vs : VectorSpaceLib) (gap_pg : Z -> Z -> Z -> result (Z * list (list Z)))
    (fac : Facade) (n d : Z) (K : FieldObj) :
  let points := subspaces vs K (n + 1) 1 in
  let flats := subspaces vs K (n + 1) (d + 1) in
  let blks := map (flats_through (is_subspace vs K) flats) points in
  ProjectiveGeometryDesign vs gap_pg fac n d (FieldObject K) SageAlgorithm
  = (qr <- divmod (order K ^ (n + 1) - 1) (order K - 1) ;;
     BlockDesign fac (fst qr) blks true)
  /\ length blks = length points
  /\ (forall (j : nat) (p : Subspace vs K) (i : Z),
        nth_error points j = Some p ->
        (In i (nth j blks []) <->
         exists f, 0 <= i /\ nth_error flats (Z.to_nat i) = Some f
                   /\ is_subspace vs K p f = true))
  /\ (exists D,
        ProjectiveGeometryDesign listed_spaces no_gap_pg (plain_facade regular_checker)
          3 1 (FieldObject GF2) SageAlgorithm = Ok D
        /\ pnts D = range 15
        /\ length (subspaces listed_spaces GF2 4 2) = 35%nat
        /\ length (blcks D) = 15%nat
        /\ Forall (fun b => length b = 7%nat) (blcks D)
        /\ In 34 (nth 6 (blcks D) [])).
Proof.
  intros points flats blks; split; [|split; [|split]].
  - reflexivity.
  - unfold blks; apply length_map.
  - intros j p i Hj; unfold blks.
    rewrite <- in_flats_through.
    assert (E : nth j (map (flats_through (is_subspace vs K) flats) points) []
                = flats_through (is_subspace vs K) flats p).
    { apply nth_error_nth; rewrite nth_error_map, Hj; reflexivity. }
    rewrite E; reflexivity.
  - eexists; split; [vm_compute; reflexivity|].
    split; [reflexivity|]. split; [vm_compute; reflexivity|].
    split; [reflexivity|]. split; [repeat constructor|].
    simpl; tauto.
Qed.

(** C7, as stated, fails on [ProjectiveGeometryDesign]: given the integer 2,
    as a Python [int] or as a Sage [Integer], it raises an exception, where
    given the field of order 2 it returns a design. *)
Lemma ProjectiveGeometryDesign_rejects_integer :
  ProjectiveGeometryDesign listed_spaces no_gap_pg (plain_facade regular_checker)
    2 1 (PyInt 2) SageAlgorithm = Err AttributeError
  /\ ProjectiveGeometryDesign listed_spaces no_gap_pg (plain_facade regular_checker)
       2 1 (SageInteger 2) SageAlgorithm = Err AttributeError
  /\ order GF2 = 2
  /\ exists D,
       ProjectiveGeometryDesign listed_spaces no_gap_pg (plain_facade regular_checker)
         2 1 (FieldObject GF2) SageAlgorithm = Ok D.
Proof.
  split; [reflexivity|]. split; [reflexivity|]. split; [reflexivity|].
  eexists; vm_compute; reflexivity.
Qed.

(** C7, amended: [AffineGeometryDesign] takes [F] as a field object or as a
    bare integer, Python or Sage: the integer is coerced by [int(F)] and the
    call proceeds as for the field of that order; GAP having no field of an
    order that is not a prime power, the call fails on such an integer with
    GAP's [RuntimeError].  [ProjectiveGeometryDesign] takes a field object
    only and fails on a bare integer: a Python [int] has no [order]
    ([AttributeError], whatever the algorithm); a Sage [Integer] is refused
    by [VectorSpace] with the default algorithm ([AttributeError]) and, its
    order being [+Infinity], by GAP with [algorithm="gap"]
    ([RuntimeError]). *)
Theorem geometry_field_argument
    (vs : VectorSpaceLib) (gap_pg : Z -> Z -> Z -> result (Z * list (list Z)))
    (gap_ag : Z -> Z -> Z -> result (list (list Z)))
    (fac : Facade) (n d q : Z) (K : FieldObj) (alg : algorithm) :
  order K = q ->
  (forall q' n' d', ~ prime_power q' -> gap_ag q' n' d' = Err RuntimeError) ->
  (AffineGeometryDesign gap_ag fac n d (PyInt q)
   = AffineGeometryDesign gap_ag fac n d (FieldObject K)
   /\ AffineGeometryDesign gap_ag fac n d (SageInteger q)
      = AffineGeometryDesign gap_ag fac n d (FieldObject K)
   /\ AffineGeometryDesign gap_ag fac n d (FieldObject K)
      = (gblcks <- gap_ag q n d ;;
         BlockDesign fac (q ^ n) (map (map (fun x => x - 1)) gblcks) true))
  /\ (forall q', ~ prime_power q' ->
        AffineGeometryDesign gap_ag fac n d (PyInt q') = Err RuntimeError
        /\ AffineGeometryDesign gap_ag fac n d (SageInteger q') = Err RuntimeError)
  /\ ProjectiveGeometryDesign vs gap_pg fac n d (PyInt q) alg = Err AttributeError
  /\ ProjectiveGeometryDesign vs gap_pg fac n d (SageInteger q) SageAlgorithm
     = Err AttributeError
  /\ (q <> 0 ->
      ProjectiveGeometryDesign vs gap_pg fac n d (SageInteger q) GapAlgorithm
      = Err RuntimeError)
  /\ ProjectiveGeometryDesign vs gap_pg fac n d (FieldObject K) GapAlgorithm
     = (D <- gap_pg q n d ;;
        BlockDesign fac (fst D) (map (map (fun x => x - 1)) (snd D)) true).
Proof.
  intros Hq Hgap.
  split; [|split; [|split; [|split; [|split]]]].
  - unfold AffineGeometryDesign; cbn [int_of order_method order_int bind].
    rewrite Hq; auto.
  - intros q' Hq'; unfold AffineGeometryDesign; cbn [int_of bind].
    rewrite (Hgap q' n d Hq'); auto.
  - reflexivity.
  - destruct (Z.eqb_spec q 0); unfold ProjectiveGeometryDesign; cbn [order_method bind];
      destruct (q =? 0); reflexivity.
  - intros Hne; unfold ProjectiveGeometryDesign; cbn [order_method bind].
    destruct (Z.eqb_spec q 0); [contradiction | reflexivity].
  - unfold ProjectiveGeometryDesign; cbn [order_method bind]; rewrite Hq; reflexivity.
Qed.

Lemma geometry_field_argument_witness :
  let gap_ag := fun q _ _ : Z =>
                  if is_prime_power q
                  then Ok [[1; 2]; [3; 4]; [1; 3]; [2; 4]; [1; 4]; [2; 3]]
                  else Err RuntimeError in
  AffineGeometryDesign gap_ag (plain_facade regular_checker) 2 1 (PyInt 2)
  = AffineGeometryDesign gap_ag (plain_facade regular_checker) 2 1 (FieldObject GF2)
  /\ AffineGeometryDesign gap_ag (plain_facade regular_checker) 2 1 (PyInt 6)
     = Err RuntimeError.
Proof.
  intros gap_ag.
  assert (Hgap : forall q' n' d' : Z, ~ prime_power q' -> gap_ag q' n' d' = Err RuntimeError).
  { intros q' n' d' H; unfold gap_ag.
    destruct (is_prime_power q') eqn:E; [|reflexivity].
    apply is_prime_power_spec in E; contradiction. }
  pose proof (geometry_field_argument listed_spaces no_gap_pg gap_ag
                (plain_facade regular_checker) 2 1 2 GF2 SageAlgorithm eq_refl Hgap) as H.
  split; [exact (proj1 (proj1 H))|].
  apply (proj1 (proj2 H)).
  intros Hp; apply is_prime_power_spec in Hp; vm_compute in Hp; discriminate.
Defined.

(** ** From an orthogonal array to a projective plane *)

(** The widths of the rows are looked at by the final test only: with
    [check=False], rows of different widths are accepted when the number of
    rows is right. *)
Lemma OA_to_projective_plane_accepts_ragged_rows :
  let OA := [[0; 0; 0]; [0; 1]; [1; 0; 1]; [1; 1; 0]] in
  (exists r1 r2, In r1 OA /\ In r2 OA /\ length r1 <> length r2)
  /\ exists D, OA_to_projective_plane (plain_facade two_design_checker) OA false = Ok D.
Proof.
  split.
  - exists [0; 0; 0], [0; 1]; simpl; repeat split; auto; discriminate.
  - eexists; vm_compute; reflexivity.
Qed.

(** ** The round trip through an orthogonal array *)

Lemma Forall2_In_r {A B : Type} (R : A -> B -> Prop) (l1 : list A) (l2 : list B) (y : B) :
  Forall2 R l1 l2 -> In y l2 -> exists x, In x l1 /\ R x y.
Proof.
  induction 1 as [|a b l1 l2 Hab _ IH]; simpl; intros Hy; [contradiction|].
  destruct Hy as [<-|Hy].
  - exists a; auto.
  - destruct (IH Hy) as [x [Hx Hr]]; exists x; auto.
Qed.

Lemma NoDup_map_injective {A B : Type} (f : A -> B) (l : list A) (x y : A) :
  NoDup (map f l) -> In x l -> In y l -> f x = f y -> x = y.
Proof.
  induction l as [|a l IH]; simpl; intros Hnd Hx Hy E; [contradiction|].
  inversion Hnd as [|? ? Hna Hnd']; subst.
  destruct Hx as [->|Hx], Hy as [->|Hy]; auto.
  - exfalso; apply Hna; rewrite E; apply in_map; exact Hy.
  - exfalso; apply Hna; rewrite <- E; apply in_map; exact Hx.
Qed.

(** An isomorphism carries two blocks that share two points, without
    holding the same points, back to two such blocks. *)
Lemma isomorphic_blocks_meet_once (D1 D2 : design) :
  isomorphic D1 D2 ->
  NoDup (pnts D2) ->
  Forall (fun b => incl b (pnts D1)) (blcks D1) ->
  blocks_meet_once (blcks D1) = true ->
  blocks_meet_once (blcks D2) = true.
Proof.
  intros [f [Hp [bl [Hbl HF]]]] Hnd Hincl H1.
  assert (Hinj : forall x y, In x (pnts D1) -> In y (pnts D1) -> f x = f y -> x = y).
  { intros x y; apply NoDup_map_injective.
    eapply Permutation_NoDup; [apply Permutation_sym; exact Hp | exact Hnd]. }
  rewrite Forall_forall in Hincl.
  unfold blocks_meet_once in *; rewrite forallb_forall in *; intros b1' Hb1'.
  rewrite forallb_forall; intros b2' Hb2'.
  destruct (Forall2_In_r _ _ _ b1' HF (Permutation_in _ (Permutation_sym Hbl) Hb1'))
    as [b1 [Hb1 P1]].
  destruct (Forall2_In_r _ _ _ b2' HF (Permutation_in _ (Permutation_sym Hbl) Hb2'))
    as [b2 [Hb2 P2]].
  specialize (H1 b1 Hb1); rewrite forallb_forall in H1; specialize (H1 b2 Hb2).
  rewrite forallb_forall in H1.
  assert (Hback : forall x', In x' b1' -> exists x, In x b1 /\ f x = x').
  { intros x' Hx'; apply (Permutation_in _ (Permutation_sym P1)) in Hx'.
    apply in_map_iff in Hx'; destruct Hx' as [x [E Hx]]; exists x; auto. }
  assert (Hsame : forall x, In x b1 -> In (f x) b2' -> In x b2).
  { intros x Hx Hfx; apply (Permutation_in _ (Permutation_sym P2)) in Hfx.
    apply in_map_iff in Hfx; destruct Hfx as [y [E Hy]].
    assert (y = x); [|subst; exact Hy].
    apply Hinj; [apply (Hincl b2 Hb2) | apply (Hincl b1 Hb1) |]; assumption. }
  rewrite forallb_forall; intros u' Hu'; rewrite forallb_forall; intros v' Hv'.
  destruct (mem u' b2' && mem v' b2' && negb (u' =? v')) eqn:Hc; simpl; [|reflexivity].
  apply andb_true_iff in Hc; destruct Hc as [Hc Hne].
  apply andb_true_iff in Hc; destruct Hc as [Hu2 Hv2].
  apply mem_In in Hu2; apply mem_In in Hv2.
  apply negb_true_iff, Z.eqb_neq in Hne.
  destruct (Hback u' Hu') as [u [Hu Eu]]; destruct (Hback v' Hv') as [v [Hv Ev]].
  specialize (H1 u Hu); rewrite forallb_forall in H1; specialize (H1 v Hv).
  assert (Hu2' : mem u b2 = true) by (apply mem_In, Hsame; [exact Hu | rewrite Eu; exact Hu2]).
  assert (Hv2' : mem v b2 = true) by (apply mem_In, Hsame; [exact Hv | rewrite Ev; exact Hv2]).
  assert (Huv : negb (u =? v) = true) by (apply negb_true_iff, Z.eqb_neq; congruence).
  rewrite Hu2', Hv2', Huv in H1; simpl in H1.
  rewrite forallb_forall in H1.
  apply forallb_forall; intros w' Hw'.
  destruct (Hback w' Hw') as [w [Hw Ew]].
  specialize (H1 w Hw); apply mem_In in H1.
  apply mem_In; rewrite <- Ew.
  apply (Permutation_in _ P2), in_map; exact H1.
Qed.

(** C2: for [n = 2] the round trip does not give back a plane.  The
    Desarguesian plane of order 2 is a 2-design whose blocks meet pairwise in
    one point, and its orthogonal array passes the orthogonality test; the
    structure rebuilt from that array has the blocks [[0, 1, 2]] and
    [[0, 1, 6]], which share two points, so it is not isomorphic to the
    plane.  It passes a test of block sizes and replication numbers, and a
    full test of the 2-design property makes the call raise [TypeError]. *)
Theorem roundtrip_order_2_not_isomorphic :
  exists D OA D',
    DesarguesianProjectivePlaneDesign small_fields (sorting_facade two_design_checker) 2 true
    = Ok D
    /\ blocks_meet_once (blcks D) = true
    /\ projective_plane_to_OA orthogonal_test D None true = Ok OA
    /\ orthogonal_test OA 3 2 2 = true
    /\ OA_to_projective_plane (sorting_facade regular_checker) OA true = Ok D'
    /\ OA_to_projective_plane (sorting_facade regular_checker) OA false = Ok D'
    /\ OA_to_projective_plane (plain_facade regular_checker) OA false
       = Ok {| pnts := pnts D';
               blcks := [[0; 1; 2]; [0; 4; 5]; [3; 1; 5]; [3; 4; 2];
                         [0; 1; 6]; [2; 3; 6]; [4; 5; 6]] |}
    /\ In [0; 1; 2] (blcks D') /\ In [0; 1; 6] (blcks D')
    /\ pair_count (blcks D') 0 1 = 2 /\ pair_count (blcks D') 0 2 = 1
    /\ pair_count (blcks D') 0 3 = 0
    /\ OA_to_projective_plane (sorting_facade two_design_checker) OA true = Err TypeError
    /\ ~ isomorphic D D'.
Proof.
  eexists; eexists; eexists.
  split; [vm_compute; reflexivity|].
  split; [vm_compute; reflexivity|].
  split; [vm_compute; reflexivity|].
  split; [vm_compute; reflexivity|].
  split; [vm_compute; reflexivity|].
  split; [vm_compute; reflexivity|].
  split; [vm_compute; reflexivity|].
  split; [simpl; tauto|].
  split; [simpl; tauto|].
  split; [reflexivity|]. split; [reflexivity|]. split; [reflexivity|].
  split; [vm_compute; reflexivity|].
  intros Hiso.
  apply isomorphic_blocks_meet_once in Hiso.
  - vm_compute in Hiso; discriminate.
  - apply (NoDup_range2 0 7).
  - rewrite Forall_forall; intros b Hb x Hx; simpl in Hb.
    repeat (destruct Hb as [<-|Hb]; [simpl in Hx; simpl; intuition lia|]).
    contradiction.
  - vm_compute; reflexivity.
Qed.

(** ** The store is left as it was *)

Lemma deref_app (h x : heap) (r : ref) (v : list Z) :
  deref h r = Ok v -> deref (h ++ x) r = Ok v.
Proof.
  unfold deref; destruct (nth_error h r) as [l|] eqn:E; [|discriminate].
  intros H; rewrite nth_error_app1 by (apply nth_error_Some; congruence).
  rewrite E; exact H.
Qed.

Lemma deref_new (h : heap) (v : list Z) : deref (h ++ [v]) (length h) = Ok v.
Proof.
  unfold deref; rewrite nth_error_app2 by lia.
  rewrite Nat.sub_diag; reflexivity.
Qed.

Lemma update_new (h : heap) (v v' : list Z) :
  update (h ++ [v]) (length h) v' = h ++ [v'].
Proof. induction h as [|c h IH]; simpl; [reflexivity | rewrite IH; reflexivity]. Qed.

Lemma mapM_deref_app (h x : heap) (l : list ref) (vs : list (list Z)) :
  mapM (deref h) l = Ok vs -> mapM (deref (h ++ x)) l = Ok vs.
Proof.
  revert vs; induction l as [|r l IH]; simpl; intros vs H; [exact H|].
  destruct (deref h r) as [v|] eqn:Hr; simpl in H; [|discriminate].
  rewrite (deref_app _ x _ _ Hr); simpl.
  destruct (mapM (deref h) l) as [vs'|]; simpl in H; [|discriminate].
  rewrite (IH vs' eq_refl); exact H.
Qed.

Lemma mapM_app {A B : Type} (f : A -> result B) (l1 l2 : list A) (r1 r2 : list B) :
  mapM f l1 = Ok r1 -> mapM f l2 = Ok r2 -> mapM f (l1 ++ l2) = Ok (r1 ++ r2).
Proof.
  revert r1; induction l1 as [|x l1 IH]; simpl; intros r1 H1 H2.
  - inversion H1; subst; exact H2.
  - destruct (f x) as [y|]; simpl in *; [|discriminate].
    destruct (mapM f l1) as [ys|]; simpl in *; [|discriminate].
    inversion H1; subst; rewrite (IH ys eq_refl H2); reflexivity.
Qed.

Lemma mapM_through {A B C : Type} (g : A -> result B) (f : B -> result C)
      (l : list A) (vs : list B) :
  mapM g l = Ok vs -> mapM (fun r => x <- g r ;; f x) l = mapM f vs.
Proof.
  revert vs; induction l as [|r l IH]; simpl; intros vs H.
  - inversion H; reflexivity.
  - destruct (g r) as [v|]; simpl in *; [|discriminate].
    destruct (mapM g l) as [vs'|]; simpl in *; [|discriminate].
    inversion H; subst; simpl; rewrite (IH vs' eq_refl); reflexivity.
Qed.

(** The loop on the store follows the loop on values: it only appends cells
    to the store, [L] names new cells and [OA] names cells of the input. *)
Lemma pencil_loop_heap_sim (n pt : Z) (h0 : heap) :
  forall (rest : list ref) (hnew : heap) (L OA : list ref)
         (restv Lv OAv : list (list Z)),
    mapM (deref h0) rest = Ok restv ->
    mapM (deref (h0 ++ hnew)) L = Ok Lv ->
    mapM (deref h0) OA = Ok OAv ->
    match pencil_loop_heap n pt rest L OA (h0 ++ hnew) with
    | Ok (L', OA', h') =>
        exists hnew' Lv' OAv',
          h' = h0 ++ hnew'
          /\ mapM (deref h') L' = Ok Lv'
          /\ mapM (deref h0) OA' = Ok OAv'
          /\ pencil_loop n pt restv Lv OAv = Ok (Lv', OAv')
    | Err e => pencil_loop n pt restv Lv OAv = Err e
    end.
Proof.
  induction rest as [|blk rest IH]; intros hnew L OA restv Lv OAv Hrest HL HOA.
  - simpl in Hrest; inversion Hrest; subst; simpl.
    exists hnew, Lv, OAv; auto.
  - simpl in Hrest.
    destruct (deref h0 blk) as [v|] eqn:Hblk; simpl in Hrest; [|discriminate].
    destruct (mapM (deref h0) rest) as [restv'|] eqn:Hrest'; simpl in Hrest; [|discriminate].
    inversion Hrest; subst restv; clear Hrest.
    cbn [pencil_loop_heap pencil_loop].
    rewrite (deref_app _ hnew _ _ Hblk); cbn [bind].
    destruct (assert (len v =? n + 1)); cbn [bind]; [|reflexivity].
    destruct (mem pt v).
    + cbn [alloc]; rewrite deref_new; cbn [bind].
      destruct (list_remove pt v) as [v'|e]; cbn [bind]; [|reflexivity].
      rewrite update_new, <- app_assoc.
      apply IH; [reflexivity | | exact HOA].
      rewrite app_assoc; apply mapM_app.
      * apply mapM_deref_app; exact HL.
      * simpl; rewrite deref_new; reflexivity.
    + apply IH; [reflexivity | exact HL |].
      apply mapM_app; [exact HOA | simpl; rewrite Hblk; reflexivity].
Qed.

Lemma BlockDesign_test_only (fac : Facade) (v : Z) (blks : list (list Z)) (D : design) :
  BlockDesign fac v blks true = Ok D -> BlockDesign fac v blks false = Ok D.
Proof.
  unfold BlockDesign; simpl.
  destruct (block_design_checker fac _); [auto | discriminate].
Qed.

(** C9: [projective_plane_to_OA] leaves every list object of its input as it
    was: run on a store, it only adds cells, the blocks of the plane read
    the same afterwards, and it returns what the function on values returns.
    For the constructors that end in [BlockDesign], the design returned
    with the test is the design returned without it, and the array of
    [projective_plane_to_OA] does not depend on [check]. *)
Theorem constructors_leave_input_and_output_unchanged
    (is_orthogonal_array : list (list Z) -> Z -> Z -> Z -> bool)
    (FF : Z -> option FieldObj) (fac : Facade) :
  (forall (refs : list ref) (pt : option Z) (check : bool) (h : heap)
          (D : design),
      mapM (deref h) refs = Ok (blcks D) ->
      match projective_plane_to_OA_heap is_orthogonal_array refs pt check h with
      | Ok (OA, h') =>
          (exists hnew, h' = h ++ hnew)
          /\ mapM (deref h') refs = Ok (blcks D)
          /\ projective_plane_to_OA is_orthogonal_array D pt check = Ok OA
      | Err e => projective_plane_to_OA is_orthogonal_array D pt check = Err e
      end)
  /\ (forall (D : design) (pt : option Z),
        projective_plane_to_OA is_orthogonal_array D pt true
        = projective_plane_to_OA is_orthogonal_array D pt false)
  /\ (forall (n : Z) (D : design),
        DesarguesianProjectivePlaneDesign FF fac n true = Ok D ->
        DesarguesianProjectivePlaneDesign FF fac n false = Ok D)
  /\ (forall (OA : list (list Z)) (D : design),
        OA_to_projective_plane fac OA true = Ok D ->
        OA_to_projective_plane fac OA false = Ok D).
Proof.
  split; [|split; [|split]].
  - intros refs pt check h [pn bl] Hrefs; cbn [blcks] in Hrefs.
    unfold projective_plane_to_OA_heap, projective_plane_to_OA; cbn [blcks].
    destruct refs as [|r0 refs'].
    { simpl in Hrefs; inversion Hrefs; subst; reflexivity. }
    assert (Hrefs0 := Hrefs).
    cbn [mapM] in Hrefs.
    destruct (deref h r0) as [b0|] eqn:H0; cbn [bind] in Hrefs; [|discriminate].
    destruct (mapM (deref h) refs') as [bs|] eqn:Hbs; cbn [bind] in Hrefs; [|discriminate].
    inversion Hrefs; subst bl.
    cbn [first bind]; rewrite H0; cbn [bind].
    replace (len (r0 :: refs')) with (len (b0 :: bs))
      by (unfold len; simpl; rewrite (mapM_length _ _ _ Hbs); reflexivity).
    destruct (assert _); cbn [bind]; [|reflexivity].
    set (n := len b0 - 1).
    set (p := match pt with None => n ^ 2 + n | Some p0 => p0 end).
    pose proof (pencil_loop_heap_sim n p h (r0 :: refs') [] [] [] (b0 :: bs) [] []
                  Hrefs0 eq_refl eq_refl) as Hsim.
    rewrite app_nil_r in Hsim.
    destruct (pencil_loop_heap n p (r0 :: refs') [] [] h) as [[[L' OA'] h']|e].
    + destruct Hsim as [hnew' [Lv' [OAv' [Hh [HL [HOA Hpure]]]]]].
      rewrite Hpure; cbn [bind fst snd].
      replace (len L') with (len Lv')
        by (unfold len; rewrite (mapM_length _ _ _ HL); reflexivity).
      destruct (assert _); cbn [bind]; [|reflexivity].
      rewrite HL; cbn [bind].
      assert (HOA' : mapM (deref h') OA' = Ok OAv')
        by (rewrite Hh; apply mapM_deref_app; exact HOA).
      rewrite (mapM_through _ _ _ _ HOA').
      destruct (mapM (OA_row (pencil_dict Lv')) OAv') as [rows|e]; cbn [bind]; [|reflexivity].
      assert (Hkeep : mapM (deref h') (r0 :: refs') = Ok (b0 :: bs))
        by (rewrite Hh; apply mapM_deref_app; exact Hrefs0).
      destruct check; (split; [exists hnew'; exact Hh | split; [exact Hkeep | reflexivity]]).
    + rewrite Hsim; reflexivity.
  - intros D pt; rewrite !projective_plane_to_OA_unfold; reflexivity.
  - intros n D; unfold DesarguesianProjectivePlaneDesign.
    destruct (FF n) as [K|]; [|discriminate].
    destruct (desarguesian_blocks K n); simpl; [|discriminate].
    apply BlockDesign_test_only.
  - intros OA D; unfold OA_to_projective_plane.
    destruct (first OA); simpl; [|discriminate].
    destruct (assert _); simpl; [|discriminate].
    apply BlockDesign_test_only.
Qed.

Lemma constructors_leave_input_and_output_unchanged_witness :
  let h := [[0; 1; 6]; [0; 2; 4]; [0; 3; 5]; [1; 2; 5]; [1; 3; 4]; [2; 3; 6]; [4; 5; 6]] in
  let refs := [0; 1; 2; 3; 4; 5; 6]%nat in
  match projective_plane_to_OA_heap orthogonal_test refs None true h with
  | Ok (OA, h') =>
      (exists hnew, h' = h ++ hnew)
      /\ mapM (deref h') refs = Ok h
      /\ projective_plane_to_OA orthogonal_test {| pnts := range 7; blcks := h |} None true
         = Ok OA
  | Err e =>
      projective_plane_to_OA orthogonal_test {| pnts := range 7; blcks := h |} None true
      = Err e
  end.
Proof.
  exact (proj1 (constructors_leave_input_and_output_unchanged orthogonal_test
                  small_fields (plain_facade regular_checker))
           [0; 1; 2; 3; 4; 5; 6]%nat None true
           [[0; 1; 6]; [0; 2; 4]; [0; 3; 5]; [1; 2; 5]; [1; 3; 4]; [2; 3; 6]; [4; 5; 6]]
           {| pnts := range 7;
              blcks := [[0; 1; 6]; [0; 2; 4]; [0; 3; 5]; [1; 2; 5];
                        [1; 3; 4]; [2; 3; 6]; [4; 5; 6]] |}
           eq_refl).
Defined.

(** ** The Desarguesian plane *)

(** *** Two lines of different slopes meet in one affine point *)
Section FieldAlgebra.
Variable K : FieldObj.
Variables (zero one : carrier K) (opp inv : carrier K -> carrier K).
Hypothesis laws : field_laws K zero one opp inv.

Local Notation "x + y" := (fadd K x y).
Local Notation "x * y" := (fmul K x y).
Local Notation "x - y" := (fadd K x (opp y)).

Lemma field_ring_theory :
  ring_theory zero one (fadd K) (fmul K) (fun x y => x - y) opp eq.
Proof.
  destruct laws as (H0 & Hc & Ha & H1 & Hmc & Hma & Hd & Ho & _).
  constructor; intros; auto.
Qed.

Add Ring field_ring : field_ring_theory.

Lemma fadd_cancel_l (x a b : carrier K) : x + a = x + b -> a = b.
Proof.
  intros H.
  replace a with ((x + a) - x) by ring.
  rewrite H; ring.
Qed.

Lemma fsub_nonzero (s s' : carrier K) : s <> s' -> s - s' <> zero.
Proof.
  intros Hne H; apply Hne.
  replace s with ((s - s') + s') by ring.
  rewrite H; ring.
Qed.

Lemma fmul_cancel (d z : carrier K) : d <> zero -> d * z = zero -> z = zero.
Proof.
  intros Hd H.
  destruct laws as (_ & _ & _ & _ & _ & _ & _ & _ & Hinv & _).
  replace z with ((d * inv d) * z) by (rewrite (Hinv d Hd); ring).
  replace ((d * inv d) * z) with (inv d * (d * z)) by ring.
  rewrite H; ring.
Qed.

Lemma slopes_meet (s s' a a' : carrier K) :
  s <> s' -> exists y, s * y + a = s' * y + a'.
Proof.
  intros Hne.
  destruct laws as (_ & _ & _ & _ & _ & _ & _ & _ & Hinv & _).
  pose proof (Hinv _ (fsub_nonzero s s' Hne)) as Hd.
  exists ((a' - a) * inv (s - s')).
  replace (s * ((a' - a) * inv (s - s')) + a)
    with ((a' - a) * ((s - s') * inv (s - s')) + s' * ((a' - a) * inv (s - s')) + a)
    by ring.
  rewrite Hd; ring.
Qed.

Lemma slopes_meet_once (s s' a a' y1 y2 : carrier K) :
  s <> s' -> s * y1 + a = s' * y1 + a' -> s * y2 + a = s' * y2 + a' -> y1 = y2.
Proof.
  intros Hne H1 H2.
  assert (Hz : y1 - y2 = zero).
  { apply (fmul_cancel (s - s')); [apply fsub_nonzero; exact Hne|].
    replace ((s - s') * (y1 - y2))
      with (((s * y1 + a) - (s' * y1 + a')) - ((s * y2 + a) - (s' * y2 + a'))) by ring.
    rewrite H1, H2; ring. }
  replace y1 with ((y1 - y2) + y2) by ring.
  rewrite Hz; ring.
Qed.
End FieldAlgebra.

(** *** The relabeling is the position in the enumeration *)

Lemma dict_get_missing {A V : Type} (eqb : A -> A -> bool) (d : dict A V) (k : A) :
  (forall kv, In kv d -> eqb (fst kv) k = false) -> dict_get eqb d k = Err KeyError.
Proof.
  induction d as [|[k' v] d IH]; simpl; intros H; [reflexivity|].
  rewrite IH by (intros kv Hkv; apply H; right; exact Hkv).
  pose proof (H (k', v) (or_introl eq_refl)) as E; simpl in E.
  rewrite E; reflexivity.
Qed.

Lemma dict_get_enumerate {A : Type} (eqb : A -> A -> bool) (l : list A) (s : Z) (x : A) :
  (forall a b, eqb a b = true <-> a = b) ->
  NoDup l -> In x l ->
  dict_get eqb (map (fun ix => (snd ix, fst ix)) (enumerate_from s l)) x
  = Ok (s + position eqb x l).
Proof.
  intros Heqb; revert s; induction l as [|y l IH]; intros s Hnd Hin; [contradiction|].
  inversion Hnd as [|? ? Hny Hnd']; subst.
  cbn [enumerate_from map dict_get position snd fst].
  destruct Hin as [->|Hin].
  - rewrite dict_get_missing.
    + rewrite (proj2 (Heqb x x) eq_refl); f_equal; lia.
    + intros [k v] Hkv; simpl.
      apply in_map_iff in Hkv; destruct Hkv as [[i z] [E Hz]]; simpl in E.
      inversion E; subst.
      apply in_enumerate_from in Hz; destruct Hz as [j [_ Hj]].
      apply nth_error_In in Hj.
      destruct (eqb k x) eqn:Hk; [|reflexivity].
      apply Heqb in Hk; subst; contradiction.
  - rewrite (IH (s + 1) Hnd' Hin).
    destruct (eqb y x) eqn:Hk.
    + apply Heqb in Hk; subst; contradiction.
    + f_equal; lia.
Qed.

Lemma position_bound {A : Type} (eqb : A -> A -> bool) (l : list A) (x : A) :
  (forall a b, eqb a b = true <-> a = b) ->
  In x l -> 0 <= position eqb x l < len l.
Proof.
  intros Heqb; unfold len; induction l as [|y l IH]; intros Hin; [contradiction|].
  cbn [position length]; destruct (eqb y x) eqn:Hk; [lia|].
  destruct Hin as [->|Hin].
  - rewrite (proj2 (Heqb x x) eq_refl) in Hk; discriminate.
  - specialize (IH Hin); lia.
Qed.

Lemma position_inj {A : Type} (eqb : A -> A -> bool) (l : list A) (x y : A) :
  (forall a b, eqb a b = true <-> a = b) ->
  In x l -> In y l -> position eqb x l = position eqb y l -> x = y.
Proof.
  intros Heqb; induction l as [|z l IH]; intros Hx Hy; [contradiction|].
  cbn [position].
  destruct (eqb z x) eqn:Hzx, (eqb z y) eqn:Hzy; intros E.
  - apply Heqb in Hzx, Hzy; congruence.
  - destruct Hy as [->|Hy]; [rewrite (proj2 (Heqb y y) eq_refl) in Hzy; discriminate|].
    pose proof (position_bound eqb l y Heqb Hy); lia.
  - destruct Hx as [->|Hx]; [rewrite (proj2 (Heqb x x) eq_refl) in Hzx; discriminate|].
    pose proof (position_bound eqb l x Heqb Hx); lia.
  - destruct Hx as [->|Hx]; [rewrite (proj2 (Heqb x x) eq_refl) in Hzx; discriminate|].
    destruct Hy as [->|Hy]; [rewrite (proj2 (Heqb y y) eq_refl) in Hzy; discriminate|].
    apply IH; auto; lia.
Qed.

(** *** Lists of blocks that meet pairwise *)

Lemma meet_in_one_point_sym (b1 b2 : list Z) :
  meet_in_one_point b1 b2 -> meet_in_one_point b2 b1.
Proof. intros [p [H1 [H2 Hu]]]; exists p; auto. Qed.

Lemma meet_in_one_point_perm (b1 b2 c1 c2 : list Z) :
  Permutation b1 c1 -> Permutation b2 c2 ->
  meet_in_one_point b1 b2 -> meet_in_one_point c1 c2.
Proof.
  intros P1 P2 [p [H1 [H2 Hu]]]; exists p.
  split; [eapply Permutation_in; eauto|].
  split; [eapply Permutation_in; eauto|].
  intros q Hq1 Hq2; apply Hu.
  - eapply Permutation_in; [apply Permutation_sym; exact P1 | exact Hq1].
  - eapply Permutation_in; [apply Permutation_sym; exact P2 | exact Hq2].
Qed.

Lemma ForallOrdPairs_app {A : Type} (R : A -> A -> Prop) (l1 l2 : list A) :
  ForallOrdPairs R l1 -> ForallOrdPairs R l2 ->
  (forall x y, In x l1 -> In y l2 -> R x y) ->
  ForallOrdPairs R (l1 ++ l2).
Proof.
  induction 1 as [|a l1 Ha H1 IH]; intros H2 Hx; simpl; [exact H2|].
  constructor.
  - apply Forall_app; split; [exact Ha|].
    apply Forall_forall; intros y Hy; apply Hx; simpl; auto.
  - apply IH; [exact H2|]. intros x y Hx' Hy; apply Hx; simpl; auto.
Qed.

Lemma ForallOrdPairs_map {A B : Type} (R : B -> B -> Prop) (f : A -> B) (l : list A) :
  NoDup l ->
  (forall x y, In x l -> In y l -> x <> y -> R (f x) (f y)) ->
  ForallOrdPairs R (map f l).
Proof.
  induction 1 as [|a l Ha Hnd IH]; intros H; simpl; constructor.
  - apply Forall_forall; intros y Hy.
    apply in_map_iff in Hy; destruct Hy as [x [<- Hx]].
    apply H; simpl; auto. intros ->; contradiction.
  - apply IH; intros x y Hx Hy; apply H; simpl; auto.
Qed.

Lemma ForallOrdPairs_Permutation {A : Type} (R : A -> A -> Prop) (l l' : list A) :
  (forall x y, R x y -> R y x) ->
  Permutation l l' -> ForallOrdPairs R l -> ForallOrdPairs R l'.
Proof.
  intros Hsym; induction 1 as [|x l l' HP IH|x y l|l l' l'' _ IH1 _ IH2]; intros H.
  - exact H.
  - inversion H as [|? ? Hx Hl]; subst; constructor.
    + eapply Permutation_Forall; eauto.
    + apply IH; exact Hl.
  - inversion H as [|? ? Hy Hl]; subst.
    inversion Hl as [|? ? Hx Hl']; subst.
    inversion Hy as [|? ? Hyx Hyl]; subst.
    constructor; [constructor; [apply Hsym; exact Hyx | exact Hx]|].
    constructor; assumption.
  - apply IH2, IH1, H.
Qed.

Lemma ForallOrdPairs_Forall2 {A : Type} (R : A -> A -> Prop) (P : A -> A -> Prop)
      (l l' : list A) :
  (forall x y x' y', P x x' -> P y y' -> R x y -> R x' y') ->
  Forall2 P l l' -> ForallOrdPairs R l -> ForallOrdPairs R l'.
Proof.
  intros Hcompat; induction 1 as [|a a' l l' Ha HF IH]; intros H; [constructor|].
  inversion H as [|? ? Hal Hl]; subst; constructor; [|apply IH; exact Hl].
  clear IH H Hl; induction HF as [|b b' l l' Hb HF IH]; [constructor|].
  inversion Hal; subst; constructor; [eapply Hcompat; eauto | apply IH; assumption].
Qed.

Lemma ForallOrdPairs_nth_error {A : Type} (R : A -> A -> Prop) (l : list A) :
  (forall x y, R x y -> R y x) ->
  ForallOrdPairs R l ->
  forall i j x y, i <> j -> nth_error l i = Some x -> nth_error l j = Some y -> R x y.
Proof.
  intros Hsym; induction 1 as [|a l Ha Hl IH]; intros i j x y Hij Hi Hj.
  - destruct i; discriminate.
  - rewrite Forall_forall in Ha.
    destruct i as [|i], j as [|j]; simpl in Hi, Hj; try lia.
    + inversion Hi; subst; apply Ha; eapply nth_error_In; exact Hj.
    + inversion Hj; subst; apply Hsym, Ha; eapply nth_error_In; exact Hi.
    + apply (IH i j); auto.
Qed.

Lemma affine_label_inj (n a b a' b' : Z) :
  0 <= a < n -> 0 <= a' < n -> a + n * b = a' + n * b' -> a = a' /\ b = b'.
Proof.
  intros Ha Ha' E.
  assert (b = b') by nia.
  subst; lia.
Qed.

(** *** The lines of the plane over a field of order [n] *)
Section DesarguesianPlane.
Variable K : FieldObj.
Variable n : Z.
Hypothesis Hff : is_finite_field K n.

Local Notation "'pos' x" := (position (feqb K) x (elements K)) (at level 9, x at level 9).

Lemma ff_eqb (x y : carrier K) : feqb K x y = true <-> x = y.
Proof. destruct Hff as (_ & _ & _ & _ & _ & H & _); apply H. Qed.

Lemma ff_eq_dec (x y : carrier K) : x = y \/ x <> y.
Proof.
  destruct (feqb K x y) eqn:E.
  - left; apply ff_eqb; exact E.
  - right; intros H; apply ff_eqb in H; congruence.
Qed.

Lemma pos_bound (x : carrier K) : 0 <= pos x < n.
Proof.
  destruct Hff as (Hord & _ & Hall & _).
  rewrite <- Hord; apply position_bound; [apply ff_eqb | apply Hall].
Qed.

Lemma pos_inj (x y : carrier K) : pos x = pos y -> x = y.
Proof.
  destruct Hff as (_ & _ & Hall & _).
  apply position_inj; [apply ff_eqb | apply Hall | apply Hall].
Qed.

Lemma relabel_position (x : carrier K) : relabel K x = Ok (pos x).
Proof.
  destruct Hff as (_ & Hnd & Hall & _).
  unfold relabel, relabel_dict, enumerate.
  rewrite dict_get_enumerate; [f_equal | apply ff_eqb | exact Hnd | apply Hall].
Qed.

Lemma order_ge_2 : 2 <= n.
Proof.
  destruct Hff as (_ & _ & _ & _ & _ & _ & zero & one & opp & inv & laws).
  destruct laws as (_ & _ & _ & _ & _ & _ & _ & _ & _ & Hne).
  pose proof (pos_bound zero); pose proof (pos_bound one).
  assert (pos zero <> pos one) by (intros E; apply Hne, pos_inj; exact E).
  lia.
Qed.

Lemma dict_iter_len : len (dict_iter K) = n.
Proof.
  destruct Hff as (Hord & Hnd & Hall & Hind & Hiall & _).
  rewrite <- Hord; unfold order, len; f_equal.
  apply Permutation_length, NoDup_Permutation; auto.
  intros x; split; auto.
Qed.

Lemma in_dict_iter (x : carrier K) : In x (dict_iter K).
Proof. destruct Hff as (_ & _ & _ & _ & H & _); apply H. Qed.

Lemma affine_label_bound (x y : carrier K) : 0 <= pos x + n * pos y < n ^ 2.
Proof. pose proof (pos_bound x); pose proof (pos_bound y); nia. Qed.

Lemma slope_line_points (s a : carrier K) :
  slope_line K n s a = Ok (slope_points K n s a).
Proof.
  unfold slope_line, slope_points.
  rewrite (mapM_pure _ (fun y => pos (fadd K (fmul K s y) a) + n * pos y)).
  - cbn [bind]; rewrite relabel_position; reflexivity.
  - intros y _; rewrite !relabel_position; reflexivity.
Qed.

Lemma horizontal_line_points (a : carrier K) :
  horizontal_line K n a = Ok (horizontal_points K n a).
Proof.
  unfold horizontal_line, horizontal_points.
  rewrite (mapM_pure _ (fun x => pos x + n * pos a)); [reflexivity|].
  intros y _; rewrite !relabel_position; reflexivity.
Qed.

Lemma desarguesian_blocks_points :
  desarguesian_blocks K n
  = Ok (map (fun sa => slope_points K n (fst sa) (snd sa))
            (list_prod (dict_iter K) (dict_iter K))
        ++ map (horizontal_points K n) (dict_iter K)
        ++ [infinity_line n]).
Proof.
  unfold desarguesian_blocks.
  rewrite (mapM_pure _ (fun sa => slope_points K n (fst sa) (snd sa)))
    by (intros sa _; apply slope_line_points).
  cbn [bind].
  rewrite (mapM_pure _ (horizontal_points K n))
    by (intros a _; apply horizontal_line_points).
  reflexivity.
Qed.

Lemma in_slope_points (p : Z) (s a : carrier K) :
  In p (slope_points K n s a)
  <-> (exists y, p = pos (fadd K (fmul K s y) a) + n * pos y) \/ p = n ^ 2 + pos s.
Proof.
  unfold slope_points; rewrite in_app_iff, in_map_iff; simpl; split.
  - intros [[y [E _]]|[E|[]]]; [left; exists y; auto | right; auto].
  - intros [[y E]|E]; [left; exists y; split; [auto | apply in_dict_iter] | right; auto].
Qed.

Lemma in_horizontal_points (p : Z) (a : carrier K) :
  In p (horizontal_points K n a)
  <-> (exists x, p = pos x + n * pos a) \/ p = n ^ 2 + n.
Proof.
  unfold horizontal_points; rewrite in_app_iff, in_map_iff; simpl; split.
  - intros [[y [E _]]|[E|[]]]; [left; exists y; auto | right; auto].
  - intros [[y E]|E]; [left; exists y; split; [auto | apply in_dict_iter] | right; auto].
Qed.

Lemma in_infinity_line (p : Z) : In p (infinity_line n) <-> n ^ 2 <= p <= n ^ 2 + n.
Proof.
  unfold infinity_line; rewrite in_map_iff; split.
  - intros [i [<- Hi]]; apply in_range in Hi; lia.
  - intros H; exists (p - n ^ 2); split; [lia | apply in_range; lia].
Qed.

Lemma slope_meets_slope (s a s' a' : carrier K) :
  (s, a) <> (s', a') ->
  meet_in_one_point (slope_points K n s a) (slope_points K n s' a').
Proof.
  intros Hne.
  destruct Hff as (_ & _ & _ & _ & _ & _ & zero & one & opp & inv & laws).
  destruct (ff_eq_dec s s') as [<-|Hs].
  - assert (Ha : a <> a') by congruence.
    exists (n ^ 2 + pos s); split; [apply in_slope_points; auto|].
    split; [apply in_slope_points; auto|].
    intros q H1 H2; apply in_slope_points in H1; apply in_slope_points in H2.
    destruct H1 as [[y1 E1]|E1]; [|exact E1].
    destruct H2 as [[y2 E2]|E2]; [|exact E2].
    exfalso; rewrite E1 in E2.
    apply affine_label_inj in E2; try apply pos_bound.
    destruct E2 as [Ex Ey]; apply pos_inj in Ey; subst y2.
    apply pos_inj in Ex.
    apply Ha, (fadd_cancel_l K zero one opp inv laws _ _ _ Ex).
  - destruct (slopes_meet K zero one opp inv laws s s' a a' Hs) as [y Hy].
    exists (pos (fadd K (fmul K s y) a) + n * pos y).
    split; [apply in_slope_points; left; exists y; reflexivity|].
    split; [apply in_slope_points; left; exists y; rewrite Hy; reflexivity|].
    intros q H1 H2; apply in_slope_points in H1; apply in_slope_points in H2.
    destruct H1 as [[y1 E1]|E1], H2 as [[y2 E2]|E2].
    + assert (E := E2); rewrite E1 in E.
      apply affine_label_inj in E; try apply pos_bound.
      destruct E as [Ex Ey]; apply pos_inj in Ey; subst y2.
      apply pos_inj in Ex.
      rewrite (slopes_meet_once K zero one opp inv laws s s' a a' y y1 Hs Hy Ex).
      exact E1.
    + pose proof (affine_label_bound (fadd K (fmul K s y1) a) y1).
      pose proof (pos_bound s'); lia.
    + pose proof (affine_label_bound (fadd K (fmul K s' y2) a') y2).
      pose proof (pos_bound s); lia.
    + exfalso; apply Hs, pos_inj; lia.
Qed.

Lemma slope_meets_horizontal (s a b : carrier K) :
  meet_in_one_point (slope_points K n s a) (horizontal_points K n b).
Proof.
  exists (pos (fadd K (fmul K s b) a) + n * pos b).
  split; [apply in_slope_points; left; exists b; reflexivity|].
  split; [apply in_horizontal_points; left; eexists; reflexivity|].
  intros q H1 H2; apply in_slope_points in H1; apply in_horizontal_points in H2.
  destruct H1 as [[y1 E1]|E1], H2 as [[x2 E2]|E2].
  - assert (E := E2); rewrite E1 in E.
    apply affine_label_inj in E; try apply pos_bound.
    destruct E as [_ Ey]; apply pos_inj in Ey; subst y1; exact E1.
  - pose proof (affine_label_bound (fadd K (fmul K s y1) a) y1); pose proof order_ge_2; lia.
  - pose proof (affine_label_bound x2 b); pose proof (pos_bound s); lia.
  - pose proof (pos_bound s); lia.
Qed.

Lemma slope_meets_infinity (s a : carrier K) :
  meet_in_one_point (slope_points K n s a) (infinity_line n).
Proof.
  pose proof (pos_bound s).
  exists (n ^ 2 + pos s); split; [apply in_slope_points; auto|].
  split; [apply in_infinity_line; lia|].
  intros q H1 H2; apply in_slope_points in H1; apply in_infinity_line in H2.
  destruct H1 as [[y1 E1]|E1]; [|exact E1].
  pose proof (affine_label_bound (fadd K (fmul K s y1) a) y1); lia.
Qed.

Lemma horizontal_meets_horizontal (a b : carrier K) :
  a <> b -> meet_in_one_point (horizontal_points K n a) (horizontal_points K n b).
Proof.
  intros Hne; exists (n ^ 2 + n).
  split; [apply in_horizontal_points; auto|].
  split; [apply in_horizontal_points; auto|].
  intros q H1 H2; apply in_horizontal_points in H1; apply in_horizontal_points in H2.
  destruct H1 as [[x1 E1]|E1]; [|exact E1].
  destruct H2 as [[x2 E2]|E2]; [|exact E2].
  exfalso; rewrite E1 in E2.
  apply affine_label_inj in E2; try apply pos_bound.
  destruct E2 as [_ Ey]; apply Hne, pos_inj; exact Ey.
Qed.

Lemma horizontal_meets_infinity (a : carrier K) :
  meet_in_one_point (horizontal_points K n a) (infinity_line n).
Proof.
  pose proof order_ge_2.
  exists (n ^ 2 + n); split; [apply in_horizontal_points; auto|].
  split; [apply in_infinity_line; lia|].
  intros q H1 H2; apply in_horizontal_points in H1; apply in_infinity_line in H2.
  destruct H1 as [[x1 E1]|E1]; [|exact E1].
  pose proof (affine_label_bound x1 a); lia.
Qed.

Lemma NoDup_affine_labels (f g : carrier K -> carrier K) :
  (forall y y', f y = f y' -> g y = g y' -> y = y') ->
  NoDup (map (fun y => pos (f y) + n * pos (g y)) (dict_iter K)).
Proof.
  intros Hinj; destruct Hff as (_ & _ & _ & Hnd & _).
  induction Hnd as [|y l Hy Hnd IH]; simpl; constructor; [|exact IH].
  intros Hin; apply in_map_iff in Hin; destruct Hin as [y' [E Hy']].
  apply affine_label_inj in E; try apply pos_bound.
  destruct E as [E1 E2]; apply pos_inj in E1, E2.
  rewrite (Hinj y y') in Hy by congruence; contradiction.
Qed.

Lemma NoDup_snoc (l : list Z) (x : Z) : NoDup l -> ~ In x l -> NoDup (l ++ [x]).
Proof.
  intros Hl Hx; apply NoDup_app; [exact Hl | repeat constructor; simpl; tauto|].
  intros y Hy [<-|[]]; contradiction.
Qed.

Lemma slope_points_shape (s a : carrier K) :
  len (slope_points K n s a) = n + 1
  /\ NoDup (slope_points K n s a)
  /\ incl (slope_points K n s a) (range (n ^ 2 + n + 1)).
Proof.
  split; [|split].
  - unfold slope_points; rewrite len_app, len_map, dict_iter_len; reflexivity.
  - unfold slope_points; apply NoDup_snoc.
    + apply (NoDup_affine_labels (fun y => fadd K (fmul K s y) a) (fun y => y)); auto.
    + intros Hin; apply in_map_iff in Hin; destruct Hin as [y [E _]].
      pose proof (affine_label_bound (fadd K (fmul K s y) a) y).
      pose proof (pos_bound s); lia.
  - intros p Hp; apply in_range; apply in_slope_points in Hp.
    destruct Hp as [[y ->] | ->].
    + pose proof (affine_label_bound (fadd K (fmul K s y) a) y).
      pose proof order_ge_2; lia.
    + pose proof (pos_bound s); nia.
Qed.

Lemma horizontal_points_shape (a : carrier K) :
  len (horizontal_points K n a) = n + 1
  /\ NoDup (horizontal_points K n a)
  /\ incl (horizontal_points K n a) (range (n ^ 2 + n + 1)).
Proof.
  split; [|split].
  - unfold horizontal_points; rewrite len_app, len_map, dict_iter_len; reflexivity.
  - unfold horizontal_points; apply NoDup_snoc.
    + apply (NoDup_affine_labels (fun x => x) (fun _ => a)); auto.
    + intros Hin; apply in_map_iff in Hin; destruct Hin as [y [E _]].
      pose proof (affine_label_bound y a); pose proof order_ge_2; lia.
  - intros p Hp; apply in_range; apply in_horizontal_points in Hp.
    destruct Hp as [[y ->] | ->].
    + pose proof (affine_label_bound y a); pose proof order_ge_2; lia.
    + pose proof order_ge_2; nia.
Qed.

Lemma infinity_line_shape :
  len (infinity_line n) = n + 1
  /\ NoDup (infinity_line n)
  /\ incl (infinity_line n) (range (n ^ 2 + n + 1)).
Proof.
  pose proof order_ge_2 as Hn; split; [|split].
  - unfold infinity_line; rewrite len_map, range_len; lia.
  - unfold infinity_line; apply Finite.Injective_map_NoDup; [|apply NoDup_range2].
    intros i j H; lia.
  - intros p Hp; apply in_range; apply in_infinity_line in Hp; nia.
Qed.

Lemma NoDup_list_prod {A B : Type} (l1 : list A) (l2 : list B) :
  NoDup l1 -> NoDup l2 -> NoDup (list_prod l1 l2).
Proof.
  intros H1 H2; induction H1 as [|x l1 Hx H1 IH]; simpl; [constructor|].
  apply NoDup_app.
  - apply Finite.Injective_map_NoDup; [|exact H2]. intros a b E; congruence.
  - exact IH.
  - intros [a b] Hin1 Hin2.
    apply in_map_iff in Hin1; destruct Hin1 as [b' [E _]]; inversion E; subst.
    apply in_prod_iff in Hin2; destruct Hin2 as [Hin2 _]; contradiction.
Qed.

(** The block list before it is handed to the incidence structure. *)
Lemma desarguesian_blocks_plane :
  let lines := map (fun sa => slope_points K n (fst sa) (snd sa))
                   (list_prod (dict_iter K) (dict_iter K)) in
  let horiz := map (horizontal_points K n) (dict_iter K) in
    desarguesian_blocks K n = Ok (lines ++ horiz ++ [infinity_line n])
    /\ len lines = n ^ 2 /\ len horiz = n
    /\ Forall (fun b => len b = n + 1 /\ NoDup b /\ incl b (range (n ^ 2 + n + 1)))
              (lines ++ horiz ++ [infinity_line n])
    /\ ForallOrdPairs meet_in_one_point (lines ++ horiz ++ [infinity_line n]).
Proof.
  destruct Hff as (_ & _ & _ & Hind & _); cbv zeta.
  split; [apply desarguesian_blocks_points|].
  split; [|split; [|split]].
  - unfold len; rewrite length_map, length_prod.
    pose proof dict_iter_len as H; unfold len in H; nia.
  - rewrite len_map; apply dict_iter_len.
  - rewrite !Forall_app; split; [|split].
    + apply Forall_forall; intros b Hb; apply in_map_iff in Hb.
      destruct Hb as [[s a] [<- _]]; apply slope_points_shape.
    + apply Forall_forall; intros b Hb; apply in_map_iff in Hb.
      destruct Hb as [a [<- _]]; apply horizontal_points_shape.
    + repeat constructor; apply infinity_line_shape.
  - apply ForallOrdPairs_app; [|apply ForallOrdPairs_app|].
    + apply ForallOrdPairs_map; [apply NoDup_list_prod; assumption|].
      intros [s a] [s' a'] _ _ Hne; apply slope_meets_slope; exact Hne.
    + apply ForallOrdPairs_map; [assumption|].
      intros a b _ _ Hne; apply horizontal_meets_horizontal; exact Hne.
    + repeat constructor.
    + intros b1 b2 H1 [<-|[]]; apply in_map_iff in H1.
      destruct H1 as [a [<- _]]; apply horizontal_meets_infinity.
    + intros b1 b2 H1 H2; apply in_map_iff in H1; destruct H1 as [[s a] [<- _]].
      apply in_app_or in H2; destruct H2 as [H2|[<-|[]]].
      * apply in_map_iff in H2; destruct H2 as [b [<- _]]; apply slope_meets_horizontal.
      * apply slope_meets_infinity.
Qed.

End DesarguesianPlane.

(** *** What the incidence structure keeps *)

Lemma insert_sorted_perm {A : Type} (leb : A -> A -> bool) (x : A) (l : list A) :
  Permutation (x :: l) (insert_sorted leb x l).
Proof.
  induction l as [|y l IH]; simpl; [reflexivity|].
  destruct (leb x y); [reflexivity|].
  rewrite perm_swap; apply perm_skip; exact IH.
Qed.

Lemma isort_perm {A : Type} (leb : A -> A -> bool) (l : list A) :
  Permutation l (isort leb l).
Proof.
  induction l as [|x l IH]; simpl; [reflexivity|].
  rewrite <- insert_sorted_perm; apply perm_skip; exact IH.
Qed.

Lemma plain_facade_keeps_blocks (chk : design -> bool) : keeps_blocks (plain_facade chk).
Proof.
  intros blks; exists blks; split; [reflexivity|].
  simpl; induction blks; constructor; auto.
Qed.

Lemma Forall2_Permutation_r {A B : Type} (P : A -> B -> Prop) (m m' : list B) :
  Permutation m m' ->
  forall l, Forall2 P l m -> exists l', Permutation l l' /\ Forall2 P l' m'.
Proof.
  induction 1 as [|x m m' _ IH|x y m|m m' m'' _ IH1 _ IH2]; intros l HF.
  - inversion HF; subst; exists []; split; constructor.
  - inversion HF as [|a ? l0 ? Ha HF0]; subst.
    destruct (IH l0 HF0) as [l0' [Hp HF']].
    exists (a :: l0'); split; [apply perm_skip; exact Hp | constructor; assumption].
  - inversion HF as [|a ? l0 ? Ha HF0]; subst.
    inversion HF0 as [|b ? l1 ? Hb HF1]; subst.
    exists (b :: a :: l1); split; [apply perm_swap|].
    constructor; [exact Hb | constructor; assumption].
  - destruct (IH1 l HF) as [l1 [Hp1 HF1]].
    destruct (IH2 l1 HF1) as [l2 [Hp2 HF2]].
    exists l2; split; [etransitivity; eassumption | exact HF2].
Qed.

Lemma sorting_facade_keeps_blocks (chk : design -> bool) : keeps_blocks (sorting_facade chk).
Proof.
  intros blks; cbn [store_blocks sorting_facade].
  apply (Forall2_Permutation_r _ (map (isort Z.leb) blks)); [apply isort_perm|].
  induction blks as [|b blks IH]; simpl; constructor; [apply isort_perm | exact IH].
Qed.

Lemma plane_blocks_kept (fac : Facade) (n : Z) (pts : list Z) (blks : list (list Z)) :
  keeps_blocks fac ->
  Forall (fun b => len b = n + 1 /\ NoDup b /\ incl b pts) blks ->
  ForallOrdPairs meet_in_one_point blks ->
  len (store_blocks fac blks) = len blks
  /\ plane_blocks n pts (store_blocks fac blks).
Proof.
  intros Hk HF Hm; destruct (Hk blks) as [bl [Hp H2]].
  split; [|split].
  - unfold len; f_equal.
    rewrite (Permutation_length Hp); symmetry; eapply Forall2_length; exact H2.
  - assert (HF' : Forall (fun b => len b = n + 1 /\ NoDup b /\ incl b pts) bl)
      by (eapply Permutation_Forall; eassumption).
    clear Hp Hm HF; induction H2 as [|b b' bl bl' Hb _ IH]; [constructor|].
    inversion HF' as [|? ? [Hl [Hnd Hin]] HF'']; subst; constructor; [|apply IH; exact HF''].
    split; [|split].
    + unfold len in *; rewrite <- (Permutation_length Hb); exact Hl.
    + eapply Permutation_NoDup; eassumption.
    + intros x Hx; apply Hin; eapply Permutation_in; [apply Permutation_sym|]; eassumption.
  - apply ForallOrdPairs_nth_error; [apply meet_in_one_point_sym|].
    eapply ForallOrdPairs_Forall2; [|exact H2|].
    + intros x y x' y' Hx Hy; apply meet_in_one_point_perm; assumption.
    + eapply ForallOrdPairs_Permutation; [apply meet_in_one_point_sym | exact Hp | exact Hm].
Qed.

(** C1: for a field of order [n] (so [n] is a prime power and [n >= 2])
    the block list built by [DesarguesianProjectivePlaneDesign] is made of
    the [n^2] lines [x = s*y + a], the [n] lines [y = a] and the line at
    infinity.  The structure on the points [0 .. n^2+n] that holds them is
    returned when [check] is off or the parameter test accepts it; it has
    [n^2+n+1] points and [n^2+n+1] blocks, every block has [n+1] distinct
    point labels, and two blocks at different places meet in exactly one
    point. *)
Theorem DesarguesianProjectivePlaneDesign_plane
    (FF : Z -> option FieldObj) (fac : Facade) (n : Z) (K : FieldObj) (check : bool) :
  FF n = Some K -> is_finite_field K n -> keeps_blocks fac ->
  let lines := map (fun sa => slope_points K n (fst sa) (snd sa))
                   (list_prod (dict_iter K) (dict_iter K)) in
  let horiz := map (horizontal_points K n) (dict_iter K) in
  let D := IncidenceStructure fac (range (n ^ 2 + n + 1))
             (lines ++ horiz ++ [infinity_line n]) in
  DesarguesianProjectivePlaneDesign FF fac n check
  = (if negb check || block_design_checker fac D then Ok D else Err TypeError)
  /\ 2 <= n
  /\ len lines = n ^ 2 /\ len horiz = n
  /\ len (pnts D) = n ^ 2 + n + 1
  /\ len (blcks D) = n ^ 2 + n + 1
  /\ plane_blocks n (pnts D) (blcks D).
Proof.
  intros HFF Hff Hk lines horiz D.
  destruct (desarguesian_blocks_plane K n Hff) as (Hb & Hl & Hh & HF & Hm).
  fold lines horiz in Hb, Hl, Hh, HF, Hm.
  destruct (plane_blocks_kept fac n (range (n ^ 2 + n + 1)) _ Hk HF Hm) as [Hlen Hpl].
  pose proof (order_ge_2 K n Hff) as Hn.
  split; [|split; [exact Hn|split; [exact Hl|split; [exact Hh|split; [|split]]]]].
  - unfold DesarguesianProjectivePlaneDesign; rewrite HFF, Hb; cbn [bind].
    unfold BlockDesign; fold D.
    destruct check; cbn [negb orb]; [|reflexivity].
    destruct (block_design_checker fac D); reflexivity.
  - cbn [D pnts IncidenceStructure]; apply range_len; nia.
  - cbn [D blcks IncidenceStructure]; rewrite Hlen, !len_app, Hl, Hh.
    unfold len; simpl; lia.
  - exact Hpl.
Qed.

(** *** The sample fields are fields *)

Lemma GF2_is_finite_field : is_finite_field GF2 2.
Proof.
  split; [reflexivity|].
  split; [repeat constructor; simpl; intuition discriminate|].
  split; [intros []; simpl; auto|].
  split; [repeat constructor; simpl; intuition discriminate|].
  split; [intros []; simpl; auto|].
  split; [intros [] []; simpl; split; congruence|].
  exists false, true, (fun x => x), (fun x => x).
  repeat split; try (intros [] [] []; reflexivity); try (intros [] []; reflexivity);
    try (intros []; reflexivity); try discriminate.
  intros [] H; [reflexivity | contradiction].
Qed.

Lemma GF3_is_finite_field : is_finite_field GF3 3.
Proof.
  split; [reflexivity|].
  split; [repeat constructor; simpl; intuition discriminate|].
  split; [intros []; simpl; auto|].
  split; [repeat constructor; simpl; intuition discriminate|].
  split; [intros []; simpl; auto|].
  split; [intros [] []; simpl; split; congruence|].
  exists f3_0, f3_1, (fun x => F3_of_Z (- F3_to_Z x)), (fun x => x).
  repeat split; try (intros [] [] []; reflexivity); try (intros [] []; reflexivity);
    try (intros []; reflexivity); try discriminate.
  intros [] H; try reflexivity; contradiction.
Qed.

Lemma GF4_is_finite_field : is_finite_field GF4 4.
Proof.
  split; [reflexivity|].
  split; [repeat constructor; simpl; intuition discriminate|].
  split; [intros [[] []]; simpl; auto|].
  split; [repeat constructor; simpl; intuition discriminate|].
  split; [intros [[] []]; simpl; auto|].
  split; [intros [[] []] [[] []]; simpl; split; congruence|].
  exists (false, false), (true, false), (fun x => x),
         (fun x => match x with
                   | (false, true) => (true, true)
                   | (true, true) => (false, true)
                   | _ => x
                   end).
  repeat split; try (intros [[] []] [[] []] [[] []]; reflexivity);
    try (intros [[] []] [[] []]; reflexivity);
    try (intros [[] []]; reflexivity); try discriminate.
  intros [[] []] H; try reflexivity; contradiction.
Qed.

Lemma DesarguesianProjectivePlaneDesign_plane_witness :
  let D := IncidenceStructure (sorting_facade regular_checker) (range (4 ^ 2 + 4 + 1))
             (map (fun sa => slope_points GF4 4 (fst sa) (snd sa))
                  (list_prod (dict_iter GF4) (dict_iter GF4))
              ++ map (horizontal_points GF4 4) (dict_iter GF4)
              ++ [infinity_line 4]) in
  DesarguesianProjectivePlaneDesign small_fields (sorting_facade regular_checker) 4 true
  = (if negb true || block_design_checker (sorting_facade regular_checker) D
     then Ok D else Err TypeError)
  /\ plane_blocks 4 (pnts D) (blcks D).
Proof.
  pose proof (DesarguesianProjectivePlaneDesign_plane small_fields
                (sorting_facade regular_checker) 4 GF4 true eq_refl
                GF4_is_finite_field (sorting_facade_keeps_blocks regular_checker)) as H.
  split; [exact (proj1 H) | exact (proj2 (proj2 (proj2 (proj2 (proj2 (proj2 H))))))].
Defined.

(** ** From a projective plane to an orthogonal array *)

(** *** Removal, the loop and the dictionary *)

Lemma list_remove_spec (pt : Z) (b : list Z) :
  NoDup b -> In pt b ->
  exists b', list_remove pt b = Ok b'
             /\ NoDup b'
             /\ (forall x, In x b' <-> In x b /\ x <> pt)
             /\ length b = S (length b').
Proof.
  induction b as [|y b IH]; intros Hnd Hin; [contradiction|].
  inversion Hnd as [|? ? Hy Hnd']; subst; simpl.
  destruct (Z.eqb_spec y pt) as [->|Hne].
  - exists b; split; [reflexivity|]. split; [exact Hnd'|]. split; [|reflexivity].
    intros x; split.
    + intros Hx; split; [auto|]. intros ->; contradiction.
    + intros [[->|Hx] Hne]; [contradiction | exact Hx].
  - destruct Hin as [->|Hin]; [contradiction|].
    destruct (IH Hnd' Hin) as [b' [Hr [Hnb [Hiff Hlen]]]].
    exists (y :: b'); rewrite Hr; split; [reflexivity|].
    split; [constructor; [rewrite Hiff; tauto | exact Hnb]|].
    split; [|simpl; lia].
    intros x; simpl; rewrite Hiff; split.
    + intros [->|[Hx Hxp]]; auto.
    + intros [[->|Hx] Hxp]; auto.
Qed.

Lemma filter_partition_length {A : Type} (f : A -> bool) (l : list A) :
  (length (filter f l) + length (filter (fun x => negb (f x)) l) = length l)%nat.
Proof.
  induction l as [|x l IH]; simpl; [reflexivity|].
  destruct (f x); simpl; lia.
Qed.

(** The loop sorts the blocks into those through [pt], with [pt] removed,
    and the others, in their order. *)
Lemma pencil_loop_filter (n pt : Z) (blks : list (list Z)) :
  Forall (fun b => len b = n + 1 /\ NoDup b) blks ->
  forall L OA, exists Ls,
    pencil_loop n pt blks L OA
    = Ok (L ++ Ls, OA ++ filter (fun b => negb (mem pt b)) blks)
    /\ Forall2 (fun b l => list_remove pt b = Ok l) (filter (mem pt) blks) Ls.
Proof.
  induction 1 as [|b blks [Hlen Hnd] _ IH]; intros L OA.
  - exists []; simpl; rewrite !app_nil_r; split; [reflexivity | constructor].
  - cbn [pencil_loop filter]; rewrite Hlen, Z.eqb_refl; cbn [assert bind].
    destruct (mem pt b) eqn:Hm; cbn [negb].
    + apply mem_In in Hm.
      destruct (list_remove_spec pt b Hnd Hm) as [b' [Hr _]].
      rewrite Hr; cbn [bind].
      destruct (IH (L ++ [b']) OA) as [Ls [E HF]].
      exists (b' :: Ls); rewrite E, <- app_assoc; split; [reflexivity|].
      constructor; assumption.
    + destruct (IH L (OA ++ [b])) as [Ls [E HF]].
      exists Ls; rewrite E, <- app_assoc; split; [reflexivity | exact HF].
Qed.

Lemma dict_get_In {V : Type} (d : dict Z V) (k : Z) (v : V) :
  dict_get Z.eqb d k = Ok v -> In (k, v) d.
Proof.
  induction d as [|[k' v'] d IH]; simpl; [discriminate|].
  destruct (dict_get Z.eqb d k) as [v0|] eqn:E.
  - intros H; inversion H; subst; right; apply IH; reflexivity.
  - destruct (Z.eqb_spec k' k); [|discriminate].
    intros H; inversion H; subst; left; reflexivity.
Qed.

Lemma dict_get_key {V : Type} (d : dict Z V) (k : Z) :
  In k (map fst d) -> exists v, dict_get Z.eqb d k = Ok v.
Proof.
  induction d as [|[k' v'] d IH]; simpl; [contradiction|].
  intros [E|Hin].
  - subst; destruct (dict_get Z.eqb d k) as [v0|]; [exists v0; reflexivity|].
    rewrite Z.eqb_refl; exists v'; reflexivity.
  - destruct (IH Hin) as [v Hv]; rewrite Hv; exists v; reflexivity.
Qed.

Lemma dict_get_unique {V : Type} (d : dict Z V) (k : Z) (v : V) :
  NoDup (map fst d) -> In (k, v) d -> dict_get Z.eqb d k = Ok v.
Proof.
  intros Hnd Hin.
  destruct (dict_get_key d k) as [v' Hv'].
  { apply in_map_iff; exists (k, v); auto. }
  rewrite Hv'; f_equal.
  apply dict_get_In in Hv'.
  clear - Hnd Hin Hv'.
  induction d as [|[k0 v0] d IH]; [contradiction|].
  simpl in Hnd; inversion Hnd as [|? ? Hk Hnd']; subst.
  destruct Hin as [E1|H1], Hv' as [E2|H2].
  - congruence.
  - inversion E1; subst; exfalso; apply Hk, in_map_iff; exists (k, v'); auto.
  - inversion E2; subst; exfalso; apply Hk, in_map_iff; exists (k, v); auto.
  - apply IH; assumption.
Qed.

Lemma enumerate_from_values {A : Type} (l : list A) (s : Z) :
  map snd (enumerate_from s l) = l.
Proof.
  revert s; induction l as [|x l IH]; intros s; simpl; [reflexivity|].
  rewrite IH; reflexivity.
Qed.

Lemma pencil_dict_keys (L : list (list Z)) : map fst (pencil_dict L) = concat L.
Proof.
  unfold pencil_dict, enumerate.
  assert (H : forall j,
             map fst (flat_map
                        (fun jl : Z * list Z =>
                           map (fun ix : Z * Z => (snd ix, (fst jl, fst ix)))
                               (enumerate_from 0 (snd jl)))
                        (enumerate_from j L)) = concat L); [|apply H].
  induction L as [|l L IH]; intros j; simpl; [reflexivity|].
  rewrite map_app, IH; f_equal.
  rewrite map_map; simpl; apply enumerate_from_values.
Qed.

Lemma in_pencil_dict (L : list (list Z)) (x j i : Z) :
  In (x, (j, i)) (pencil_dict L)
  <-> exists l, 0 <= j /\ nth_error L (Z.to_nat j) = Some l
                /\ 0 <= i /\ nth_error l (Z.to_nat i) = Some x.
Proof.
  unfold pencil_dict, enumerate; rewrite in_flat_map; split.
  - intros [[j' l] [Hjl Hin]]; simpl in Hin.
    apply in_map_iff in Hin; destruct Hin as [[i' x'] [E Hix]]; simpl in E.
    inversion E; subst.
    apply in_enumerate_from in Hjl; destruct Hjl as [kj [Ej Hj]].
    apply in_enumerate_from in Hix; destruct Hix as [ki [Ei Hi]].
    exists l; subst; rewrite !Z.add_0_l, !Nat2Z.id; repeat split; auto; lia.
  - intros [l [Hj [Hl [Hi Hx]]]]; exists (j, l); split.
    + apply in_enumerate_from; exists (Z.to_nat j); split; [lia | exact Hl].
    + simpl; apply in_map_iff; exists (i, x); split; [reflexivity|].
      apply in_enumerate_from; exists (Z.to_nat i); split; [lia | exact Hx].
Qed.

Lemma mapM_Forall2 {A B : Type} (f : A -> result B) (l : list A) :
  (forall x, In x l -> exists v, f x = Ok v) ->
  exists r, mapM f l = Ok r /\ Forall2 (fun x v => f x = Ok v) l r.
Proof.
  induction l as [|x l IH]; intros H; simpl.
  - exists []; split; [reflexivity | constructor].
  - destruct (H x (or_introl eq_refl)) as [v Hv].
    destruct IH as [r [Hr HF]]; [intros y Hy; apply H; right; exact Hy|].
    exists (v :: r); rewrite Hv, Hr; split; [reflexivity | constructor; assumption].
Qed.

(** *** Sorting the relabelled points of a block *)

Lemma pair_leb_total (p q : Z * Z) : pair_leb p q = false -> pair_leb q p = true.
Proof.
  unfold pair_leb; intros H.
  apply orb_false_iff in H; destruct H as [H1 H2].
  apply Z.ltb_ge in H1.
  destruct (Z.ltb_spec (fst q) (fst p)); [reflexivity|]; simpl.
  assert (E : fst p = fst q) by lia.
  rewrite E, Z.eqb_refl in *; simpl in *.
  apply Z.leb_gt in H2; apply Z.leb_le; lia.
Qed.

Lemma pair_le_fst (p q : Z * Z) : pair_le p q -> fst p <= fst q.
Proof.
  unfold pair_le, pair_leb; intros H.
  apply orb_true_iff in H; destruct H as [H|H].
  - apply Z.ltb_lt in H; lia.
  - apply andb_true_iff in H; destruct H as [H _]; apply Z.eqb_eq in H; lia.
Qed.

Lemma pair_le_trans (p q r : Z * Z) : pair_le p q -> pair_le q r -> pair_le p r.
Proof.
  unfold pair_le, pair_leb; intros H1 H2.
  apply orb_true_iff in H1; apply orb_true_iff in H2; apply orb_true_iff.
  rewrite !andb_true_iff, !Z.ltb_lt, !Z.eqb_eq, !Z.leb_le in *; lia.
Qed.

Lemma insert_sorted_Sorted (p : Z * Z) (l : list (Z * Z)) :
  Sorted pair_le l -> Sorted pair_le (insert_sorted pair_leb p l).
Proof.
  induction l as [|q l IH]; intros Hs; simpl; [repeat constructor|].
  destruct (pair_leb p q) eqn:E.
  - constructor; [exact Hs | constructor; exact E].
  - inversion Hs as [|? ? Hs' Hd]; subst.
    constructor; [apply IH; exact Hs'|].
    apply pair_leb_total in E.
    destruct l as [|q' l]; simpl; [constructor; exact E|].
    destruct (pair_leb p q'); constructor; [exact E|].
    inversion Hd; subst; assumption.
Qed.

Lemma sorted_Sorted (l : list (Z * Z)) : Sorted pair_le (sorted l).
Proof.
  unfold sorted; induction l as [|p l IH]; simpl; [constructor|].
  apply insert_sorted_Sorted; exact IH.
Qed.

Lemma sorted_StronglySorted (l : list (Z * Z)) : StronglySorted pair_le (sorted l).
Proof.
  apply Sorted_StronglySorted; [|apply sorted_Sorted].
  intros p q r; apply pair_le_trans.
Qed.

Lemma StronglySorted_fst_lt (l : list (Z * Z)) :
  StronglySorted pair_le l -> NoDup (map fst l) -> StronglySorted Z.lt (map fst l).
Proof.
  induction 1 as [|p l Hs IH Hall]; intros Hnd; simpl; [constructor|].
  simpl in Hnd; inversion Hnd as [|? ? Hp Hnd']; subst.
  constructor; [apply IH; exact Hnd'|].
  rewrite Forall_forall in *; intros y Hy.
  apply in_map_iff in Hy; destruct Hy as [q [<- Hq]].
  pose proof (pair_le_fst _ _ (Hall q Hq)).
  assert (fst p <> fst q) by (intros E; apply Hp; rewrite E; apply in_map; exact Hq).
  lia.
Qed.

Lemma range2_cons (lo hi : Z) : lo < hi -> range2 lo hi = lo :: range2 (lo + 1) hi.
Proof.
  intros H; unfold range2.
  replace (Z.to_nat (hi - lo)) with (S (Z.to_nat (hi - (lo + 1)))) by lia.
  cbn [seq map]; f_equal; [lia|].
  rewrite <- seq_shift, map_map; apply map_ext; intros i; lia.
Qed.

Lemma range2_nil (lo hi : Z) : hi <= lo -> range2 lo hi = [].
Proof.
  intros H; unfold range2; replace (Z.to_nat (hi - lo)) with O by lia; reflexivity.
Qed.

(** An increasing list of [m] integers, all in [lo .. lo+m-1], is that range. *)
Lemma increasing_is_range (l : list Z) :
  StronglySorted Z.lt l ->
  forall lo, (forall x, In x l -> lo <= x < lo + len l) -> l = range2 lo (lo + len l).
Proof.
  induction 1 as [|h t Hs IH Hall]; intros lo Hb.
  - unfold len; simpl; rewrite range2_nil by lia; reflexivity.
  - rewrite Forall_forall in Hall.
    assert (Ht : t = range2 (h + 1) (h + 1 + len t)).
    { apply IH; intros x Hx.
      pose proof (Hb h (or_introl eq_refl)) as Hbh.
      specialize (Hall x Hx); specialize (Hb x (or_intror Hx)).
      unfold len in *; simpl length in Hb, Hbh; lia. }
    assert (Hh : h = lo).
    { pose proof (Hb h (or_introl eq_refl)) as Hbh.
      destruct t as [|y t'].
      - unfold len in Hbh; simpl in Hbh; lia.
      - assert (Hin : In (h + len (y :: t')) (y :: t')).
        { rewrite Ht at 2; apply in_range2; unfold len; simpl length; lia. }
        specialize (Hb _ (or_intror Hin)).
        unfold len in *; simpl length in *; lia. }
    subst h; unfold len in *; simpl length.
    rewrite range2_cons by lia; f_equal.
    rewrite Ht at 1; f_equal; lia.
Qed.

Lemma sorted_perm (l : list (Z * Z)) : Permutation l (sorted l).
Proof. apply isort_perm. Qed.

(** After sorting, the tuple at place [k] has first component [k]. *)
Lemma sorted_firsts (r : list (Z * Z)) (m : Z) :
  NoDup (map fst r) -> (forall p, In p r -> 0 <= fst p < m) -> len r = m ->
  map fst (sorted r) = range m.
Proof.
  intros Hnd Hb Hlen.
  pose proof (sorted_perm r) as Hp.
  assert (Hlen' : len (map fst (sorted r)) = m).
  { unfold len in *; rewrite length_map, <- (Permutation_length Hp); exact Hlen. }
  assert (HS : StronglySorted Z.lt (map fst (sorted r))).
  { apply StronglySorted_fst_lt; [apply sorted_StronglySorted|].
    eapply Permutation_NoDup; [apply Permutation_map; exact Hp | exact Hnd]. }
  pose proof (increasing_is_range _ HS 0) as E.
  rewrite Hlen', Z.add_0_l in E; apply E.
  intros x Hx; apply in_map_iff in Hx; destruct Hx as [p [<- Hp']].
  apply Hb; eapply Permutation_in; [apply Permutation_sym|]; eassumption.
Qed.

(** *** The pencil of lines through a point *)

Lemma Forall2_nth_error_r {A B : Type} (R : A -> B -> Prop) (l1 : list A) (l2 : list B)
      (j : nat) (y : B) :
  Forall2 R l1 l2 -> nth_error l2 j = Some y ->
  exists x, nth_error l1 j = Some x /\ R x y.
Proof.
  intros H; revert j; induction H as [|a b l1 l2 Hab _ IH]; intros [|j] Hj;
    simpl in *; try discriminate.
  - inversion Hj; subst; exists a; auto.
  - apply IH; exact Hj.
Qed.

Lemma NoDup_concat (L : list (list Z)) :
  Forall (@NoDup Z) L ->
  (forall j1 j2 l1 l2 x, nth_error L j1 = Some l1 -> nth_error L j2 = Some l2 ->
                         In x l1 -> In x l2 -> j1 = j2) ->
  NoDup (concat L).
Proof.
  induction 1 as [|l L Hl _ IH]; intros Hd; simpl; [constructor|].
  apply NoDup_app.
  - exact Hl.
  - apply IH; intros j1 j2 l1 l2 x H1 H2 Hx1 Hx2.
    assert (E : S j1 = S j2) by (apply (Hd (S j1) (S j2) l1 l2 x); assumption).
    lia.
  - intros x Hx Hc; apply in_concat in Hc; destruct Hc as [l' [Hl' Hx']].
    apply In_nth_error in Hl'; destruct Hl' as [j Hj].
    assert (E : O = S j) by (apply (Hd O (S j) l l' x); auto).
    discriminate.
Qed.

Lemma length_concat_const (L : list (list Z)) (m : nat) :
  Forall (fun l => length l = m) L -> length (concat L) = (m * length L)%nat.
Proof.
  induction 1 as [|l L Hl _ IH]; simpl; [lia|].
  rewrite length_app, IH, Hl; lia.
Qed.

Section PlaneToOA.
Variable n : Z.
Variable D : design.
Variable pt : Z.
Hypothesis Hplane : is_projective_plane n D.
Hypothesis Hpt : In pt (pnts D).

Lemma plane_block_shape (b : list Z) :
  In b (blcks D) -> len b = n + 1 /\ NoDup b /\ incl b (pnts D).
Proof.
  destruct Hplane as (_ & _ & _ & _ & [HF _] & _).
  rewrite Forall_forall in HF; apply HF.
Qed.

Lemma plane_order : 2 <= n.
Proof. destruct Hplane as (H & _); exact H. Qed.

(** Two blocks with two common points are the same block, at the same place. *)
Lemma plane_blocks_share_index (i j : nat) (b1 b2 : list Z) (x y : Z) :
  nth_error (blcks D) i = Some b1 -> nth_error (blcks D) j = Some b2 ->
  x <> y -> In x b1 -> In y b1 -> In x b2 -> In y b2 -> i = j.
Proof.
  intros Hi Hj Hxy Hx1 Hy1 Hx2 Hy2.
  destruct Hplane as (_ & _ & _ & _ & [_ Hm] & _).
  destruct (Nat.eq_dec i j) as [E|Hne]; [exact E|].
  destruct (Hm i j b1 b2 Hne Hi Hj) as [p [_ [_ Hu]]].
  exfalso; apply Hxy; rewrite (Hu x Hx1 Hx2), (Hu y Hy1 Hy2); reflexivity.
Qed.

Lemma plane_blocks_share (b1 b2 : list Z) (x y : Z) :
  In b1 (blcks D) -> In b2 (blcks D) ->
  x <> y -> In x b1 -> In y b1 -> In x b2 -> In y b2 -> b1 = b2.
Proof.
  intros H1 H2 Hxy Hx1 Hy1 Hx2 Hy2.
  apply In_nth_error in H1; destruct H1 as [i Hi].
  apply In_nth_error in H2; destruct H2 as [j Hj].
  assert (i = j) by (eapply plane_blocks_share_index; eauto).
  subst; congruence.
Qed.

Lemma block_two_points (b : list Z) :
  In b (blcks D) -> exists x y, x <> y /\ In x b /\ In y b.
Proof.
  intros Hb; destruct (plane_block_shape b Hb) as [Hl [Hnd _]].
  pose proof plane_order.
  destruct b as [|x [|y b']]; unfold len in Hl; simpl in Hl; try lia.
  exists x, y; simpl; split; [|auto].
  inversion Hnd as [|? ? Hx _]; subst; simpl in Hx; intros ->; tauto.
Qed.

Lemma plane_blocks_NoDup : NoDup (blcks D).
Proof.
  apply NoDup_nth_error; intros i j Hi E.
  destruct (nth_error (blcks D) i) as [b|] eqn:Hb; [|apply nth_error_None in Hb; lia].
  destruct (block_two_points b (nth_error_In _ _ Hb)) as [x [y [Hxy [Hx Hy]]]].
  eapply plane_blocks_share_index; eauto.
Qed.

Lemma Forall2_impl_In {A B : Type} (R R' : A -> B -> Prop) (l1 : list A) (l2 : list B) :
  (forall x y, In x l1 -> R x y -> R' x y) -> Forall2 R l1 l2 -> Forall2 R' l1 l2.
Proof.
  intros H HF; induction HF as [|a b l1 l2 Hab _ IH]; constructor.
  - apply H; simpl; auto.
  - apply IH; intros x y Hx; apply H; simpl; auto.
Qed.

Lemma removed_is_pencil_line (L : list (list Z)) :
  Forall2 (fun b l => list_remove pt b = Ok l) (filter (mem pt) (blcks D)) L ->
  Forall2 (pencil_line n D pt) (filter (mem pt) (blcks D)) L.
Proof.
  apply Forall2_impl_In; intros b l Hb Hr.
  apply filter_In in Hb; destruct Hb as [Hb Hm]; apply mem_In in Hm.
  destruct (plane_block_shape b Hb) as [Hl [Hnd _]].
  destruct (list_remove_spec pt b Hnd Hm) as [b' [Hr' [Hnd' [Hiff Hlen]]]].
  rewrite Hr in Hr'; inversion Hr'; subst b'.
  split; [exact Hb|]. split; [exact Hm|]. split; [exact Hnd'|].
  split; [unfold len in *; lia | exact Hiff].
Qed.

Variable L : list (list Z).
Hypothesis HL : Forall2 (pencil_line n D pt) (filter (mem pt) (blcks D)) L.

Lemma pencil_nth (j : nat) (l : list Z) :
  nth_error L j = Some l ->
  exists b, nth_error (filter (mem pt) (blcks D)) j = Some b /\ pencil_line n D pt b l.
Proof. apply Forall2_nth_error_r; exact HL. Qed.

(** Two lines of the pencil have no common point once [pt] is removed. *)
Lemma pencil_disjoint (j1 j2 : nat) (l1 l2 : list Z) (x : Z) :
  nth_error L j1 = Some l1 -> nth_error L j2 = Some l2 ->
  In x l1 -> In x l2 -> j1 = j2.
Proof.
  intros H1 H2 Hx1 Hx2.
  destruct (pencil_nth j1 l1 H1) as [b1 [Hb1 (Hin1 & Hp1 & _ & _ & Hiff1)]].
  destruct (pencil_nth j2 l2 H2) as [b2 [Hb2 (Hin2 & Hp2 & _ & _ & Hiff2)]].
  apply Hiff1 in Hx1; apply Hiff2 in Hx2.
  assert (E : b1 = b2).
  { apply (plane_blocks_share b1 b2 x pt); tauto. }
  subst b2.
  assert (Hnd : NoDup (filter (mem pt) (blcks D))) by (apply NoDup_filter, plane_blocks_NoDup).
  rewrite NoDup_nth_error in Hnd; apply Hnd; [|congruence].
  apply nth_error_Some; congruence.
Qed.

(** Every other point lies on a line of the pencil. *)
Lemma pencil_covers (x : Z) :
  In x (pnts D) -> x <> pt -> exists l, In l L /\ In x l.
Proof.
  intros Hx Hne.
  destruct Hplane as (_ & _ & _ & _ & _ & Htwo).
  destruct (Htwo x pt Hx Hpt Hne) as [b [Hb [Hxb Hpb]]].
  assert (Hin : In b (filter (mem pt) (blcks D))).
  { apply filter_In; split; [exact Hb | apply mem_In; exact Hpb]. }
  apply In_nth_error in Hin; destruct Hin as [j Hj].
  assert (Hlen : length (filter (mem pt) (blcks D)) = length L)
    by (eapply Forall2_length; exact HL).
  destruct (nth_error L j) as [l|] eqn:Hl.
  - exists l; split; [eapply nth_error_In; exact Hl|].
    destruct (pencil_nth j l Hl) as [b' [Hb' (_ & _ & _ & _ & Hiff)]].
    rewrite Hj in Hb'; inversion Hb'; subst b'.
    apply Hiff; auto.
  - apply nth_error_None in Hl.
    assert (j < length (filter (mem pt) (blcks D)))%nat
      by (apply nth_error_Some; congruence).
    lia.
Qed.

Lemma pencil_shape (l : list Z) :
  In l L -> NoDup l /\ len l = n /\ ~ In pt l /\ incl l (pnts D).
Proof.
  intros Hl; apply In_nth_error in Hl; destruct Hl as [j Hj].
  destruct (pencil_nth j l Hj) as [b [_ (Hb & _ & Hnd & Hlen & Hiff)]].
  split; [exact Hnd|]. split; [exact Hlen|]. split.
  - intros Hc; apply Hiff in Hc; tauto.
  - intros x Hx; apply Hiff in Hx.
    destruct (plane_block_shape b Hb) as (_ & _ & Hincl); apply Hincl; tauto.
Qed.

Lemma pencil_concat_NoDup : NoDup (concat L).
Proof.
  apply NoDup_concat.
  - apply Forall_forall; intros l Hl; apply pencil_shape; exact Hl.
  - apply pencil_disjoint.
Qed.

Lemma pencil_concat_In (x : Z) : In x (concat L) <-> In x (pnts D) /\ x <> pt.
Proof.
  split.
  - intros Hx; apply in_concat in Hx; destruct Hx as [l [Hl Hx]].
    destruct (pencil_shape l Hl) as (_ & _ & Hnp & Hincl).
    split; [apply Hincl; exact Hx | intros ->; contradiction].
  - intros [Hx Hne]; destruct (pencil_covers x Hx Hne) as [l [Hl Hxl]].
    apply in_concat; exists l; auto.
Qed.

(** The pencil has [n + 1] lines. *)
Lemma pencil_length : len L = n + 1.
Proof.
  destruct Hplane as (Hn & Hnd & Hlen & _).
  assert (HP : Permutation (pt :: concat L) (pnts D)).
  { apply NoDup_Permutation; [|exact Hnd|].
    - constructor; [rewrite pencil_concat_In; tauto | apply pencil_concat_NoDup].
    - intros x; simpl; rewrite pencil_concat_In; split.
      + intros [<-|[H _]]; auto.
      + intros Hx; destruct (Z.eq_dec pt x); [left; auto | right; split; auto]. }
  apply Permutation_length in HP; simpl in HP.
  rewrite (length_concat_const L (Z.to_nat n)) in HP.
  - unfold len in *; nia.
  - apply Forall_forall; intros l Hl.
    destruct (pencil_shape l Hl) as (_ & Hl' & _); unfold len in Hl'; lia.
Qed.

(** The other blocks are [n^2]. *)
Lemma others_length : len (filter (fun b => negb (mem pt b)) (blcks D)) = n ^ 2.
Proof.
  destruct Hplane as (_ & _ & _ & Hb & _).
  pose proof (filter_partition_length (mem pt) (blcks D)) as Hp.
  pose proof pencil_length as Hl.
  pose proof (Forall2_length HL) as HF.
  unfold len in *; lia.
Qed.

(** *** The row of a block that misses [pt] *)

Lemma Forall2_NoDup_map {A B C : Type} (R : A -> B -> Prop) (f : B -> C)
      (l : list A) (r : list B) :
  Forall2 R l r -> NoDup l ->
  (forall x x' v v', In x l -> In x' l -> R x v -> R x' v' -> f v = f v' -> x = x') ->
  NoDup (map f r).
Proof.
  induction 1 as [|a v l r Hav HF IH]; intros Hnd Hinj; simpl; [constructor|].
  inversion Hnd as [|? ? Ha Hnd']; subst; constructor.
  - intros Hin; apply in_map_iff in Hin; destruct Hin as [v' [E Hv']].
    destruct (Forall2_In_r _ _ _ v' HF Hv') as [x' [Hx' Hr']].
    assert (a = x') by (apply (Hinj a x' v v'); simpl; auto).
    subst; contradiction.
  - apply IH; [exact Hnd'|].
    intros x x' w w' Hx Hx'; apply Hinj; simpl; auto.
Qed.

Lemma nth_error_range (m k : Z) :
  0 <= k < m -> nth_error (range m) (Z.to_nat k) = Some k.
Proof.
  intros Hk; unfold range, range2.
  rewrite nth_error_map, nth_error_seq.
  destruct (Nat.ltb_spec (Z.to_nat k) (Z.to_nat (m - 0))); [|lia].
  simpl; f_equal; lia.
Qed.

Lemma pencil_dict_NoDup : NoDup (map fst (pencil_dict L)).
Proof. rewrite pencil_dict_keys; apply pencil_concat_NoDup. Qed.

(** The value the dictionary holds for a point: its line and its place. *)
Lemma pencil_dict_value (x : Z) (v : Z * Z) :
  dict_get Z.eqb (pencil_dict L) x = Ok v ->
  exists l, 0 <= fst v /\ nth_error L (Z.to_nat (fst v)) = Some l
            /\ 0 <= snd v /\ nth_error l (Z.to_nat (snd v)) = Some x.
Proof.
  intros H; apply dict_get_In in H; destruct v as [j i].
  apply in_pencil_dict in H; exact H.
Qed.

Lemma OA_row_ok (b : list Z) :
  In b (blcks D) -> ~ In pt b ->
  exists row,
    OA_row (pencil_dict L) b = Ok row
    /\ len row = n + 1
    /\ forall k, 0 <= k <= n ->
         exists l x, nth_error L (Z.to_nat k) = Some l
                     /\ 0 <= nthZ row k
                     /\ nth_error l (Z.to_nat (nthZ row k)) = Some x
                     /\ In x b.
Proof.
  intros Hb Hnp.
  destruct (plane_block_shape b Hb) as (Hlen & Hnd & Hincl).
  destruct (mapM_Forall2 (dict_get Z.eqb (pencil_dict L)) b) as [r [Hr HF]].
  { intros x Hx; apply dict_get_key; rewrite pencil_dict_keys.
    apply pencil_concat_In; split; [apply Hincl; exact Hx | intros ->; contradiction]. }
  assert (Hfst : NoDup (map fst r)).
  { apply (Forall2_NoDup_map _ fst b r HF Hnd).
    intros x x' v v' Hx Hx' Hv Hv' E.
    destruct (pencil_dict_value x v Hv) as [l (_ & Hl & _ & Hxl)].
    destruct (pencil_dict_value x' v' Hv') as [l' (_ & Hl' & _ & Hxl')].
    rewrite <- E, Hl in Hl'; inversion Hl'; subst l'.
    destruct (Z.eq_dec x x') as [|Hne]; [assumption|exfalso].
    destruct (pencil_nth _ l Hl) as [b' [_ (Hb' & Hp' & _ & _ & Hiff)]].
    apply nth_error_In in Hxl, Hxl'.
    apply Hiff in Hxl; apply Hiff in Hxl'.
    assert (b = b') by (apply (plane_blocks_share b b' x x'); tauto).
    subst b'; contradiction. }
  assert (Hbound : forall p, In p r -> 0 <= fst p < n + 1).
  { intros p Hp; destruct (Forall2_In_r _ _ _ p HF Hp) as [x [_ Hx]].
    destruct (pencil_dict_value x p Hx) as [l (H0 & Hl & _)].
    assert (Z.to_nat (fst p) < length L)%nat by (apply nth_error_Some; congruence).
    pose proof pencil_length as HLn; unfold len in HLn; lia. }
  assert (Hrlen : len r = n + 1).
  { unfold len in *; rewrite <- (Forall2_length HF); exact Hlen. }
  pose proof (sorted_firsts r (n + 1) Hfst Hbound Hrlen) as Hs.
  pose proof (sorted_perm r) as Hperm.
  exists (map snd (sorted r)); split; [|split].
  - unfold OA_row; rewrite Hr; reflexivity.
  - rewrite len_map; unfold len in *; rewrite <- (Permutation_length Hperm); exact Hrlen.
  - intros k Hk.
    assert (Hkr : nth_error (map fst (sorted r)) (Z.to_nat k) = Some k)
      by (rewrite Hs; apply nth_error_range; lia).
    rewrite nth_error_map in Hkr.
    destruct (nth_error (sorted r) (Z.to_nat k)) as [p|] eqn:Hp; [|discriminate].
    simpl in Hkr; assert (Hfp : fst p = k) by congruence.
    assert (Hrow : nthZ (map snd (sorted r)) k = snd p).
    { unfold nthZ; apply nth_error_nth; rewrite nth_error_map, Hp; reflexivity. }
    rewrite Hrow.
    assert (Hin : In p r)
      by (eapply Permutation_in; [apply Permutation_sym; exact Hperm|];
          eapply nth_error_In; exact Hp).
    destruct (Forall2_In_r _ _ _ p HF Hin) as [x [Hxb Hx]].
    destruct (pencil_dict_value x p Hx) as [l (_ & Hl & Hi & Hxl)].
    rewrite Hfp in Hl.
    exists l, x; auto.
Qed.

(** The entry in column [k] is the place, on the line [k] of the pencil, of
    the point where the block meets that line. *)
Lemma OA_row_entry (b row l : list Z) (k i : Z) (x : Z) :
  In b (blcks D) -> ~ In pt b ->
  OA_row (pencil_dict L) b = Ok row ->
  0 <= k <= n -> nth_error L (Z.to_nat k) = Some l ->
  0 <= i -> nth_error l (Z.to_nat i) = Some x -> In x b ->
  nthZ row k = i.
Proof.
  intros Hb Hnp Hrow Hk Hl Hi Hx Hxb.
  destruct (OA_row_ok b Hb Hnp) as [row' [Hrow' [_ Hent]]].
  rewrite Hrow in Hrow'; inversion Hrow'; subst row'.
  destruct (Hent k Hk) as [l' [x' (Hl' & Hi' & Hx' & Hxb')]].
  rewrite Hl in Hl'; inversion Hl'; subst l'.
  destruct (pencil_nth _ l Hl) as [b' [_ (Hb' & Hp' & Hndl & _ & Hiff)]].
  assert (E : x = x').
  { destruct (Z.eq_dec x x') as [|Hne]; [assumption|exfalso].
    pose proof (nth_error_In _ _ Hx) as H1; pose proof (nth_error_In _ _ Hx') as H2.
    apply Hiff in H1; apply Hiff in H2.
    assert (b = b') by (apply (plane_blocks_share b b' x x'); tauto).
    subst b'; contradiction. }
  subst x'.
  rewrite NoDup_nth_error in Hndl.
  assert (Z.to_nat (nthZ row k) = Z.to_nat i); [|lia].
  apply Hndl; [apply nth_error_Some; congruence | congruence].
Qed.

Lemma Forall2_nth_error_l {A B : Type} (R : A -> B -> Prop) (l1 : list A) (l2 : list B)
      (j : nat) (x : A) :
  Forall2 R l1 l2 -> nth_error l1 j = Some x ->
  exists y, nth_error l2 j = Some y /\ R x y.
Proof.
  intros H; revert j; induction H as [|a b l1 l2 Hab _ IH]; intros [|j] Hj;
    simpl in *; try discriminate.
  - inversion Hj; subst; exists b; auto.
  - apply IH; exact Hj.
Qed.

(** The point at place [a] of the line [c] of the pencil. *)
Lemma pencil_point (c a : Z) :
  0 <= c <= n -> 0 <= a < n ->
  exists l x, nth_error L (Z.to_nat c) = Some l /\ nth_error l (Z.to_nat a) = Some x
              /\ In l L /\ In x l /\ In x (pnts D) /\ x <> pt.
Proof.
  intros Hc Ha.
  pose proof pencil_length as HLn; unfold len in HLn.
  destruct (nth_error L (Z.to_nat c)) as [l|] eqn:Hl;
    [|apply nth_error_None in Hl; lia].
  pose proof (nth_error_In _ _ Hl) as HlL.
  destruct (pencil_shape l HlL) as (_ & Hlen & Hnp & Hincl); unfold len in Hlen.
  destruct (nth_error l (Z.to_nat a)) as [x|] eqn:Hx;
    [|apply nth_error_None in Hx; lia].
  pose proof (nth_error_In _ _ Hx) as Hxl.
  exists l, x; repeat split; auto.
  intros ->; contradiction.
Qed.

(** The rows computed from the blocks that miss [pt] form an orthogonal array. *)
Lemma rows_form_OA :
  exists OA,
    mapM (OA_row (pencil_dict L)) (filter (fun b => negb (mem pt b)) (blcks D)) = Ok OA
    /\ is_OA (n + 1) n OA.
Proof.
  pose proof plane_order as Hn.
  assert (Hoth : forall b, In b (filter (fun b => negb (mem pt b)) (blcks D)) ->
                           In b (blcks D) /\ ~ In pt b).
  { intros b Hb; apply filter_In in Hb; destruct Hb as [Hb Hm].
    split; [exact Hb|]. apply mem_false, negb_true_iff; exact Hm. }
  destruct (mapM_Forall2 (OA_row (pencil_dict L))
              (filter (fun b => negb (mem pt b)) (blcks D))) as [OA [HOA HF]].
  { intros b Hb; destruct (Hoth b Hb) as [Hb1 Hb2].
    destruct (OA_row_ok b Hb1 Hb2) as [row [Hrow _]]; exists row; exact Hrow. }
  exists OA; split; [exact HOA|].
  split; [|split].
  - unfold len; rewrite <- (Forall2_length HF); apply others_length.
  - apply Forall_forall; intros row Hrow.
    destruct (Forall2_In_r _ _ _ row HF Hrow) as [b [Hb Hbr]].
    destruct (Hoth b Hb) as [Hb1 Hb2].
    destruct (OA_row_ok b Hb1 Hb2) as [row' [Hrow' [Hlen Hent]]].
    rewrite Hbr in Hrow'; inversion Hrow'; subst row'.
    split; [exact Hlen|].
    apply Forall_forall; intros x Hx.
    destruct (In_nth _ _ (-1) Hx) as [k [Hk Hnth]].
    unfold len in Hlen.
    destruct (Hent (Z.of_nat k) ltac:(lia)) as [l [y (Hl & H0 & Hy & _)]].
    unfold nthZ in *; rewrite Nat2Z.id, Hnth in *.
    destruct (pencil_shape l (nth_error_In _ _ Hl)) as (_ & Hll & _); unfold len in Hll.
    assert (Z.to_nat x < length l)%nat by (apply nth_error_Some; congruence).
    lia.
  - intros c1 c2 a b0 Hc1 Hc2 Hne Ha Hb0.
    destruct (pencil_point c1 a ltac:(lia) Ha) as [l1 [x1 (Hl1 & Hx1 & HlL1 & Hxl1 & Hxp1 & Hxn1)]].
    destruct (pencil_point c2 b0 ltac:(lia) Hb0) as [l2 [x2 (Hl2 & Hx2 & HlL2 & Hxl2 & Hxp2 & Hxn2)]].
    assert (Hx12 : x1 <> x2).
    { intros E; subst x2.
      assert (Z.to_nat c1 = Z.to_nat c2) by (eapply pencil_disjoint; eauto). lia. }
    destruct Hplane as (_ & _ & _ & _ & _ & Htwo).
    destruct (Htwo x1 x2 Hxp1 Hxp2 Hx12) as [B0 [HB0 [HxB1 HxB2]]].
    assert (HnB0 : ~ In pt B0).
    { intros Hp.
      assert (Hin : In B0 (filter (mem pt) (blcks D)))
        by (apply filter_In; split; [exact HB0 | apply mem_In; exact Hp]).
      apply In_nth_error in Hin; destruct Hin as [j Hj].
      destruct (Forall2_nth_error_l _ _ _ _ _ HL Hj) as [l [Hl (_ & _ & _ & _ & Hiff)]].
      assert (j = Z.to_nat c1)
        by (apply (pencil_disjoint j (Z.to_nat c1) l l1 x1); auto; apply Hiff; auto).
      assert (j = Z.to_nat c2)
        by (apply (pencil_disjoint j (Z.to_nat c2) l l2 x2); auto; apply Hiff; auto).
      lia. }
    assert (Hin : In B0 (filter (fun b => negb (mem pt b)) (blcks D))).
    { apply filter_In; split; [exact HB0|]. apply negb_true_iff, mem_false; exact HnB0. }
    apply In_nth_error in Hin; destruct Hin as [r Hr].
    destruct (Forall2_nth_error_l _ _ _ _ _ HF Hr) as [row [Hrow HrowB]].
    exists r, row; split; [exact Hrow|].
    split; [apply (OA_row_entry B0 row l1 c1 a x1); auto; lia|].
    split; [apply (OA_row_entry B0 row l2 c2 b0 x2); auto; lia|].
    intros r' row' Hrow' Ha' Hb'.
    destruct (Forall2_nth_error_r _ _ _ _ _ HF Hrow') as [B' [HB' HrowB']].
    destruct (Hoth B' (nth_error_In _ _ HB')) as [HB'1 HB'2].
    destruct (OA_row_ok B' HB'1 HB'2) as [row'' [Hrow'' [_ Hent]]].
    rewrite HrowB' in Hrow''; inversion Hrow''; subst row''.
    destruct (Hent c1 ltac:(lia)) as [l1' [y1 (Hl1' & _ & Hy1 & HyB1)]].
    destruct (Hent c2 ltac:(lia)) as [l2' [y2 (Hl2' & _ & Hy2 & HyB2)]].
    rewrite Hl1 in Hl1'; inversion Hl1'; subst l1'.
    rewrite Hl2 in Hl2'; inversion Hl2'; subst l2'.
    rewrite Ha', Hx1 in Hy1; inversion Hy1; subst y1.
    rewrite Hb', Hx2 in Hy2; inversion Hy2; subst y2.
    assert (B' = B0) by (apply (plane_blocks_share B' B0 x1 x2); auto).
    subst B'.
    assert (Hnd : NoDup (filter (fun b => negb (mem pt b)) (blcks D)))
      by (apply NoDup_filter, plane_blocks_NoDup).
    rewrite NoDup_nth_error in Hnd; apply Hnd; [|congruence].
    apply nth_error_Some; congruence.
Qed.

End PlaneToOA.

(** C3: on a projective plane of order [n] and a point [pt] of it (the point
    [n^2+n] when none is given), [projective_plane_to_OA] returns an array of
    [n^2] rows of width [n + 1] on the symbols [0 .. n-1] in which, for
    every two different columns, every ordered pair of symbols appears in
    exactly one row. *)
Theorem projective_plane_to_OA_orthogonal
    (is_orthogonal_array : list (list Z) -> Z -> Z -> Z -> bool)
    (n : Z) (D : design) (pt : option Z) (check : bool) :
  is_projective_plane n D ->
  In (match pt with None => n ^ 2 + n | Some p => p end) (pnts D) ->
  exists OA,
    projective_plane_to_OA is_orthogonal_array D pt check = Ok OA
    /\ is_OA (n + 1) n OA.
Proof.
  intros Hplane Hpt.
  set (p := match pt with None => n ^ 2 + n | Some p0 => p0 end) in *.
  rewrite projective_plane_to_OA_unfold.
  assert (Hplane' := Hplane).
  destruct Hplane' as (Hn & _ & _ & Hnb & [HF _] & _).
  destruct (blcks D) as [|b0 bs] eqn:HB.
  { unfold len in Hnb; simpl in Hnb; nia. }
  assert (Hb0 : len b0 - 1 = n).
  { inversion HF as [|? ? [Hl _] _]; subst; lia. }
  cbn [first bind]; rewrite Hb0, Hnb, Z.eqb_refl; cbn [assert bind].
  fold p.
  destruct (pencil_loop_filter n p (b0 :: bs)) with (L := @nil (list Z)) (OA := @nil (list Z))
    as [Ls [Hloop HLs]].
  { eapply Forall_impl; [|exact HF]. intros b (H1 & H2 & _); auto. }
  rewrite Hloop; cbn [bind fst snd app].
  rewrite <- HB in HLs |- *.
  apply (removed_is_pencil_line n D p Hplane) in HLs.
  rewrite (pencil_length n D p Hplane Hpt Ls HLs), Z.eqb_refl; cbn [assert bind].
  apply (rows_form_OA n D p Hplane Hpt Ls HLs).
Qed.

(** *** Deciding that a design is a plane *)

Lemma nodup_b_NoDup (l : list Z) : nodup_b l = true -> NoDup l.
Proof.
  induction l as [|x l IH]; simpl; intros H; constructor.
  - apply andb_true_iff in H; destruct H as [H _].
    apply mem_false, negb_true_iff; exact H.
  - apply IH; apply andb_true_iff in H; tauto.
Qed.

Lemma pairwise_b_ForallOrdPairs {A : Type} (f : A -> A -> bool) (R : A -> A -> Prop)
      (l : list A) :
  (forall x y, f x y = true -> R x y) -> pairwise_b f l = true -> ForallOrdPairs R l.
Proof.
  intros HfR; induction l as [|x l IH]; simpl; intros H; constructor.
  - apply andb_true_iff in H; destruct H as [H _].
    rewrite forallb_forall in H; apply Forall_forall; intros y Hy; apply HfR, H, Hy.
  - apply IH; apply andb_true_iff in H; tauto.
Qed.

Lemma common_points_meet (b1 b2 : list Z) :
  len (common_points b1 b2) = 1 -> meet_in_one_point b1 b2.
Proof.
  unfold len, common_points; intros H.
  destruct (filter (fun x => mem x b2) b1) as [|p [|q l]] eqn:E; simpl in H; try lia.
  assert (Hp : forall x, In x b1 /\ mem x b2 = true <-> x = p).
  { intros x; pose proof (filter_In (fun y => mem y b2) x b1) as HfI.
    rewrite E in HfI; simpl in HfI.
    split; [intros H0; apply HfI in H0; destruct H0 as [H0|[]]; auto
           | intros H0; apply HfI; left; auto]. }
  exists p; split; [apply (Hp p); reflexivity|].
  split; [apply mem_In, (Hp p); reflexivity|].
  intros q H1 H2; apply Hp; split; [exact H1 | apply mem_In; exact H2].
Qed.

Lemma plane_test_sound (n : Z) (D : design) :
  plane_test n D = true -> is_projective_plane n D.
Proof.
  unfold plane_test; rewrite !andb_true_iff.
  intros [[[[[[Hn Hnd] Hlp] Hlb] Hbl] Hpw] Htwo].
  split; [apply Z.leb_le; exact Hn|].
  split; [apply nodup_b_NoDup; exact Hnd|].
  split; [apply Z.eqb_eq; exact Hlp|].
  split; [apply Z.eqb_eq; exact Hlb|].
  split; [split|].
  - rewrite forallb_forall in Hbl; apply Forall_forall; intros b Hb.
    specialize (Hbl b Hb); rewrite !andb_true_iff in Hbl.
    destruct Hbl as [[H1 H2] H3].
    split; [apply Z.eqb_eq; exact H1|]. split; [apply nodup_b_NoDup; exact H2|].
    rewrite forallb_forall in H3; intros x Hx; apply mem_In, H3, Hx.
  - apply ForallOrdPairs_nth_error; [apply meet_in_one_point_sym|].
    eapply pairwise_b_ForallOrdPairs; [|exact Hpw].
    intros b1 b2 H; apply common_points_meet, Z.eqb_eq; exact H.
  - intros p q Hp Hq Hne.
    rewrite forallb_forall in Htwo; specialize (Htwo p Hp).
    rewrite forallb_forall in Htwo; specialize (Htwo q Hq).
    apply orb_true_iff in Htwo; destruct Htwo as [H|H]; [apply Z.eqb_eq in H; contradiction|].
    apply existsb_exists in H; destruct H as [b [Hb H]].
    apply andb_true_iff in H; destruct H as [H1 H2].
    exists b; split; [exact Hb|]; split; apply mem_In; assumption.
Qed.

Lemma projective_plane_to_OA_orthogonal_witness :
  exists OA,
    projective_plane_to_OA orthogonal_test
      {| pnts := range 13;
         blcks := [[0; 1; 2; 12]; [0; 3; 6; 9]; [0; 4; 8; 10]; [0; 5; 7; 11];
                   [1; 3; 8; 11]; [1; 4; 7; 9]; [1; 5; 6; 10]; [2; 3; 7; 10];
                   [2; 4; 6; 11]; [2; 5; 8; 9]; [3; 4; 5; 12]; [6; 7; 8; 12];
                   [9; 10; 11; 12]] |} (Some 7) true = Ok OA
    /\ is_OA (3 + 1) 3 OA.
Proof.
  apply (projective_plane_to_OA_orthogonal orthogonal_test 3).
  - apply plane_test_sound; vm_compute; reflexivity.
  - vm_compute; tauto.
Defined.

(** ** More on the parameter derivation *)

Lemma factorial_pos (n : nat) : 0 < factorial n.
Proof.
  induction n as [|n IH]; [reflexivity|].
  change (factorial (S n)) with (Z.of_nat (S n) * factorial n); nia.
Qed.

(** The absorption rule [(k+1) * C(n+1, k+1) = (n+1) * C(n, k)]. *)
Lemma binom_absorb (n k : nat) :
  Z.of_nat (S k) * binom (S n) (S k) = Z.of_nat (S n) * binom n k.
Proof.
  destruct (Nat.le_gt_cases k n) as [Hle|Hgt].
  - pose proof (binom_factorial (S n) (S k) ltac:(lia)) as H1.
    pose proof (binom_factorial n k Hle) as H2.
    replace (S n - S k)%nat with (n - k)%nat in H1 by lia.
    change (factorial (S k)) with (Z.of_nat (S k) * factorial k) in H1.
    change (factorial (S n)) with (Z.of_nat (S n) * factorial n) in H1.
    pose proof (factorial_pos k); pose proof (factorial_pos (n - k)).
    assert (E : (Z.of_nat (S k) * binom (S n) (S k)) * (factorial k * factorial (n - k))
                = (Z.of_nat (S n) * binom n k) * (factorial k * factorial (n - k))).
    { rewrite <- H2 in H1. lia. }
    apply Z.mul_reg_r in E; [exact E | nia].
  - rewrite (binom_lt (S n) (S k)), (binom_lt n k) by lia; lia.
Qed.

Lemma binomial_absorb (x m : Z) :
  0 < m -> 0 < x -> m * binomial x m = x * binomial (x - 1) (m - 1).
Proof.
  intros Hm Hx; rewrite !binomial_binom by lia.
  replace (Z.to_nat x) with (S (Z.to_nat (x - 1))) by lia.
  replace (Z.to_nat m) with (S (Z.to_nat (m - 1))) by lia.
  pose proof (binom_absorb (Z.to_nat (x - 1)) (Z.to_nat (m - 1))) as H.
  replace (Z.of_nat (S (Z.to_nat (m - 1)))) with m in H by lia.
  replace (Z.of_nat (S (Z.to_nat (x - 1)))) with x in H by lia.
  exact H.
Qed.

(** X1: when the two quotients of [tdesign_params] are exact, the numbers it
    returns obey the counting rule of a design, [b * k = v * r]. *)
Theorem tdesign_params_counting (t v k L b r : Z) :
  0 < t -> t <= k -> k <= v ->
  (binomial k t | L * binomial v t) ->
  (binomial (k - 1) (t - 1) | L * binomial (v - 1) (t - 1)) ->
  tdesign_params t v k L = Ok (t, v, b, r, k, L) ->
  b * k = v * r.
Proof.
  intros Ht Htk Hkv [qb Hb] [qr Hr] H.
  assert (Hy1 : 0 < binomial k t) by (apply binomial_pos; lia).
  assert (Hy2 : 0 < binomial (k - 1) (t - 1)) by (apply binomial_pos; lia).
  unfold tdesign_params, divmod, rational_div, integer_floor in H.
  destruct (Z.eqb_spec (binomial k t) 0); [lia|].
  destruct (Z.eqb_spec (binomial (k - 1) (t - 1)) 0); [lia|].
  cbn [bind fst] in H; rewrite Qfloor_inject_div in H by exact Hy2.
  inversion H as [[Eb Er]]; clear H.
  rewrite Hb, Z.div_mul by lia.
  rewrite Hr, Z.div_mul by lia.
  pose proof (binomial_absorb v t ltac:(lia) ltac:(lia)) as Av.
  pose proof (binomial_absorb k t ltac:(lia) ltac:(lia)) as Ak.
  apply (Z.mul_reg_r _ _ (binomial (k - 1) (t - 1))); [lia|].
  transitivity (qb * (k * binomial (k - 1) (t - 1))); [ring|].
  rewrite <- Ak.
  transitivity (t * (qb * binomial k t)); [ring|].
  rewrite <- Hb.
  transitivity (L * (t * binomial v t)); [ring|].
  rewrite Av.
  transitivity (v * (L * binomial (v - 1) (t - 1))); [ring|].
  rewrite Hr; ring.
Qed.

Lemma tdesign_params_counting_witness : 12 * 3 = 9 * 4.
Proof.
  apply (tdesign_params_counting 2 9 3 1 12 4); try lia.
  - exists 12; reflexivity.
  - exists 4; reflexivity.
  - reflexivity.
Defined.

(** X2: [tdesign_params] raises [ZeroDivisionError] exactly when [C(k,t)]
    or [C(k-1,t-1)] is zero, which is the case for [t <= 0] and for
    [0 <= k < t]; it raises nothing else. *)
Theorem tdesign_params_zero_division (t v k L : Z) :
  (tdesign_params t v k L = Err ZeroDivisionError
   <-> binomial k t = 0 \/ binomial (k - 1) (t - 1) = 0)
  /\ (forall e, tdesign_params t v k L = Err e -> e = ZeroDivisionError)
  /\ (t <= 0 -> tdesign_params t v k L = Err ZeroDivisionError)
  /\ (0 <= k < t -> tdesign_params t v k L = Err ZeroDivisionError).
Proof.
  assert (Hcases : (binomial k t = 0 \/ binomial (k - 1) (t - 1) = 0)
                   /\ tdesign_params t v k L = Err ZeroDivisionError
                   \/ (binomial k t <> 0 /\ binomial (k - 1) (t - 1) <> 0)
                      /\ exists x, tdesign_params t v k L = Ok x).
  { unfold tdesign_params, divmod, rational_div.
    destruct (Z.eqb_spec (binomial k t) 0) as [E1|E1]; [left; auto|].
    destruct (Z.eqb_spec (binomial (k - 1) (t - 1)) 0) as [E2|E2]; [left; auto|].
    right; split; [auto|]; eexists; reflexivity. }
  assert (Hz : forall x m, m < 0 -> binomial x m = 0).
  { intros x m Hm; unfold binomial; destruct (Z.ltb_spec m 0); [reflexivity | lia]. }
  split; [|split; [|split]].
  - destruct Hcases as [[H E]|[[H1 H2] [x E]]]; rewrite E; split; auto; try discriminate.
    intros [H|H]; contradiction.
  - intros e He; destruct Hcases as [[_ E]|[_ [x E]]]; congruence.
  - intros Ht; destruct Hcases as [[_ E]|[[H1 H2] _]]; [exact E|].
    exfalso; apply H2, Hz; lia.
  - intros Hk; destruct Hcases as [[_ E]|[[H1 H2] _]]; [exact E|].
    exfalso; apply H1; rewrite binomial_binom by lia; apply binom_lt; lia.
Qed.

Lemma tdesign_params_zero_division_witness :
  tdesign_params 4 7 3 1 = Err ZeroDivisionError.
Proof.
  apply (proj2 (proj2 (proj2 (tdesign_params_zero_division 4 7 3 1)))); lia.
Defined.

(** ** The structure rebuilt from an orthogonal array *)

Lemma enumerate_from_fst {A : Type} (l : list A) (s : Z) :
  map fst (enumerate_from s l) = range2 s (s + len l).
Proof.
  revert s; induction l as [|x l IH]; intros s; simpl.
  - rewrite range2_nil; [reflexivity | unfold len; simpl; lia].
  - rewrite range2_cons by (unfold len; simpl; lia).
    rewrite IH; f_equal; f_equal; unfold len; simpl length; lia.
Qed.

Lemma enumerate_from_length {A : Type} (l : list A) (s : Z) :
  length (enumerate_from s l) = length l.
Proof. revert s; induction l; intros s; simpl; auto. Qed.

Lemma NoDup_map_in {A B : Type} (f : A -> B) (l : list A) :
  NoDup l -> (forall x y, In x l -> In y l -> f x = f y -> x = y) -> NoDup (map f l).
Proof.
  induction 1 as [|a l Ha Hnd IH]; intros Hinj; simpl; constructor.
  - intros Hin; apply in_map_iff in Hin; destruct Hin as [y [E Hy]].
    assert (y = a) by (apply Hinj; simpl; auto). subst; contradiction.
  - apply IH; intros x y Hx Hy; apply Hinj; simpl; auto.
Qed.

(** The block of a row of width [n + 1] on the symbols [0 .. n-1]. *)
Lemma transversal_block_shape (n : Z) (l : list Z) :
  0 <= n -> len l = n + 1 -> Forall (fun x => 0 <= x < n) l ->
  len (transversal_block n l) = n + 1
  /\ NoDup (transversal_block n l)
  /\ incl (transversal_block n l) (range (n ^ 2 + n + 1)).
Proof.
  intros Hn Hlen Hsym; unfold transversal_block, enumerate.
  assert (Hin : forall ij, In ij (enumerate_from 0 l) ->
                           0 <= fst ij <= n /\ 0 <= snd ij < n).
  { intros [i j] H; apply in_enumerate_from in H; destruct H as [k [Hi Hk]].
    assert (k < length l)%nat by (apply nth_error_Some; congruence).
    apply nth_error_In in Hk; rewrite Forall_forall in Hsym.
    simpl; unfold len in Hlen; split; [lia | apply Hsym; exact Hk]. }
  split; [|split].
  - unfold len; rewrite length_map, enumerate_from_length; exact Hlen.
  - apply NoDup_map_in.
    + apply (NoDup_map_inv fst); rewrite enumerate_from_fst; apply NoDup_range2.
    + intros [i j] [i' j'] H1 H2 E; simpl in E.
      destruct (Hin _ H1) as [Hi _]; destruct (Hin _ H2) as [Hi' _]; simpl in Hi, Hi'.
      destruct (affine_label_inj (n + 1) i j i' j') as [-> ->]; auto; lia.
  - intros p Hp; apply in_map_iff in Hp; destruct Hp as [[i j] [<- H]].
    destruct (Hin _ H) as [Hi Hj]; simpl in *; apply in_range; nia.
Qed.

Lemma group_block_shape (n i : Z) :
  0 <= n -> 0 <= i <= n ->
  len (group_block n i) = n + 1
  /\ NoDup (group_block n i)
  /\ incl (group_block n i) (range (n ^ 2 + n + 1)).
Proof.
  intros Hn Hi; unfold group_block; split; [|split].
  - rewrite len_app; unfold len; rewrite range2_length; simpl; nia.
  - apply NoDup_snoc; [apply NoDup_range2|].
    intros H; apply in_range2 in H; nia.
  - intros p Hp; apply in_range; apply in_app_or in Hp; destruct Hp as [Hp|[<-|[]]].
    + apply in_range2 in Hp; nia.
    + nia.
Qed.

Lemma nth_error_ForallOrdPairs {A : Type} (R : A -> A -> Prop) (l : list A) :
  (forall i j x y, i <> j -> nth_error l i = Some x -> nth_error l j = Some y -> R x y) ->
  ForallOrdPairs R l.
Proof.
  induction l as [|a l IH]; intros H; constructor.
  - apply Forall_forall; intros y Hy; apply In_nth_error in Hy; destruct Hy as [j Hj].
    apply (H O (S j)); auto.
  - apply IH; intros i j x y Hij Hi Hj; apply (H (S i) (S j)); auto.
Qed.

(** What is kept of a block list has the pairwise meeting property only if
    the block list had it. *)
Lemma plane_blocks_kept_back (fac : Facade) (n : Z) (pts : list Z) (blks : list (list Z)) :
  keeps_blocks fac ->
  plane_blocks n pts (store_blocks fac blks) ->
  ForallOrdPairs meet_in_one_point blks.
Proof.
  intros Hk [_ Hm]; destruct (Hk blks) as [bl [Hp H2]].
  apply nth_error_ForallOrdPairs in Hm.
  eapply ForallOrdPairs_Permutation;
    [apply meet_in_one_point_sym | apply Permutation_sym; exact Hp |].
  eapply ForallOrdPairs_Forall2; [|apply Forall2_flip; exact H2 | exact Hm].
  intros x y x' y' Hx Hy; apply meet_in_one_point_perm; apply Permutation_sym; assumption.
Qed.

Lemma is_OA_first_row (n : Z) (OA : list (list Z)) :
  1 <= n -> is_OA (n + 1) n OA ->
  exists row0 rest, OA = row0 :: rest /\ len row0 - 1 = n.
Proof.
  intros Hn (Hlen & HF & _).
  destruct OA as [|row0 rest]; [unfold len in Hlen; simpl in Hlen; nia|].
  exists row0, rest; split; [reflexivity|].
  inversion HF as [|? ? [H _] _]; subst; lia.
Qed.

Lemma rebuilt_structure_shape (fac : Facade) (n : Z) (OA : list (list Z)) :
  1 <= n -> is_OA (n + 1) n OA -> keeps_blocks fac ->
  exists D,
    OA_to_projective_plane fac OA false = Ok D
    /\ pnts D = range (n ^ 2 + n + 1)
    /\ len (pnts D) = n ^ 2 + n + 1
    /\ len (blcks D) = n ^ 2 + n + 1
    /\ Forall (fun b => len b = n + 1 /\ NoDup b /\ incl b (pnts D)) (blcks D).
Proof.
  intros Hn HOA Hk.
  destruct (is_OA_first_row n OA Hn HOA) as [row0 [rest [-> Hrow0]]].
  destruct HOA as (Hlen & HF & _).
  set (raw := map (transversal_block n) (row0 :: rest)
              ++ map (group_block n) (range (n + 1))).
  assert (E : OA_to_projective_plane fac (row0 :: rest) false
              = Ok (IncidenceStructure fac (range (n ^ 2 + n + 1)) raw)).
  { unfold OA_to_projective_plane; cbn [first bind].
    rewrite Hrow0, Hlen, Z.eqb_refl; reflexivity. }
  assert (Hraw : Forall (fun b => len b = n + 1 /\ NoDup b
                                  /\ incl b (range (n ^ 2 + n + 1))) raw).
  { unfold raw; apply Forall_app; split; apply Forall_forall; intros b Hb;
      apply in_map_iff in Hb; destruct Hb as [x [<- Hx]].
    - rewrite Forall_forall in HF; destruct (HF x Hx) as [H1 H2].
      apply transversal_block_shape; auto; lia.
    - apply in_range in Hx; apply group_block_shape; lia. }
  destruct (Hk raw) as [bl [Hp H2]].
  eexists; split; [exact E|]. cbn [pnts blcks IncidenceStructure].
  split; [reflexivity|]. split; [apply range_len; nia|]. split.
  - unfold len; rewrite <- (Forall2_length H2), <- (Permutation_length Hp).
    unfold raw; rewrite length_app, !length_map.
    unfold len in Hlen; unfold range; rewrite range2_length; lia.
  - assert (HF' : Forall (fun b => len b = n + 1 /\ NoDup b
                                   /\ incl b (range (n ^ 2 + n + 1))) bl)
      by (eapply Permutation_Forall; eassumption).
    clear - H2 HF'; induction H2 as [|b b' bl bl' Hb _ IH]; [constructor|].
    inversion HF' as [|? ? [Hl [Hnd Hin]] HF'']; subst; constructor; [|apply IH; exact HF''].
    split; [|split].
    + unfold len in *; rewrite <- (Permutation_length Hb); exact Hl.
    + eapply Permutation_NoDup; eassumption.
    + intros x Hx; apply Hin; eapply Permutation_in; [apply Permutation_sym|]; eassumption.
Qed.

Lemma rebuilt_structure_not_a_plane
    (fac : Facade) (n : Z) (OA : list (list Z)) (check : bool) (D : design) :
  2 <= n -> is_OA (n + 1) n OA -> keeps_blocks fac ->
  OA_to_projective_plane fac OA check = Ok D ->
  ~ plane_blocks n (pnts D) (blcks D) /\ ~ is_projective_plane n D.
Proof.
  intros Hn HOA Hk HD.
  assert (Hnot : ~ plane_blocks n (pnts D) (blcks D));
    [|split; [exact Hnot | intros (_ & _ & _ & _ & H & _); exact (Hnot H)]].
  destruct (is_OA_first_row n OA ltac:(lia) HOA) as [row0 [rest [-> Hrow0]]].
  destruct HOA as (Hlen & HF & Hort).
  set (raw := map (transversal_block n) (row0 :: rest)
              ++ map (group_block n) (range (n + 1))).
  assert (E : blcks D = store_blocks fac raw).
  { unfold OA_to_projective_plane in HD; cbn [first bind] in HD.
    rewrite Hrow0, Hlen, Z.eqb_refl in HD; cbn [assert bind] in HD.
    unfold BlockDesign in HD; fold raw in HD.
    destruct (negb check); [inversion HD; reflexivity|].
    destruct (block_design_checker fac _); inversion HD; reflexivity. }
  rewrite E; intros Hpl.
  apply (plane_blocks_kept_back fac n _ raw Hk) in Hpl.
  destruct (Hort 0 1 0 0 ltac:(lia) ltac:(lia) ltac:(lia) ltac:(lia) ltac:(lia))
    as [r [row (Hr & H0 & H1 & _)]].
  assert (Hrow : len row = n + 1).
  { rewrite Forall_forall in HF; apply (HF row (nth_error_In _ _ Hr)). }
  assert (Hr1 : nth_error raw r = Some (transversal_block n row)).
  { unfold raw; rewrite nth_error_app1
      by (rewrite length_map; apply nth_error_Some; congruence).
    rewrite nth_error_map, Hr; reflexivity. }
  assert (Hr2 : nth_error raw (length (row0 :: rest)) = Some (group_block n 0)).
  { unfold raw; rewrite nth_error_app2 by (rewrite length_map; lia).
    rewrite length_map, Nat.sub_diag.
    rewrite nth_error_map.
    change 0%nat with (Z.to_nat 0); rewrite nth_error_range by lia; reflexivity. }
  assert (Hne : r <> length (row0 :: rest)).
  { assert (r < length (row0 :: rest))%nat by (apply nth_error_Some; congruence). lia. }
  pose proof (ForallOrdPairs_nth_error _ _ meet_in_one_point_sym Hpl _ _ _ _ Hne Hr1 Hr2)
    as [p [_ [_ Hu]]].
  assert (Hmem : forall c, 0 <= c <= 1 -> nthZ row c = 0 ->
                           In c (transversal_block n row)).
  { intros c Hc Hz; unfold transversal_block; apply in_map_iff.
    exists (c, 0); split; [simpl; lia|].
    apply in_enumerate_from; exists (Z.to_nat c); split; [lia|].
    unfold nthZ in Hz; rewrite <- Hz.
    apply nth_error_nth'; unfold len in Hrow; lia. }
  assert (Hg : forall c, 0 <= c <= 1 -> In c (group_block n 0)).
  { intros c Hc; unfold group_block; apply in_or_app; left; apply in_range2; lia. }
  assert (E0 : 0 = p) by (apply Hu; [apply Hmem; auto; lia | apply Hg; lia]).
  assert (E1 : 1 = p) by (apply Hu; [apply Hmem; auto; lia | apply Hg; lia]).
  lia.
Qed.

(** X3: on an orthogonal array with [n + 1] columns on [n] symbols, and
    without the final test, [OA_to_projective_plane] returns a structure
    with [n^2+n+1] points and [n^2+n+1] blocks, each block made of [n + 1]
    distinct points of the structure. *)
Theorem OA_to_projective_plane_shape (fac : Facade) (n : Z) (OA : list (list Z)) :
  1 <= n -> is_OA (n + 1) n OA -> keeps_blocks fac ->
  exists D,
    OA_to_projective_plane fac OA false = Ok D
    /\ pnts D = range (n ^ 2 + n + 1)
    /\ len (pnts D) = n ^ 2 + n + 1
    /\ len (blcks D) = n ^ 2 + n + 1
    /\ Forall (fun b => len b = n + 1 /\ NoDup b /\ incl b (pnts D)) (blcks D).
Proof. apply rebuilt_structure_shape. Qed.

(** X4: for [n >= 2] the structure that [OA_to_projective_plane] builds
    from an orthogonal array with [n + 1] columns on [n] symbols is never a
    projective plane: the block of the row that has the symbol 0 in the
    columns 0 and 1 and the line [range(0, n) + [n^2+n]] are two blocks
    with the two common points 0 and 1. *)
Theorem OA_to_projective_plane_not_a_plane
    (fac : Facade) (n : Z) (OA : list (list Z)) (check : bool) (D : design) :
  2 <= n -> is_OA (n + 1) n OA -> keeps_blocks fac ->
  OA_to_projective_plane fac OA check = Ok D ->
  ~ plane_blocks n (pnts D) (blcks D) /\ ~ is_projective_plane n D.
Proof. apply rebuilt_structure_not_a_plane. Qed.

Lemma filter_single {A : Type} (f : A -> bool) (l : list A) :
  length (filter f l) = 1%nat ->
  exists r x, nth_error l r = Some x /\ f x = true
              /\ forall r' x', nth_error l r' = Some x' -> f x' = true -> r' = r.
Proof.
  induction l as [|a l IH]; simpl; [discriminate|].
  destruct (f a) eqn:Ha; simpl; intros H.
  - exists O, a; split; [reflexivity|]. split; [exact Ha|].
    intros [|r'] x' Hr' Hx'; [reflexivity|exfalso]; simpl in Hr'.
    assert (Hin : In x' (filter f l))
      by (apply filter_In; split; [eapply nth_error_In; exact Hr' | exact Hx']).
    destruct (filter f l); [contradiction | discriminate].
  - destruct (IH H) as [r [x (Hr & Hx & Hu)]].
    exists (S r), x; split; [exact Hr|]. split; [exact Hx|].
    intros [|r'] x' Hr' Hx'; simpl in Hr'.
    + inversion Hr'; subst; congruence.
    + f_equal; eapply Hu; eauto.
Qed.

Lemma OA_test_sound (k n : Z) (M : list (list Z)) :
  OA_test k n M = true -> is_OA k n M.
Proof.
  unfold OA_test, orthogonal_test; rewrite !andb_true_iff.
  intros [[[Hlen Hrows] Hort] Hsym].
  apply Z.eqb_eq in Hlen; rewrite forallb_forall in Hrows, Hort, Hsym.
  split; [exact Hlen|]. split.
  - apply Forall_forall; intros row Hrow; split; [apply Z.eqb_eq, Hrows, Hrow|].
    specialize (Hsym row Hrow); rewrite forallb_forall in Hsym.
    apply Forall_forall; intros x Hx; specialize (Hsym x Hx).
    apply andb_true_iff in Hsym; destruct Hsym as [H1 H2].
    apply Z.leb_le in H1; apply Z.ltb_lt in H2; lia.
  - intros c1 c2 a b Hc1 Hc2 Hne Ha Hb.
    specialize (Hort c1 (proj2 (in_range k c1) Hc1)).
    rewrite forallb_forall in Hort.
    specialize (Hort c2 (proj2 (in_range k c2) Hc2)).
    apply orb_true_iff in Hort; destruct Hort as [H|Hort]; [apply Z.eqb_eq in H; lia|].
    rewrite forallb_forall in Hort; specialize (Hort a (proj2 (in_range n a) Ha)).
    rewrite forallb_forall in Hort; specialize (Hort b (proj2 (in_range n b) Hb)).
    apply Z.eqb_eq in Hort; unfold len in Hort.
    assert (Hone : length (filter (fun l => (nthZ l c1 =? a) && (nthZ l c2 =? b)) M) = 1%nat)
      by lia.
    destruct (filter_single _ M Hone) as [r [row (Hr & Hf & Hu)]].
    apply andb_true_iff in Hf; destruct Hf as [H1 H2].
    apply Z.eqb_eq in H1, H2.
    exists r, row; repeat split; auto.
    intros r' row' Hr' H1' H2'; apply (Hu r' row' Hr').
    rewrite H1', H2', !Z.eqb_refl; reflexivity.
Qed.

Lemma OA_to_projective_plane_shape_witness :
  exists D,
    OA_to_projective_plane (sorting_facade regular_checker)
      [[0; 0; 0]; [0; 1; 1]; [1; 0; 1]; [1; 1; 0]] false = Ok D
    /\ pnts D = range (2 ^ 2 + 2 + 1)
    /\ len (pnts D) = 2 ^ 2 + 2 + 1
    /\ len (blcks D) = 2 ^ 2 + 2 + 1
    /\ Forall (fun b => len b = 2 + 1 /\ NoDup b /\ incl b (pnts D)) (blcks D).
Proof.
  apply (OA_to_projective_plane_shape (sorting_facade regular_checker) 2).
  - lia.
  - apply OA_test_sound; vm_compute; reflexivity.
  - apply sorting_facade_keeps_blocks.
Defined.

Lemma OA_to_projective_plane_not_a_plane_witness :
  let D := {| pnts := [0; 1; 2; 3; 4; 5; 6];
              blcks := [[0; 1; 2]; [0; 1; 6]; [0; 4; 5]; [1; 3; 5];
                        [2; 3; 4]; [2; 3; 6]; [4; 5; 6]] |} in
  ~ plane_blocks 2 (pnts D) (blcks D) /\ ~ is_projective_plane 2 D.
Proof.
  apply (OA_to_projective_plane_not_a_plane (sorting_facade regular_checker) 2
           [[0; 0; 0]; [0; 1; 1]; [1; 0; 1]; [1; 1; 0]] true).
  - lia.
  - apply OA_test_sound; vm_compute; reflexivity.
  - apply sorting_facade_keeps_blocks.
  - vm_compute; reflexivity.
Defined.

(** ** Two points of the Desarguesian plane lie on a line *)

Section FieldLines.
Variable K : FieldObj.
Variables (zero one : carrier K) (opp inv : carrier K -> carrier K).
Hypothesis laws : field_laws K zero one opp inv.

Local Notation "x + y" := (fadd K x y).
Local Notation "x * y" := (fmul K x y).
Local Notation "x - y" := (fadd K x (opp y)).

Add Ring field_lines_ring : (field_ring_theory K zero one opp inv laws).

(** The line of slope [s] through the point [(x, y)]. *)
Lemma line_of_slope (s x y : carrier K) : exists a, s * y + a = x.
Proof. exists (x - s * y); ring. Qed.

(** The line through two points of different ordinates. *)
Lemma line_through (x1 y1 x2 y2 : carrier K) :
  y1 <> y2 -> exists s a, s * y1 + a = x1 /\ s * y2 + a = x2.
Proof.
  intros Hne.
  destruct laws as (_ & _ & _ & _ & _ & _ & _ & _ & Hinv & _).
  pose proof (Hinv _ (fsub_nonzero K zero one opp inv laws y1 y2 Hne)) as Hd.
  exists ((x1 - x2) * inv (y1 - y2)), (x1 - ((x1 - x2) * inv (y1 - y2)) * y1).
  split; [ring|].
  replace ((x1 - x2) * inv (y1 - y2) * y2 + (x1 - (x1 - x2) * inv (y1 - y2) * y1))
    with (x1 - (x1 - x2) * ((y1 - y2) * inv (y1 - y2))) by ring.
  rewrite Hd; ring.
Qed.
End FieldLines.

Lemma position_nth_error {A : Type} (eqb : A -> A -> bool) (l : list A) (i : nat) (x : A) :
  (forall a b, eqb a b = true <-> a = b) ->
  NoDup l -> nth_error l i = Some x -> position eqb x l = Z.of_nat i.
Proof.
  intros Heqb Hnd; revert i; induction Hnd as [|a l Ha Hnd IH]; intros i Hi.
  - destruct i; discriminate.
  - destruct i as [|i]; simpl in Hi; cbn [position].
    + inversion Hi; subst; rewrite (proj2 (Heqb x x) eq_refl); reflexivity.
    + destruct (eqb a x) eqn:E.
      * apply Heqb in E; subst; exfalso; apply Ha; eapply nth_error_In; exact Hi.
      * rewrite (IH i Hi); lia.
Qed.

Lemma Forall2_In_l {A B : Type} (R : A -> B -> Prop) (l1 : list A) (l2 : list B) (x : A) :
  Forall2 R l1 l2 -> In x l1 -> exists y, In y l2 /\ R x y.
Proof.
  induction 1 as [|a b l1 l2 Hab _ IH]; simpl; intros Hx; [contradiction|].
  destruct Hx as [<-|Hx].
  - exists b; auto.
  - destruct (IH Hx) as [y [Hy Hr]]; exists y; auto.
Qed.

Section DesarguesianTwoDesign.
Variable K : FieldObj.
Variable n : Z.
Hypothesis Hff : is_finite_field K n.

Local Notation "'pos' x" := (position (feqb K) x (elements K)) (at level 9, x at level 9).

Lemma pos_onto (i : Z) : 0 <= i < n -> exists x : carrier K, pos x = i.
Proof.
  intros Hi; destruct Hff as (Hord & Hnd & _).
  unfold order, len in Hord.
  destruct (nth_error (elements K) (Z.to_nat i)) as [x|] eqn:E;
    [|apply nth_error_None in E; lia].
  exists x; rewrite (position_nth_error _ _ _ _ (ff_eqb K n Hff) Hnd E); lia.
Qed.

(** Every label is an affine point, a point at infinity of a slope, or the
    last point. *)
Lemma label_cases (p : Z) :
  0 <= p <= n ^ 2 + n ->
  (exists x y : carrier K, p = pos x + n * pos y)
  \/ (exists s : carrier K, p = n ^ 2 + pos s)
  \/ p = n ^ 2 + n.
Proof.
  intros Hp; pose proof (order_ge_2 K n Hff) as Hn.
  destruct (Z_lt_ge_dec p (n ^ 2)) as [Hlt|Hge].
  - left.
    destruct (pos_onto (p mod n)) as [x Hx]; [apply Z.mod_pos_bound; lia|].
    destruct (pos_onto (p / n)) as [y Hy].
    { split; [apply Z.div_pos; lia | apply Z.div_lt_upper_bound; nia]. }
    exists x, y; rewrite Hx, Hy.
    pose proof (Z.div_mod p n ltac:(lia)); lia.
  - destruct (Z.eq_dec p (n ^ 2 + n)) as [->|Hne]; [right; right; reflexivity|].
    right; left; destruct (pos_onto (p - n ^ 2)) as [s Hs]; [lia|].
    exists s; lia.
Qed.

Lemma in_desarguesian_slope (s a : carrier K) :
  In (slope_points K n s a)
     (map (fun sa => slope_points K n (fst sa) (snd sa))
          (list_prod (dict_iter K) (dict_iter K))
      ++ map (horizontal_points K n) (dict_iter K) ++ [infinity_line n]).
Proof.
  apply in_or_app; left; apply in_map_iff; exists (s, a); split; [reflexivity|].
  apply in_prod; apply (in_dict_iter K n Hff).
Qed.

Lemma in_desarguesian_horizontal (a : carrier K) :
  In (horizontal_points K n a)
     (map (fun sa => slope_points K n (fst sa) (snd sa))
          (list_prod (dict_iter K) (dict_iter K))
      ++ map (horizontal_points K n) (dict_iter K) ++ [infinity_line n]).
Proof.
  apply in_or_app; right; apply in_or_app; left.
  apply in_map; apply (in_dict_iter K n Hff).
Qed.

Lemma in_desarguesian_infinity :
  In (infinity_line n)
     (map (fun sa => slope_points K n (fst sa) (snd sa))
          (list_prod (dict_iter K) (dict_iter K))
      ++ map (horizontal_points K n) (dict_iter K) ++ [infinity_line n]).
Proof. apply in_or_app; right; apply in_or_app; right; simpl; auto. Qed.

(** Two different points lie on one of the lines. *)
Lemma desarguesian_two_points (p q : Z) :
  0 <= p <= n ^ 2 + n -> 0 <= q <= n ^ 2 + n -> p <> q ->
  exists b,
    In b (map (fun sa => slope_points K n (fst sa) (snd sa))
              (list_prod (dict_iter K) (dict_iter K))
          ++ map (horizontal_points K n) (dict_iter K) ++ [infinity_line n])
    /\ In p b /\ In q b.
Proof.
  intros Hp Hq Hne.
  assert (Hff' := Hff).
  destruct Hff' as (_ & _ & _ & _ & _ & _ & zero & one & opp & inv & laws).
  pose proof (order_ge_2 K n Hff) as Hn.
  assert (Haff : forall x1 y1 x2 y2 : carrier K,
             pos x1 + n * pos y1 <> pos x2 + n * pos y2 ->
             exists b, In b (map (fun sa => slope_points K n (fst sa) (snd sa))
                                 (list_prod (dict_iter K) (dict_iter K))
                             ++ map (horizontal_points K n) (dict_iter K)
                             ++ [infinity_line n])
                       /\ In (pos x1 + n * pos y1) b /\ In (pos x2 + n * pos y2) b).
  { intros x1 y1 x2 y2 Hd.
    destruct (ff_eq_dec K n Hff y1 y2) as [<-|Hy].
    - exists (horizontal_points K n y1); split; [apply in_desarguesian_horizontal|].
      split; apply (in_horizontal_points K n Hff); left; eexists; reflexivity.
    - destruct (line_through K zero one opp inv laws x1 y1 x2 y2 Hy) as [s [a [E1 E2]]].
      exists (slope_points K n s a); split; [apply in_desarguesian_slope|].
      split; apply (in_slope_points K n Hff); left;
        [exists y1; rewrite E1 | exists y2; rewrite E2]; reflexivity. }
  assert (Hinf : forall (x y s : carrier K),
             exists b, In b (map (fun sa => slope_points K n (fst sa) (snd sa))
                                 (list_prod (dict_iter K) (dict_iter K))
                             ++ map (horizontal_points K n) (dict_iter K)
                             ++ [infinity_line n])
                       /\ In (pos x + n * pos y) b /\ In (n ^ 2 + pos s) b).
  { intros x y s.
    destruct (line_of_slope K zero one opp inv laws s x y) as [a Ea].
    exists (slope_points K n s a); split; [apply in_desarguesian_slope|].
    split; apply (in_slope_points K n Hff);
      [left; exists y; rewrite Ea; reflexivity | right; reflexivity]. }
  assert (Hlast : forall (x y : carrier K),
             exists b, In b (map (fun sa => slope_points K n (fst sa) (snd sa))
                                 (list_prod (dict_iter K) (dict_iter K))
                             ++ map (horizontal_points K n) (dict_iter K)
                             ++ [infinity_line n])
                       /\ In (pos x + n * pos y) b /\ In (n ^ 2 + n) b).
  { intros x y; exists (horizontal_points K n y).
    split; [apply in_desarguesian_horizontal|].
    split; apply (in_horizontal_points K n Hff);
      [left; exists x; reflexivity | right; reflexivity]. }
  assert (Hii : n ^ 2 <= p -> n ^ 2 <= q ->
             exists b, In b (map (fun sa => slope_points K n (fst sa) (snd sa))
                                 (list_prod (dict_iter K) (dict_iter K))
                             ++ map (horizontal_points K n) (dict_iter K)
                             ++ [infinity_line n])
                       /\ In p b /\ In q b).
  { intros H1 H2; exists (infinity_line n); split; [apply in_desarguesian_infinity|].
    split; apply (in_infinity_line n); lia. }
  destruct (label_cases p Hp) as [[x1 [y1 Ep]]|[[s1 Ep]|Ep]];
    destruct (label_cases q Hq) as [[x2 [y2 Eq]]|[[s2 Eq]|Eq]]; subst p q.
  - apply Haff; exact Hne.
  - apply Hinf.
  - apply Hlast.
  - destruct (Hinf x2 y2 s1) as [b [Hb [H1 H2]]]; exists b; auto.
  - apply Hii; pose proof (pos_bound K n Hff s1); pose proof (pos_bound K n Hff s2); lia.
  - apply Hii; pose proof (pos_bound K n Hff s1); lia.
  - destruct (Hlast x2 y2) as [b [Hb [H1 H2]]]; exists b; auto.
  - apply Hii; pose proof (pos_bound K n Hff s2); lia.
  - contradiction.
Qed.

End DesarguesianTwoDesign.

Lemma desarguesian_design_is_plane
    (FF : Z -> option FieldObj) (fac : Facade) (n : Z) (K : FieldObj)
    (check : bool) (D : design) :
  FF n = Some K -> is_finite_field K n -> keeps_blocks fac ->
  DesarguesianProjectivePlaneDesign FF fac n check = Ok D ->
  pnts D = range (n ^ 2 + n + 1) /\ is_projective_plane n D.
Proof.
  intros HFF Hff Hk HD.
  destruct (desarguesian_blocks_plane K n Hff) as (Hb & Hl & Hh & HF & Hm).
  set (raw := map (fun sa => slope_points K n (fst sa) (snd sa))
                  (list_prod (dict_iter K) (dict_iter K))
              ++ map (horizontal_points K n) (dict_iter K) ++ [infinity_line n]) in *.
  pose proof (order_ge_2 K n Hff) as Hn.
  assert (E : D = IncidenceStructure fac (range (n ^ 2 + n + 1)) raw).
  { unfold DesarguesianProjectivePlaneDesign in HD; rewrite HFF, Hb in HD.
    cbn [bind] in HD; unfold BlockDesign in HD.
    destruct (negb check); [inversion HD; reflexivity|].
    destruct (block_design_checker fac _); inversion HD; reflexivity. }
  subst D; cbn [pnts blcks IncidenceStructure].
  destruct (plane_blocks_kept fac n (range (n ^ 2 + n + 1)) raw Hk HF Hm) as [Hlen Hpl].
  split; [reflexivity|].
  split; [exact Hn|]. split; [apply NoDup_range2|].
  split; [apply range_len; nia|]. split.
  { unfold IncidenceStructure; cbn [blcks].
    rewrite Hlen; unfold raw; rewrite !len_app, Hl, Hh; unfold len; simpl; lia. }
  unfold IncidenceStructure; cbn [blcks pnts].
  split; [exact Hpl|].
  intros p q Hp Hq Hne; apply in_range in Hp, Hq.
  destruct (desarguesian_two_points K n Hff p q ltac:(lia) ltac:(lia) Hne)
    as [b [Hb' [Hpb Hqb]]].
  fold raw in Hb'.
  destruct (Hk raw) as [bl [Hperm H2]].
  apply (Permutation_in _ Hperm) in Hb'.
  destruct (Forall2_In_l _ _ _ b H2 Hb') as [b' [Hb'' Hbb]].
  exists b'; split; [exact Hb''|].
  split; eapply Permutation_in; eassumption.
Qed.

Lemma plane_to_OA_is_OA
    (is_orthogonal_array : list (list Z) -> Z -> Z -> Z -> bool)
    (n : Z) (D : design) (pt : option Z) (check : bool) :
  is_projective_plane n D ->
  In (match pt with None => n ^ 2 + n | Some p => p end) (pnts D) ->
  exists OA,
    projective_plane_to_OA is_orthogonal_array D pt check = Ok OA
    /\ is_OA (n + 1) n OA.
Proof.
  intros Hplane Hpt.
  set (p := match pt with None => n ^ 2 + n | Some p0 => p0 end) in *.
  rewrite projective_plane_to_OA_unfold.
  assert (Hplane' := Hplane).
  destruct Hplane' as (Hn & _ & _ & Hnb & [HF _] & _).
  destruct (blcks D) as [|b0 bs] eqn:HB.
  { unfold len in Hnb; simpl in Hnb; nia. }
  assert (Hb0 : len b0 - 1 = n).
  { inversion HF as [|? ? [Hl _] _]; subst; lia. }
  cbn [first bind]; rewrite Hb0, Hnb, Z.eqb_refl; cbn [assert bind].
  fold p.
  destruct (pencil_loop_filter n p (b0 :: bs)) with (L := @nil (list Z)) (OA := @nil (list Z))
    as [Ls [Hloop HLs]].
  { eapply Forall_impl; [|exact HF]. intros b (H1 & H2 & _); auto. }
  rewrite Hloop; cbn [bind fst snd app].
  rewrite <- HB in HLs |- *.
  apply (removed_is_pencil_line n D p Hplane) in HLs.
  rewrite (pencil_length n D p Hplane Hpt Ls HLs), Z.eqb_refl; cbn [assert bind].
  apply (rows_form_OA n D p Hplane Hpt Ls HLs).
Qed.

(** X5: the design that [DesarguesianProjectivePlaneDesign] returns for a
    field of order [n] is a 2-design with one block through two points: on
    its points [0 .. n^2+n], any two different points lie on a common
    block, besides two blocks meeting in exactly one point. *)
Theorem DesarguesianProjectivePlaneDesign_two_design
    (FF : Z -> option FieldObj) (fac : Facade) (n : Z) (K : FieldObj)
    (check : bool) (D : design) :
  FF n = Some K -> is_finite_field K n -> keeps_blocks fac ->
  DesarguesianProjectivePlaneDesign FF fac n check = Ok D ->
  pnts D = range (n ^ 2 + n + 1) /\ is_projective_plane n D.
Proof. apply desarguesian_design_is_plane. Qed.

Lemma DesarguesianProjectivePlaneDesign_two_design_witness :
  exists D,
    DesarguesianProjectivePlaneDesign small_fields (sorting_facade regular_checker) 4 false
    = Ok D
    /\ pnts D = range (4 ^ 2 + 4 + 1) /\ is_projective_plane 4 D.
Proof.
  eexists; split; [vm_compute; reflexivity|].
  apply (DesarguesianProjectivePlaneDesign_two_design small_fields
           (sorting_facade regular_checker) 4 GF4 false _ eq_refl
           GF4_is_finite_field (sorting_facade_keeps_blocks regular_checker)).
  vm_compute; reflexivity.
Defined.

(** X6: for a field of order [n] and any point [pt] in [0 .. n^2+n] (or
    none), [projective_plane_to_OA] applied to the design returned by
    [DesarguesianProjectivePlaneDesign] returns an orthogonal array with
    [n + 1] columns on [n] symbols. *)
Theorem projective_plane_to_OA_of_Desarguesian
    (is_orthogonal_array : list (list Z) -> Z -> Z -> Z -> bool)
    (FF : Z -> option FieldObj) (fac : Facade) (n : Z) (K : FieldObj)
    (check check' : bool) (D : design) (pt : option Z) :
  FF n = Some K -> is_finite_field K n -> keeps_blocks fac ->
  DesarguesianProjectivePlaneDesign FF fac n check = Ok D ->
  (forall p, pt = Some p -> 0 <= p <= n ^ 2 + n) ->
  exists OA,
    projective_plane_to_OA is_orthogonal_array D pt check' = Ok OA
    /\ is_OA (n + 1) n OA.
Proof.
  intros HFF Hff Hk HD Hpt.
  destruct (desarguesian_design_is_plane FF fac n K check D HFF Hff Hk HD) as [Hp Hpl].
  apply plane_to_OA_is_OA; [exact Hpl|].
  rewrite Hp; apply in_range.
  pose proof (order_ge_2 K n Hff).
  destruct pt as [p|]; [specialize (Hpt p eq_refl); lia | nia].
Qed.

Lemma projective_plane_to_OA_of_Desarguesian_witness :
  exists D OA,
    DesarguesianProjectivePlaneDesign small_fields (sorting_facade regular_checker) 3 true
    = Ok D
    /\ projective_plane_to_OA orthogonal_test D (Some 5) true = Ok OA
    /\ is_OA (3 + 1) 3 OA.
Proof.
  eexists.
  assert (HD : DesarguesianProjectivePlaneDesign small_fields
                 (sorting_facade regular_checker) 3 true = Ok ?[D])
    by (vm_compute; reflexivity).
  destruct (projective_plane_to_OA_of_Desarguesian orthogonal_test small_fields
              (sorting_facade regular_checker) 3 GF3 true true _ (Some 5) eq_refl
              GF3_is_finite_field (sorting_facade_keeps_blocks regular_checker) HD)
    as [OA [H1 H2]].
  { intros p Hp; inversion Hp; subst; lia. }
  exists OA; split; [exact HD | split; [exact H1 | exact H2]].
Defined.

(** X7: the round trip on any projective plane of order [n]:
    [projective_plane_to_OA] returns an array on which
    [OA_to_projective_plane], without the final test, returns a structure
    with as many points and as many blocks as the plane, every block with
    [n + 1] distinct points, and that structure is not a projective plane. *)
Theorem roundtrip_keeps_counts_not_plane
    (is_orthogonal_array : list (list Z) -> Z -> Z -> Z -> bool)
    (fac : Facade) (n : Z) (D : design) (pt : option Z) (check : bool) :
  is_projective_plane n D ->
  In (match pt with None => n ^ 2 + n | Some p => p end) (pnts D) ->
  keeps_blocks fac ->
  exists OA D',
    projective_plane_to_OA is_orthogonal_array D pt check = Ok OA
    /\ OA_to_projective_plane fac OA false = Ok D'
    /\ len (pnts D') = len (pnts D)
    /\ len (blcks D') = len (blcks D)
    /\ Forall (fun b => len b = n + 1 /\ NoDup b /\ incl b (pnts D')) (blcks D')
    /\ ~ is_projective_plane n D'.
Proof.
  intros Hpl Hpt Hk.
  destruct (plane_to_OA_is_OA is_orthogonal_array n D pt check Hpl Hpt) as [OA [HOA His]].
  assert (Hpl' := Hpl); destruct Hpl' as (Hn & _ & Hlp & Hlb & _).
  destruct (rebuilt_structure_shape fac n OA ltac:(lia) His Hk)
    as [D' (HD' & _ & Hp' & Hb' & HF')].
  exists OA, D'; split; [exact HOA|]. split; [exact HD'|].
  split; [lia|]. split; [lia|]. split; [exact HF'|].
  apply (rebuilt_structure_not_a_plane fac n OA false D' Hn His Hk HD').
Qed.

Lemma roundtrip_keeps_counts_not_plane_witness :
  let D := {| pnts := range 7;
              blcks := [[0; 1; 6]; [0; 2; 4]; [0; 3; 5]; [1; 2; 5];
                        [1; 3; 4]; [2; 3; 6]; [4; 5; 6]] |} in
  exists OA D',
    projective_plane_to_OA orthogonal_test D None true = Ok OA
    /\ OA_to_projective_plane (sorting_facade regular_checker) OA false = Ok D'
    /\ len (pnts D') = len (pnts D)
    /\ len (blcks D') = len (blcks D)
    /\ Forall (fun b => len b = 2 + 1 /\ NoDup b /\ incl b (pnts D')) (blcks D')
    /\ ~ is_projective_plane 2 D'.
Proof.
  apply (roundtrip_keeps_counts_not_plane orthogonal_test
           (sorting_facade regular_checker) 2).
  - apply plane_test_sound; vm_compute; reflexivity.
  - vm_compute; tauto.
  - apply sorting_facade_keeps_blocks.
Defined.

(** ** Malformed input of [projective_plane_to_OA] *)

Lemma list_remove_mem (pt : Z) (b : list Z) :
  mem pt b = true -> exists b', list_remove pt b = Ok b' /\ length b = S (length b').
Proof.
  induction b as [|y b IH]; simpl; [discriminate|].
  rewrite (Z.eqb_sym pt y).
  destruct (y =? pt) eqn:E; simpl; intros H.
  - exists b; auto.
  - destruct (IH H) as [b' [Hb' Hl]]; rewrite Hb'; exists (y :: b'); simpl; auto.
Qed.

(** The loop raises nothing but [AssertionError]: the removal is guarded by
    the membership test. *)
Lemma pencil_loop_only_asserts (n pt : Z) (blks L OA : list (list Z)) (e : error) :
  pencil_loop n pt blks L OA = Err e -> e = AssertionError.
Proof.
  revert L OA; induction blks as [|b blks IH]; intros L OA; simpl; [discriminate|].
  destruct (len b =? n + 1); cbn [assert bind]; [|congruence].
  destruct (mem pt b) eqn:Hm; [|apply IH].
  destruct (list_remove_mem pt b Hm) as [b' [Hb' _]]; rewrite Hb'; cbn [bind]; apply IH.
Qed.

Lemma pencil_loop_bad_block (n pt : Z) (blks L OA : list (list Z)) :
  Exists (fun b => len b <> n + 1) blks ->
  pencil_loop n pt blks L OA = Err AssertionError.
Proof.
  intros H; revert L OA; induction H as [b blks Hb|b blks _ IH]; intros L OA; simpl.
  - destruct (Z.eqb_spec (len b) (n + 1)); [contradiction | reflexivity].
  - destruct (len b =? n + 1); cbn [assert bind]; [|reflexivity].
    destruct (mem pt b) eqn:Hm; [|apply IH].
    destruct (list_remove_mem pt b Hm) as [b' [Hb' _]]; rewrite Hb'; cbn [bind]; apply IH.
Qed.

Lemma pencil_loop_sizes (n pt : Z) (blks : list (list Z)) :
  Forall (fun b => len b = n + 1) blks ->
  forall L OA, exists Ls,
    pencil_loop n pt blks L OA
    = Ok (L ++ Ls, OA ++ filter (fun b => negb (mem pt b)) blks)
    /\ length Ls = length (filter (mem pt) blks)
    /\ Forall (fun l => len l = n) Ls.
Proof.
  induction 1 as [|b blks Hlen _ IH]; intros L OA.
  - exists []; simpl; rewrite !app_nil_r; auto.
  - cbn [pencil_loop filter]; rewrite Hlen, Z.eqb_refl; cbn [assert bind].
    destruct (mem pt b) eqn:Hm; cbn [negb].
    + destruct (list_remove_mem pt b Hm) as [b' [Hb' Hl]]; rewrite Hb'; cbn [bind].
      destruct (IH (L ++ [b']) OA) as [Ls [E [HL HF]]].
      exists (b' :: Ls); rewrite E, <- app_assoc; split; [reflexivity|].
      split; [simpl; lia|].
      constructor; [unfold len in *; lia | exact HF].
    + destruct (IH L (OA ++ [b])) as [Ls [E [HL HF]]].
      exists Ls; rewrite E, <- app_assoc; auto.
Qed.

(** X8: the failures of [projective_plane_to_OA].  With [n + 1] the size
    of the first block: an empty block list raises [IndexError]; a number of
    blocks other than [n^2+n+1], a block of another size, or a number of
    blocks through [pt] other than [n + 1] raise [AssertionError]; past the
    assertions only a point that lies on no block through [pt] can make the
    call fail, with [KeyError]; the removal of [pt] never raises. *)
Theorem projective_plane_to_OA_failures
    (is_orthogonal_array : list (list Z) -> Z -> Z -> Z -> bool)
    (D : design) (pt : option Z) (check : bool) :
  let n := match blcks D with b0 :: _ => len b0 - 1 | [] => 0 end in
  let p := match pt with None => n ^ 2 + n | Some p0 => p0 end in
  let call := projective_plane_to_OA is_orthogonal_array D pt check in
  (blcks D = [] -> call = Err IndexError)
  /\ (blcks D <> [] -> len (blcks D) <> n ^ 2 + n + 1 -> call = Err AssertionError)
  /\ (len (blcks D) = n ^ 2 + n + 1 ->
      Exists (fun b => len b <> n + 1) (blcks D) -> call = Err AssertionError)
  /\ (blcks D <> [] -> len (filter (mem p) (blcks D)) <> n + 1 ->
      call = Err AssertionError)
  /\ (forall e, call = Err e -> e = IndexError \/ e = AssertionError \/ e = KeyError)
  /\ (forall e, call = Err e ->
      blcks D <> [] -> len (blcks D) = n ^ 2 + n + 1 ->
      Forall (fun b => len b = n + 1) (blcks D) ->
      len (filter (mem p) (blcks D)) = n + 1 ->
      e = KeyError).
Proof.
  intros n p call; unfold call; rewrite projective_plane_to_OA_unfold.
  destruct (blcks D) as [|b0 bs] eqn:HB.
  { cbn [first bind].
    split; [reflexivity|]. split; [congruence|].
    split; [intros _ H; inversion H|]. split; [congruence|].
    split; [intros e H; inversion H; auto | congruence]. }
  cbn [first bind]; fold n; fold p.
  split; [discriminate|]. split.
  { intros _ Hne; destruct (Z.eqb_spec (len (b0 :: bs)) (n ^ 2 + n + 1));
      [contradiction | reflexivity]. }
  split.
  { intros Hlen Hex; rewrite Hlen, Z.eqb_refl; cbn [assert bind].
    rewrite (pencil_loop_bad_block n p (b0 :: bs) [] [] Hex); reflexivity. }
  split.
  { intros _ Hne.
    destruct (len (b0 :: bs) =? n ^ 2 + n + 1); cbn [assert bind]; [|reflexivity].
    destruct (pencil_loop n p (b0 :: bs) [] []) as [[L OA]|e] eqn:Hloop; cbn [bind].
    - destruct (Forall_Exists_dec (fun b => len b = n + 1)
                  (fun b => Z.eq_dec (len b) (n + 1)) (b0 :: bs)) as [HF|HE].
      + destruct (pencil_loop_sizes n p (b0 :: bs) HF [] []) as [Ls [E [HL _]]].
        rewrite E in Hloop; inversion Hloop; subst; cbn [fst].
        unfold len in *; rewrite HL.
        destruct (Z.eqb_spec (Z.of_nat (length (filter (mem p) (b0 :: bs)))) (n + 1));
          [contradiction | reflexivity].
      + rewrite (pencil_loop_bad_block n p (b0 :: bs) [] [] HE) in Hloop; discriminate.
    - apply pencil_loop_only_asserts in Hloop; subst; reflexivity. }
  split.
  { intros e.
    destruct (len (b0 :: bs) =? n ^ 2 + n + 1); cbn [assert bind];
      [|intros H; inversion H; auto].
    destruct (pencil_loop n p (b0 :: bs) [] []) as [LOA|e1] eqn:Hloop; cbn [bind].
    - destruct (len (fst LOA) =? n + 1); cbn [assert bind]; [|intros H; inversion H; auto].
      intros H; destruct (mapM_Err _ _ _ H) as [l [_ Hl]].
      apply OA_row_Err in Hl; auto.
    - intros H; inversion H; subst.
      apply pencil_loop_only_asserts in Hloop; auto. }
  intros e He _ Hlen HF Hpen.
  rewrite Hlen, Z.eqb_refl in He; cbn [assert bind] in He.
  destruct (pencil_loop_sizes n p (b0 :: bs) HF [] []) as [Ls [E [HL _]]].
  rewrite E in He; cbn [bind fst snd app] in He.
  unfold len in Hpen; rewrite <- HL in Hpen; fold (len Ls) in Hpen.
  rewrite Hpen, Z.eqb_refl in He; cbn [assert bind] in He.
  destruct (mapM_Err _ _ _ He) as [l [_ Hl]].
  apply OA_row_Err in Hl; exact Hl.
Qed.

Lemma projective_plane_to_OA_failures_witness :
  projective_plane_to_OA orthogonal_test
    {| pnts := range 7;
       blcks := [[0; 1; 6]; [0; 2; 4]; [0; 3; 5]; [1; 2; 5]; [1; 3; 4]; [2; 3]; [4; 5; 6]] |}
    None true = Err AssertionError.
Proof.
  apply (proj1 (proj2 (proj2 (projective_plane_to_OA_failures orthogonal_test
           {| pnts := range 7;
              blcks := [[0; 1; 6]; [0; 2; 4]; [0; 3; 5]; [1; 2; 5];
                        [1; 3; 4]; [2; 3]; [4; 5; 6]] |} None true)))).
  - reflexivity.
  - apply Exists_exists; exists [2; 3]; split; [simpl; tauto | discriminate].
Defined.

(** ** The designs taken from GAP *)

Lemma shifted_blocks_in_range (v : Z) (gblcks : list (list Z)) :
  Forall (Forall (fun x => 1 <= x <= v)) gblcks ->
  Forall (fun b => incl b (range v)) (map (map (fun x => x - 1)) gblcks).
Proof.
  intros H; apply Forall_forall; intros b Hb.
  apply in_map_iff in Hb; destruct Hb as [g [<- Hg]].
  rewrite Forall_forall in H; specialize (H g Hg); rewrite Forall_forall in H.
  intros x Hx; apply in_map_iff in Hx; destruct Hx as [y [<- Hy]].
  apply in_range; specialize (H y Hy); lia.
Qed.

Lemma BlockDesign_zero_based (fac : Facade) (v : Z) (gblcks : list (list Z)) (D : design) :
  keeps_blocks fac ->
  Forall (Forall (fun x => 1 <= x <= v)) gblcks ->
  BlockDesign fac v (map (map (fun x => x - 1)) gblcks) true = Ok D ->
  pnts D = range v
  /\ len (blcks D) = len gblcks
  /\ Forall (fun b => incl b (pnts D)) (blcks D)
  /\ same_blocks (map (map (fun x => x - 1)) gblcks) (blcks D).
Proof.
  intros Hk Hg HD; unfold BlockDesign in HD; cbn [negb] in HD.
  destruct (block_design_checker fac _); [|discriminate].
  inversion HD; subst D; clear HD; cbn [pnts blcks IncidenceStructure].
  destruct (Hk (map (map (fun x => x - 1)) gblcks)) as [bl [Hp H2]].
  split; [reflexivity|]. split; [|split].
  - unfold len; rewrite <- (Forall2_length H2), <- (Permutation_length Hp), length_map.
    reflexivity.
  - pose proof (shifted_blocks_in_range v gblcks Hg) as HF.
    apply (Permutation_Forall Hp) in HF.
    clear - H2 HF; induction H2 as [|b b' bl bl' Hb _ IH]; [constructor|].
    inversion HF; subst; constructor; [|apply IH; assumption].
    intros x Hx; apply H1; eapply Permutation_in; [apply Permutation_sym|]; eassumption.
  - exists bl; auto.
Qed.

(** X9: the three constructors that take their blocks from GAP
    ([WittDesign], [AffineGeometryDesign], and [ProjectiveGeometryDesign]
    with [algorithm="gap"]) turn GAP's labels, counted from one, into labels
    counted from zero: when GAP's blocks lie in [1 .. v], the design that is
    returned has the points [0 .. v-1], as many blocks as GAP gave, every
    block inside the points, and its blocks are GAP's blocks with every
    label lowered by one (up to the order in which the incidence structure
    stores them). *)
Theorem gap_designs_zero_based
    (vs : VectorSpaceLib) (gap_witt : Z -> result (Z * list (list Z)))
    (gap_pg : Z -> Z -> Z -> result (Z * list (list Z)))
    (gap_ag : Z -> Z -> Z -> result (list (list Z))) (fac : Facade) :
  keeps_blocks fac ->
  (forall n v gblcks D,
      gap_witt n = Ok (v, gblcks) ->
      Forall (Forall (fun x => 1 <= x <= v)) gblcks ->
      WittDesign gap_witt fac n = Ok D ->
      pnts D = range v /\ len (blcks D) = len gblcks
      /\ Forall (fun b => incl b (pnts D)) (blcks D)
      /\ same_blocks (map (map (fun x => x - 1)) gblcks) (blcks D))
  /\ (forall n d F q gblcks D,
      (int_of F = Ok q
       \/ (int_of F = Err TypeError /\ order_method F = Ok (FiniteOrder q))) ->
      gap_ag q n d = Ok gblcks ->
      Forall (Forall (fun x => 1 <= x <= q ^ n)) gblcks ->
      AffineGeometryDesign gap_ag fac n d F = Ok D ->
      pnts D = range (q ^ n) /\ len (blcks D) = len gblcks
      /\ Forall (fun b => incl b (pnts D)) (blcks D)
      /\ same_blocks (map (map (fun x => x - 1)) gblcks) (blcks D))
  /\ (forall n d K v gblcks D,
      gap_pg (order K) n d = Ok (v, gblcks) ->
      Forall (Forall (fun x => 1 <= x <= v)) gblcks ->
      ProjectiveGeometryDesign vs gap_pg fac n d (FieldObject K) GapAlgorithm = Ok D ->
      pnts D = range v /\ len (blcks D) = len gblcks
      /\ Forall (fun b => incl b (pnts D)) (blcks D)
      /\ same_blocks (map (map (fun x => x - 1)) gblcks) (blcks D)).
Proof.
  intros Hk; split; [|split].
  - intros n v gblcks D Hg HF HD; unfold WittDesign in HD; rewrite Hg in HD.
    cbn [bind fst snd] in HD.
    exact (BlockDesign_zero_based fac v gblcks D Hk HF HD).
  - intros n d F q gblcks D Hq Hg HF HD; unfold AffineGeometryDesign in HD.
    assert (E : match int_of F with
                | Ok q0 => Ok q0
                | Err TypeError => o <- order_method F ;; order_int o
                | Err e => Err e
                end = Ok q).
    { destruct Hq as [->|[-> ->]]; reflexivity. }
    rewrite E in HD; cbn [bind] in HD; rewrite Hg in HD; cbn [bind] in HD.
    exact (BlockDesign_zero_based fac (q ^ n) gblcks D Hk HF HD).
  - intros n d K v gblcks D Hg HF HD; unfold ProjectiveGeometryDesign in HD.
    cbn [order_method bind] in HD; rewrite Hg in HD; cbn [bind fst snd] in HD.
    exact (BlockDesign_zero_based fac v gblcks D Hk HF HD).
Qed.

Lemma gap_designs_zero_based_witness :
  exists D,
    WittDesign (fun _ => Ok (4, [[1; 2]; [3; 4]; [1; 3]; [2; 4]; [1; 4]; [2; 3]]))
      (sorting_facade regular_checker) 9 = Ok D
    /\ pnts D = range 4 /\ len (blcks D) = 6
    /\ Forall (fun b => incl b (pnts D)) (blcks D)
    /\ same_blocks
         (map (map (fun x => x - 1)) [[1; 2]; [3; 4]; [1; 3]; [2; 4]; [1; 4]; [2; 3]])
         (blcks D).
Proof.
  eexists; split; [vm_compute; reflexivity|].
  apply (proj1 (gap_designs_zero_based listed_spaces
                  (fun _ => Ok (4, [[1; 2]; [3; 4]; [1; 3]; [2; 4]; [1; 4]; [2; 3]]))
                  no_gap_pg (fun _ _ _ => Err RuntimeError)
                  (sorting_facade regular_checker)
                  (sorting_facade_keeps_blocks regular_checker)) 9 4
               [[1; 2]; [3; 4]; [1; 3]; [2; 4]; [1; 4]; [2; 3]]).
  - reflexivity.
  - repeat constructor; lia.
  - vm_compute; reflexivity.
Defined.

(** ** The number of points of a projective geometry *)

Lemma geometric_sum_closed (q : Z) (n : nat) :
  (q - 1) * geometric_sum q n = q ^ (Z.of_nat n + 1) - 1.
Proof.
  induction n as [|n IH]; [simpl; lia|].
  cbn [geometric_sum]; rewrite Z.mul_add_distr_l, IH.
  replace (Z.of_nat (S n) + 1) with (Z.succ (Z.of_nat (S n))) by lia.
  rewrite Z.pow_succ_r by lia.
  replace (Z.of_nat n + 1) with (Z.of_nat (S n)) by lia; ring.
Qed.

Lemma geometric_sum_pos (q : Z) (n : nat) : 0 <= q -> 1 <= geometric_sum q n.
Proof.
  intros Hq; induction n as [|n IH]; cbn [geometric_sum]; [lia|].
  pose proof (Z.pow_nonneg q (Z.of_nat (S n)) Hq); lia.
Qed.

(** X10: with the default algorithm and a field of order [q >= 2], the
    quotient [(q^(n+1) - 1) / (q - 1)] that [ProjectiveGeometryDesign] takes
    for the number of points is exact and equals [1 + q + ... + q^n]; the
    design that is returned has the points [0 .. v-1] for that [v]. *)
Theorem ProjectiveGeometryDesign_points
    (vs : VectorSpaceLib) (gap_pg : Z -> Z -> Z -> result (Z * list (list Z)))
    (fac : Facade) (n d : Z) (K : FieldObj) (D : design) :
  2 <= order K -> 0 <= n ->
  ProjectiveGeometryDesign vs gap_pg fac n d (FieldObject K) SageAlgorithm = Ok D ->
  let v := geometric_sum (order K) (Z.to_nat n) in
  (order K - 1) * v = order K ^ (n + 1) - 1
  /\ (order K ^ (n + 1) - 1) mod (order K - 1) = 0
  /\ pnts D = range v
  /\ len (pnts D) = v.
Proof.
  intros Hq Hn HD v.
  assert (Hv : (order K - 1) * v = order K ^ (n + 1) - 1).
  { unfold v; rewrite geometric_sum_closed; f_equal; f_equal; lia. }
  assert (Hdiv : (order K ^ (n + 1) - 1) / (order K - 1) = v).
  { rewrite <- Hv, Z.mul_comm; apply Z.div_mul; lia. }
  split; [exact Hv|]. split.
  { rewrite <- Hv, Z.mul_comm; apply Z.mod_mul; lia. }
  unfold ProjectiveGeometryDesign, divmod in HD; cbn [order_method order_int bind] in HD.
  destruct (Z.eqb_spec (order K - 1) 0); [lia|].
  cbn [bind fst] in HD; rewrite Hdiv in HD.
  unfold BlockDesign in HD; cbn [negb] in HD.
  destruct (block_design_checker fac _); [|discriminate].
  inversion HD; subst D; cbn [pnts IncidenceStructure].
  split; [reflexivity|].
  apply range_len; pose proof (geometric_sum_pos (order K) (Z.to_nat n)); lia.
Qed.

Lemma ProjectiveGeometryDesign_points_witness :
  exists D,
    ProjectiveGeometryDesign listed_spaces no_gap_pg (plain_facade regular_checker)
      3 1 (FieldObject GF2) SageAlgorithm = Ok D
    /\ pnts D = range 15.
Proof.
  eexists; split; [vm_compute; reflexivity|].
  refine (proj1 (proj2 (proj2 (ProjectiveGeometryDesign_points listed_spaces no_gap_pg
           (plain_facade regular_checker) 3 1 GF2 _ _ _ _))));
    [vm_compute; discriminate | lia | vm_compute; reflexivity].
Defined.

(** ** [projective_plane] returns a plane *)

(** X11: when [projective_plane n] returns a design, [n] is a prime power
    that passes the tests of non-existence, and, [FiniteField(n)] being a
    field of order [n], the design is a projective plane of order [n] on the
    points [0 .. n^2+n]. *)
Theorem projective_plane_returns_plane
    (FF : Z -> option FieldObj) (fac : Facade) (n : Z) (K : FieldObj) (D : design) :
  FF n = Some K -> is_finite_field K n -> keeps_blocks fac ->
  projective_plane FF fac n = Ok D ->
  prime_power n /\ ~ no_plane_known n
  /\ pnts D = range (n ^ 2 + n + 1) /\ is_projective_plane n D.
Proof.
  intros HFF Hff Hk HD.
  destruct (projective_plane_cases FF fac n) as [[_ E]|[[_ [_ E]]|[Hno [Hpp E]]]];
    rewrite E in HD; try discriminate.
  split; [exact Hpp|]. split; [exact Hno|].
  apply (desarguesian_design_is_plane FF fac n K true D HFF Hff Hk HD).
Qed.

Lemma projective_plane_returns_plane_witness :
  exists D,
    projective_plane small_fields (sorting_facade regular_checker) 4 = Ok D
    /\ prime_power 4 /\ ~ no_plane_known 4
    /\ pnts D = range (4 ^ 2 + 4 + 1) /\ is_projective_plane 4 D.
Proof.
  eexists; split; [vm_compute; reflexivity|].
  apply (projective_plane_returns_plane small_fields (sorting_facade regular_checker)
           4 GF4 _ eq_refl GF4_is_finite_field
           (sorting_facade_keeps_blocks regular_checker)).
  vm_compute; reflexivity.
Defined.

(** ** The iteration order of the dictionary *)

Lemma Permutation_list_prod {A : Type} (l l' : list A) :
  NoDup l -> Permutation l l' -> Permutation (list_prod l l) (list_prod l' l').
Proof.
  intros Hnd Hp.
  assert (Hnd' : NoDup l') by (eapply Permutation_NoDup; eassumption).
  apply NoDup_Permutation; try (apply NoDup_list_prod; assumption).
  intros [x y]; rewrite !in_prod_iff; split; intros [H1 H2]; split.
  - apply (Permutation_in _ Hp H1).
  - apply (Permutation_in _ Hp H2).
  - apply (Permutation_in _ (Permutation_sym Hp) H1).
  - apply (Permutation_in _ (Permutation_sym Hp) H2).
Qed.

Lemma Forall2_map_same {A B : Type} (R : B -> B -> Prop) (f g : A -> B) (l : list A) :
  (forall x, R (f x) (g x)) -> Forall2 R (map f l) (map g l).
Proof. intros H; induction l; simpl; constructor; auto. Qed.

Lemma with_dict_iter_field (K : FieldObj) (n : Z) (iter : list (carrier K)) :
  is_finite_field K n -> Permutation (dict_iter K) iter ->
  is_finite_field (with_dict_iter K iter) n.
Proof.
  intros (Hord & Hnd & Hall & Hind & Hiall & Heqb & Hlaws) Hp.
  split; [exact Hord|]. split; [exact Hnd|]. split; [exact Hall|].
  split; [eapply Permutation_NoDup; eassumption|].
  split; [intros x; eapply Permutation_in; [exact Hp | apply Hiall]|].
  split; [exact Heqb | exact Hlaws].
Qed.

(** X12: the block list of the Desarguesian plane does not depend on the
    order in which the dictionary [relabel] is iterated, except for the
    order of the blocks and of the points inside a block. *)
Theorem desarguesian_blocks_dict_order (K : FieldObj) (n : Z) (iter : list (carrier K)) :
  is_finite_field K n -> Permutation (dict_iter K) iter ->
  exists raw raw',
    desarguesian_blocks K n = Ok raw
    /\ desarguesian_blocks (with_dict_iter K iter) n = Ok raw'
    /\ same_blocks raw raw'.
Proof.
  intros Hff Hp.
  pose proof (with_dict_iter_field K n iter Hff Hp) as Hff'.
  eexists; eexists.
  split; [apply (desarguesian_blocks_points K n Hff)|].
  split; [apply (desarguesian_blocks_points (with_dict_iter K iter) n Hff')|].
  cbn [dict_iter with_dict_iter].
  assert (Hnd : NoDup (dict_iter K)) by (destruct Hff as (_ & _ & _ & H & _); exact H).
  exists (map (fun sa => slope_points K n (fst sa) (snd sa)) (list_prod iter iter)
          ++ map (horizontal_points K n) iter ++ [infinity_line n]).
  split.
  - apply Permutation_app; [apply Permutation_map, Permutation_list_prod; assumption|].
    apply Permutation_app; [apply Permutation_map; exact Hp | reflexivity].
  - apply Forall2_app; [|apply Forall2_app].
    + apply Forall2_map_same; intros [s a]; unfold slope_points.
      cbn [fst snd dict_iter with_dict_iter elements feqb fadd fmul].
      apply Permutation_app; [apply Permutation_map; exact Hp | reflexivity].
    + apply Forall2_map_same; intros a; unfold horizontal_points.
      cbn [dict_iter with_dict_iter elements feqb].
      apply Permutation_app; [apply Permutation_map; exact Hp | reflexivity].
    + constructor; [reflexivity | constructor].
Qed.

Lemma desarguesian_blocks_dict_order_witness :
  exists raw raw',
    desarguesian_blocks GF4 4 = Ok raw
    /\ desarguesian_blocks
         (with_dict_iter GF4 [(true, true); (false, false); (false, true); (true, false)]) 4
       = Ok raw'
    /\ same_blocks raw raw'.
Proof.
  apply (desarguesian_blocks_dict_order GF4 4
           [(true, true); (false, false); (false, true); (true, false)]
           GF4_is_finite_field).
  apply NoDup_Permutation.
  - repeat constructor; simpl; intuition discriminate.
  - repeat constructor; simpl; intuition discriminate.
  - intros [[] []]; simpl; tauto.
Defined.

(** ** [OA_to_projective_plane] with its final test *)







(** ** The outcomes of [projective_plane] *)

(** C4: [projective_plane n] raises [EmptySetError] exactly when [n <= 1],
    or [n = 10], or [n mod 4] is 1 or 2 and [n] is not a sum of two squares;
    it raises [NotImplementedError] exactly when none of those hold and [n]
    is not a prime power; otherwise it calls the Desarguesian plane builder
    and, [FiniteField(n)] being a field of order [n], what it returns is the
    Desarguesian plane of order [n]: the incidence structure on the points
    [0 .. n^2+n] whose blocks are the lines [x = s*y + a], [y = a] and the
    line at infinity, which is a projective plane of order [n]; it is
    returned when the parameter test accepts it.  Orders 6, 10, 14 raise
    [EmptySetError], order 12 raises [NotImplementedError], and orders 2, 3,
    4, 5 return a projective plane for the sample fields and the test of a
    2-design. *)
Theorem projective_plane_outcomes (FF : Z -> option FieldObj) (fac : Facade) :
  (forall n, projective_plane FF fac n = Err EmptySetError <-> no_plane_known n)
  /\ (forall n, projective_plane FF fac n = Err NotImplementedError
                <-> ~ no_plane_known n /\ ~ prime_power n)
  /\ (forall n, ~ no_plane_known n -> prime_power n ->
                projective_plane FF fac n
                = DesarguesianProjectivePlaneDesign FF fac n true)
  /\ (forall n K, ~ no_plane_known n -> prime_power n ->
       FF n = Some K -> is_finite_field K n -> keeps_blocks fac ->
       let raw := map (fun sa => slope_points K n (fst sa) (snd sa))
                      (list_prod (dict_iter K) (dict_iter K))
                  ++ map (horizontal_points K n) (dict_iter K) ++ [infinity_line n] in
       let D := IncidenceStructure fac (range (n ^ 2 + n + 1)) raw in
       desarguesian_blocks K n = Ok raw
       /\ projective_plane FF fac n
          = (if block_design_checker fac D then Ok D else Err TypeError)
       /\ is_projective_plane n D
       /\ same_blocks raw (blcks D)
       /\ (forall D', projective_plane FF fac n = Ok D' ->
                      D' = D /\ is_projective_plane n D'))
  /\ Forall (fun n => projective_plane FF fac n = Err EmptySetError) [6; 10; 14]
  /\ projective_plane FF fac 12 = Err NotImplementedError
  /\ Forall (fun n => projective_plane FF fac n
                      = DesarguesianProjectivePlaneDesign FF fac n true) [2; 3; 4; 5]
  /\ Forall (fun n => exists D,
               projective_plane small_fields (sorting_facade two_design_checker) n = Ok D
               /\ pnts D = range (n ^ 2 + n + 1)
               /\ len (pnts D) = n ^ 2 + n + 1 /\ len (blcks D) = n ^ 2 + n + 1
               /\ is_projective_plane n D)
            [2; 3; 4; 5].
Proof.
  split; [|split; [|split; [|split; [|split; [|split; [|split]]]]]].
  - intros n; destruct (projective_plane_cases FF fac n) as [[H E]|[[H [_ E]]|[H [_ E]]]];
      rewrite E; split; intros H'; try congruence; try contradiction; try reflexivity.
    apply DesarguesianProjectivePlaneDesign_Err in H'.
    destruct H' as [?|[?|?]]; discriminate.
  - intros n; destruct (projective_plane_cases FF fac n) as [[H E]|[[H [Hp E]]|[H [Hp E]]]];
      rewrite E; split; intros H'; try congruence; try tauto.
    apply DesarguesianProjectivePlaneDesign_Err in H'.
    destruct H' as [?|[?|?]]; discriminate.
  - intros n Hn Hp.
    destruct (projective_plane_cases FF fac n) as [[H E]|[[H [Hp' E]]|[H [_ E]]]];
      [contradiction | contradiction | exact E].
  - intros n K Hn Hp HFF Hff Hk raw D.
    destruct (desarguesian_blocks_plane K n Hff) as (Hb & _); fold raw in Hb.
    assert (E : forall c, DesarguesianProjectivePlaneDesign FF fac n c
                          = BlockDesign fac (n ^ 2 + n + 1) raw c).
    { intros c; unfold DesarguesianProjectivePlaneDesign; rewrite HFF, Hb; reflexivity. }
    assert (HD : is_projective_plane n D).
    { apply (desarguesian_design_is_plane FF fac n K false D HFF Hff Hk).
      rewrite E; reflexivity. }
    assert (EP : projective_plane FF fac n
                 = (if block_design_checker fac D then Ok D else Err TypeError)).
    { destruct (projective_plane_cases FF fac n) as [[H _]|[[_ [Hp' _]]|[_ [_ E']]]];
        [contradiction | contradiction |].
      rewrite E', E; reflexivity. }
    split; [exact Hb|]. split; [exact EP|]. split; [exact HD|]. split.
    + destruct (Hk raw) as [bl [H1 H2]]; exists bl; auto.
    + intros D' HD'; rewrite EP in HD'.
      assert (D' = D) by (destruct (block_design_checker fac D); congruence).
      subst D'; auto.
  - repeat constructor.
  - reflexivity.
  - repeat constructor.
  - repeat constructor; eexists;
      (split; [vm_compute; reflexivity|]; split; [reflexivity|];
       split; [reflexivity|]; split; [reflexivity|];
       apply plane_test_sound; vm_compute; reflexivity).
Qed.

Lemma projective_plane_outcomes_witness :
  let fac := sorting_facade two_design_checker in
  let raw := map (fun sa => slope_points GF4 4 (fst sa) (snd sa))
                 (list_prod (dict_iter GF4) (dict_iter GF4))
             ++ map (horizontal_points GF4 4) (dict_iter GF4) ++ [infinity_line 4] in
  let D := IncidenceStructure fac (range 21) raw in
  projective_plane small_fields fac 4 = Ok D /\ is_projective_plane 4 D.
Proof.
  intros fac raw D.
  assert (Hn : ~ no_plane_known 4).
  { unfold no_plane_known; intros [H|[H|[[H|H] _]]]; vm_compute in H; try discriminate.
    apply H; reflexivity. }
  assert (Hp : prime_power 4) by (apply is_prime_power_spec; vm_compute; reflexivity).
  destruct (proj1 (proj2 (proj2 (proj2 (projective_plane_outcomes small_fields fac))))
              4 GF4 Hn Hp eq_refl GF4_is_finite_field
              (sorting_facade_keeps_blocks two_design_checker))
    as (_ & E & P & _).
  split; [exact E | exact P].
Defined.
